(** * HexStrike scan orchestration: result cache, resilient executor, scheduler

    A shallow embedding of
      - [core/cache/scan_cache.py]        (ScanResultCache, CacheAwareExecutor),
      - [core/execution/error_handler.py] (ErrorDiagnostics, ToolAlternatives,
                                           ResilientExecutor),
      - [core/execution/parallel_scanner.py] (ParallelScanner,
                                              SmartParallelScanner),
      - [core/utils/tool_checker.py]      (ToolChecker),
    together with the properties stated about them.

    Conventions.  Python [str] values are Rocq strings whose characters are
    the code points U+0000..U+00FF.  Python [dict]s that are passed around as
    data (parameters, tool results) are association lists in insertion order
    with pairwise distinct keys; dictionaries used as stores (the memory
    cache, the executor registry, the scheduler's result map) are [gmap]s.
    Clock readings ([time.time()]) and durations are integers in one fixed
    unit; floating-point rounding is outside the model. *)

From Stdlib Require Import ZArith Lia List Ascii String Permutation Sorted.
From Stdlib Require Import DecimalString.
From stdpp Require Import base option gmap strings.

Set Warnings "-register-all".

Local Open Scope string_scope.
Local Open Scope list_scope.
Local Open Scope Z_scope.

(** ** Python values *)

Module Py.

Inductive pyval : Type :=
| PNone
| PBool (b : bool)
| PInt (n : Z)
| PStr (s : string)
| PList (l : list pyval)
| PDict (d : list (string * pyval)).

Abbreviation pydict := (list (string * pyval)).

(** [bool(v)] *)
Definition truthy (v : pyval) : bool :=
  match v with
  | PNone => false
  | PBool b => b
  | PInt n => negb (n =? 0)
  | PStr s => negb (String.eqb s EmptyString)
  | PList l => match l with [] => false | _ => true end
  | PDict d => match d with [] => false | _ => true end
  end.

(** [d.get(k)] *)
Fixpoint dict_get (k : string) (d : pydict) : option pyval :=
  match d with
  | [] => None
  | (k', v) :: d' => if String.eqb k k' then Some v else dict_get k d'
  end.

(** [d.get(k, dflt)] *)
Definition dict_get_default (k : string) (dflt : pyval) (d : pydict) : pyval :=
  match dict_get k d with Some v => v | None => dflt end.

(** [d[k] = v]: an existing key keeps its position, a new key goes last. *)
Fixpoint dict_set (k : string) (v : pyval) (d : pydict) : pydict :=
  match d with
  | [] => [(k, v)]
  | (k', v') :: d' =>
      if String.eqb k k' then (k', v) :: d' else (k', v') :: dict_set k v d'
  end.

(** The dictionary display [{**d, k1: v1, ..., kn: vn}]. *)
Definition dict_update (d : pydict) (kvs : pydict) : pydict :=
  fold_left (fun acc kv => dict_set (fst kv) (snd kv) acc) kvs d.

(** *** Characters and strings *)

Definition code (c : ascii) : Z := Z.of_N (N_of_ascii c).
Definition chr (n : Z) : ascii := ascii_of_N (Z.to_N n).

Definition str1 (c : ascii) : string := String c EmptyString.

Definition dquote : ascii := chr 34.
Definition squote : ascii := chr 39.
Definition backslash : ascii := chr 92.

(** [str.lower()] on one code point below U+0100. *)
Definition lower_char (c : ascii) : ascii :=
  let n := code c in
  if (65 <=? n) && (n <=? 90) then chr (n + 32)
  else if (192 <=? n) && (n <=? 222) && negb (n =? 215) then chr (n + 32)
  else c.

Fixpoint lower (s : string) : string :=
  match s with
  | EmptyString => EmptyString
  | String c s' => String (lower_char c) (lower s')
  end.

(** [s.startswith(p)] *)
Fixpoint startswith (p s : string) : bool :=
  match p, s with
  | EmptyString, _ => true
  | String _ _, EmptyString => false
  | String a p', String b s' => Ascii.eqb a b && startswith p' s'
  end.

(** [p in s] for strings. *)
Fixpoint contains (p s : string) : bool :=
  startswith p s ||
  match s with
  | EmptyString => false
  | String _ s' => contains p s'
  end.

(** [sep.join(l)] *)
Fixpoint join (sep : string) (l : list string) : string :=
  match l with
  | [] => EmptyString
  | [x] => x
  | x :: l' => x +:+ sep +:+ join sep l'
  end.

Definition hex_digit (n : Z) : ascii :=
  if n <? 10 then chr (48 + n) else chr (87 + n).

(** two lower-case hexadecimal digits of a byte *)
Definition hex2 (n : Z) : string :=
  String (hex_digit (n / 16)) (str1 (hex_digit (n mod 16))).

(** [str(n)] for an [int] *)
Definition int_to_str (n : Z) : string :=
  NilZero.string_of_int (Z.to_int n).

(** *** [repr] and [str] *)

(** [c.isprintable()] below U+0100. *)
Definition printable (c : ascii) : bool :=
  let n := code c in
  ((32 <=? n) && (n <=? 126)) || ((161 <=? n) && negb (n =? 173)).

Definition repr_char (q : ascii) (c : ascii) : string :=
  let n := code c in
  if Ascii.eqb c q || Ascii.eqb c backslash then String backslash (str1 c)
  else if n =? 9 then String backslash "t"
  else if n =? 10 then String backslash "n"
  else if n =? 13 then String backslash "r"
  else if printable c then str1 c
  else String backslash ("x" +:+ hex2 n).

Fixpoint concat_map (f : ascii -> string) (s : string) : string :=
  match s with
  | EmptyString => EmptyString
  | String c s' => f c +:+ concat_map f s'
  end.

(** [repr(s)] for a [str]: single quotes unless the text has a single quote
    and no double quote. *)
Definition repr_str (s : string) : string :=
  let q := if contains (str1 squote) s && negb (contains (str1 dquote) s)
           then dquote else squote in
  String q (concat_map (repr_char q) s +:+ str1 q).

Fixpoint py_repr (v : pyval) : string :=
  match v with
  | PNone => "None"
  | PBool true => "True"
  | PBool false => "False"
  | PInt n => int_to_str n
  | PStr s => repr_str s
  | PList l => "[" +:+ join ", " (map py_repr l) +:+ "]"
  | PDict d =>
      "{" +:+ join ", " (map (fun kv => let '(k, x) := kv in
                                        repr_str k +:+ ": " +:+ py_repr x) d)
          +:+ "}"
  end.

(** [str(v)], which is what an f-string field [{v}] inserts. *)
Definition py_str (v : pyval) : string :=
  match v with
  | PStr s => s
  | _ => py_repr v
  end.

(** *** [json.dumps(v, sort_keys=...)] *)

(** The escape of one character by [json.dumps] (with [ensure_ascii]). *)
Definition json_char (c : ascii) : string :=
  let n := code c in
  if Ascii.eqb c dquote || Ascii.eqb c backslash then String backslash (str1 c)
  else if n =? 10 then String backslash "n"
  else if n =? 13 then String backslash "r"
  else if n =? 9 then String backslash "t"
  else if n =? 8 then String backslash "b"
  else if n =? 12 then String backslash "f"
  else if (32 <=? n) && (n <=? 126) then str1 c
  else String backslash ("u00" +:+ hex2 n).

Definition json_str (s : string) : string :=
  String dquote (concat_map json_char s +:+ str1 dquote).

(** Insertion of an item into a list of items ordered by key. *)
Fixpoint insert_item (kv : string * string) (l : list (string * string))
  : list (string * string) :=
  match l with
  | [] => [kv]
  | kv' :: l' =>
      if String.leb (fst kv) (fst kv') then kv :: l
      else kv' :: insert_item kv l'
  end.

(** [sorted(items)] by key. *)
Fixpoint sort_items (l : list (string * string)) : list (string * string) :=
  match l with
  | [] => []
  | kv :: l' => insert_item kv (sort_items l')
  end.

Definition json_item (kv : string * string) : string :=
  json_str (fst kv) +:+ ": " +:+ snd kv.

(** The items of a dictionary are paired with their encoded values first and
    ordered by key afterwards, which is the order [sort_keys] gives them. *)
Fixpoint json_dumps (sort_keys : bool) (v : pyval) : string :=
  match v with
  | PNone => "null"
  | PBool true => "true"
  | PBool false => "false"
  | PInt n => int_to_str n
  | PStr s => json_str s
  | PList l => "[" +:+ join ", " (map (json_dumps sort_keys) l) +:+ "]"
  | PDict d =>
      let items :=
        map (fun kv => let '(k, x) := kv in (k, json_dumps sort_keys x)) d in
      "{" +:+ join ", "
                (map json_item (if sort_keys then sort_items items else items))
          +:+ "}"
  end.

(** [s.encode()]: UTF-8. *)
Fixpoint encode (s : string) : list Z :=
  match s with
  | EmptyString => []
  | String c s' =>
      let n := code c in
      if n <? 128 then n :: encode s'
      else Z.lor 192 (Z.shiftr n 6) :: Z.lor 128 (Z.land n 63) :: encode s'
  end.

End Py.

Import Py.


(** ** [hashlib.md5(data).hexdigest()] (RFC 1321) *)

Module MD5.

Definition add32 (a b : Z) : Z := (a + b) mod 2 ^ 32.
Definition not32 (a : Z) : Z := Z.lxor a 0xffffffff.
Definition rotl32 (x c : Z) : Z :=
  Z.lor (Z.shiftl x c mod 2 ^ 32) (Z.shiftr x (32 - c)).

Definition shifts : list Z :=
  [7; 12; 17; 22; 7; 12; 17; 22; 7; 12; 17; 22; 7; 12; 17; 22;
   5; 9; 14; 20; 5; 9; 14; 20; 5; 9; 14; 20; 5; 9; 14; 20;
   4; 11; 16; 23; 4; 11; 16; 23; 4; 11; 16; 23; 4; 11; 16; 23;
   6; 10; 15; 21; 6; 10; 15; 21; 6; 10; 15; 21; 6; 10; 15; 21].

Definition sines : list Z :=
  [0xd76aa478; 0xe8c7b756; 0x242070db; 0xc1bdceee;
   0xf57c0faf; 0x4787c62a; 0xa8304613; 0xfd469501;
   0x698098d8; 0x8b44f7af; 0xffff5bb1; 0x895cd7be;
   0x6b901122; 0xfd987193; 0xa679438e; 0x49b40821;
   0xf61e2562; 0xc040b340; 0x265e5a51; 0xe9b6c7aa;
   0xd62f105d; 0x02441453; 0xd8a1e681; 0xe7d3fbc8;
   0x21e1cde6; 0xc33707d6; 0xf4d50d87; 0x455a14ed;
   0xa9e3e905; 0xfcefa3f8; 0x676f02d9; 0x8d2a4c8a;
   0xfffa3942; 0x8771f681; 0x6d9d6122; 0xfde5380c;
   0xa4beea44; 0x4bdecfa9; 0xf6bb4b60; 0xbebfbc70;
   0x289b7ec6; 0xeaa127fa; 0xd4ef3085; 0x04881d05;
   0xd9d4d039; 0xe6db99e5; 0x1fa27cf8; 0xc4ac5665;
   0xf4292244; 0x432aff97; 0xab9423a7; 0xfc93a039;
   0x655b59c3; 0x8f0ccc92; 0xffeff47d; 0x85845dd1;
   0x6fa87e4f; 0xfe2ce6e0; 0xa3014314; 0x4e0811a1;
   0xf7537e82; 0xbd3af235; 0x2ad7d2bb; 0xeb86d391].

Definition state : Type := Z * Z * Z * Z.

Definition init : state := (0x67452301, 0xefcdab89, 0x98badcfe, 0x10325476).

(** One of the 64 operations of a round on the 16 words [m] of a block. *)
Definition op (m : list Z) (st : state) (i : Z) : state :=
  let '(a, b, c, d) := st in
  let '(f, g) :=
    if i <? 16 then (Z.lor (Z.land b c) (Z.land (not32 b) d), i)
    else if i <? 32 then
      (Z.lor (Z.land d b) (Z.land (not32 d) c), (5 * i + 1) mod 16)
    else if i <? 48 then (Z.lxor b (Z.lxor c d), (3 * i + 5) mod 16)
    else (Z.lxor c (Z.lor b (not32 d)), (7 * i) mod 16) in
  let x := add32 (add32 (add32 f a) (nth (Z.to_nat i) sines 0))
                 (nth (Z.to_nat g) m 0) in
  (d, add32 b (rotl32 x (nth (Z.to_nat i) shifts 0)), b, c).

(** little-endian 32-bit words of a byte sequence *)
Fixpoint words (bs : list Z) : list Z :=
  match bs with
  | b0 :: b1 :: b2 :: b3 :: bs' =>
      (b0 + 256 * b1 + 65536 * b2 + 16777216 * b3) :: words bs'
  | _ => []
  end.

Definition word_bytes (w : Z) : list Z :=
  [w mod 256; (w / 256) mod 256; (w / 65536) mod 256; (w / 16777216) mod 256].

Definition block (st : state) (m : list Z) : state :=
  let '(a, b, c, d) := st in
  let '(a', b', c', d') :=
    fold_left (op m) (map Z.of_nat (seq 0 64)) st in
  (add32 a a', add32 b b', add32 c c', add32 d d').

(** the message followed by the bit 1, zeros up to 56 modulo 64, and the
    length in bits on 8 bytes *)
Definition pad (bs : list Z) : list Z :=
  let n := Z.of_nat (length bs) in
  let zeros := Z.to_nat ((55 - n) mod 64) in
  bs ++ [128] ++ repeat 0 zeros
     ++ word_bytes ((8 * n) mod 2 ^ 32) ++ word_bytes (((8 * n) / 2 ^ 32) mod 2 ^ 32).

Fixpoint blocks (n : nat) (ws : list Z) (st : state) : state :=
  match n with
  | O => st
  | S n' => blocks n' (skipn 16 ws) (block st (firstn 16 ws))
  end.

Definition digest (bs : list Z) : list Z :=
  let ws := words (pad bs) in
  let '(a, b, c, d) := blocks (Nat.div (length ws) 16) ws init in
  word_bytes a ++ word_bytes b ++ word_bytes c ++ word_bytes d.

Definition hexdigest (bs : list Z) : string :=
  fold_right (fun b acc => hex2 b +:+ acc) EmptyString (digest bs).

End MD5.

(** ** Outcomes of calls that may raise *)

Inductive outcome (A : Type) : Type :=
| Returned (a : A)
| Raised (msg : string).
Arguments Returned {A} a.
Arguments Raised {A} msg.

(** A tool executor [f(target, params)] acting on the outside world [W]. *)
Definition Executor (W : Type) : Type :=
  string -> pydict -> W -> outcome pyval * W.

(** [result.get('success')] of a result that is a [dict], as a condition *)
Definition reports_success (result : pyval) : bool :=
  match result with
  | PDict d => truthy (dict_get_default "success" PNone d)
  | _ => false
  end.

Fixpoint assoc {A : Type} (k : string) (l : list (string * A)) : option A :=
  match l with
  | [] => None
  | (k', a) :: l' => if String.eqb k k' then Some a else assoc k l'
  end.

(** ** [core/cache/scan_cache.py] *)

Module Cache.

Record CacheEntry : Type := {
  key : string;
  data : pydict;
  created_at : Z;
  expires_at : Z;
  tool_name : string;
  target : string }.

(** The Redis client, an external collaborator: [get] and [setex] act on the
    outside world and may raise ([None], [false]); [json_loads] is
    [json.loads] on what the server returned ([None]: it raises). *)
Record RedisClient (W : Type) : Type := {
  redis_get : string -> W -> option (option string) * W;
  redis_setex : string -> Z -> string -> W -> bool * W;
  json_loads : string -> option pyval }.
Arguments redis_get {W}.
Arguments redis_setex {W}.
Arguments json_loads {W}.

Record ScanResultCache (W : Type) : Type := {
  use_redis : bool;
  redis_client : option (RedisClient W);
  memory_cache : gmap string CacheEntry }.
Arguments use_redis {W}.
Arguments redis_client {W}.
Arguments memory_cache {W}.

Definition with_memory {W} (c : ScanResultCache W) (m : gmap string CacheEntry)
  : ScanResultCache W :=
  {| use_redis := use_redis c; redis_client := redis_client c;
     memory_cache := m |}.

Definition DEFAULT_TTL : list (string * Z) :=
  [("quick_scan", 3600); ("normal_scan", 7200); ("deep_scan", 14400);
   ("vulnerability_scan", 21600); ("default", 3600)].

Definition TOOL_TTL : list (string * Z) :=
  [("httpx", 1800); ("nmap", 7200); ("nuclei", 21600); ("sqlmap", 14400);
   ("subfinder", 86400); ("amass", 86400); ("nikto", 14400)].

Definition _generate_cache_key (tool_name target : string) (params : pydict)
  : string :=
  let sorted_params := json_dumps true (PDict params) in
  let data := tool_name +:+ ":" +:+ target +:+ ":" +:+ sorted_params in
  let hash_key := MD5.hexdigest (encode data) in
  "hexstrike:scan:" +:+ tool_name +:+ ":" +:+ hash_key.

(** [params or {}] *)
Definition or_empty (params : option pydict) : pydict :=
  match params with Some d => d | None => [] end.

(** [get], called when the clock reads [now]. *)
Definition get {W} (c : ScanResultCache W) (tool_name target : string)
    (params : option pydict) (now : Z) (w : W)
  : option pyval * ScanResultCache W * W :=
  let key := _generate_cache_key tool_name target (or_empty params) in
  match use_redis c, redis_client c with
  | true, Some rc =>
      match redis_get rc key w with
      | (Some (Some cached), w') =>
          if String.eqb cached EmptyString then (None, c, w')
          else match json_loads rc cached with
               | Some d => (Some d, c, w')
               | None => (None, c, w')
               end
      | (_, w') => (None, c, w')
      end
  | _, _ =>
      match memory_cache c !! key with
      | Some entry =>
          if now <? expires_at entry then (Some (PDict (data entry)), c, w)
          else (None, with_memory c (delete key (memory_cache c)), w)
      | None => (None, c, w)
      end
  end.

(** The TTL of a new entry. *)
Definition resolve_ttl (tool_name : string) (ttl : option Z)
    (scan_type : string) : Z :=
  match ttl with
  | Some t => t
  | None =>
      match assoc tool_name TOOL_TTL with
      | Some t => t
      | None =>
          match assoc scan_type DEFAULT_TTL with
          | Some t => t
          | None => 3600 (* DEFAULT_TTL['default'] *)
          end
      end
  end.

(** What [set] reads from the clock: [datetime.now().isoformat()] and the
    two calls of [time.time()]. *)
Record SetClock : Type := {
  now_iso : string;
  time_created : Z;
  time_expiry : Z }.

Definition cached_data (tool_name target : string) (result : pyval)
    (cached_at : string) (ttl : Z) : pydict :=
  [("result", result); ("tool_name", PStr tool_name); ("target", PStr target);
   ("cached_at", PStr cached_at); ("ttl", PInt ttl)].

Definition set {W} (c : ScanResultCache W) (tool_name target : string)
    (params : option pydict) (result : pyval) (ttl : option Z)
    (scan_type : string) (clk : SetClock) (w : W)
  : bool * ScanResultCache W * W :=
  let key := _generate_cache_key tool_name target (or_empty params) in
  let ttl := resolve_ttl tool_name ttl scan_type in
  let cached := cached_data tool_name target result (now_iso clk) ttl in
  match use_redis c, redis_client c with
  | true, Some rc =>
      let '(ok, w') := redis_setex rc key ttl (json_dumps false (PDict cached)) w in
      (ok, c, w')
  | _, _ =>
      let entry := {| key := key; data := cached;
                      created_at := time_created clk;
                      expires_at := time_expiry clk + ttl;
                      tool_name := tool_name; target := target |} in
      (true, with_memory c (<[key := entry]> (memory_cache c)), w)
  end.

(** [CacheAwareExecutor.execute_with_cache]; [now] is the clock reading of
    the lookup and [clk] what a store would read. *)
Definition execute_with_cache {W} (c : ScanResultCache W)
    (tool_name target : string) (params : pydict) (executor_func : Executor W)
    (force_refresh : bool) (scan_type : string) (now : Z) (clk : SetClock)
    (w : W) : outcome pyval * ScanResultCache W * W :=
  let run (c : ScanResultCache W) (w : W) :=
    match executor_func target params w with
    | (Raised msg, w1) => (Raised msg, c, w1)
    | (Returned result, w1) =>
        let '(c2, w2) :=
          if reports_success result
          then let '(_, c2, w2) :=
                 set c tool_name target (Some params) result None scan_type clk w1 in
               (c2, w2)
          else (c, w1) in
        match result with
        | PDict d => (Returned (PDict (dict_update d [("from_cache", PBool false)])), c2, w2)
        | _ => (Raised "TypeError", c2, w2)
        end
    end in
  if force_refresh then run c w
  else
    let '(cached, c1, w1) := get c tool_name target (Some params) now w in
    match cached with
    | Some v =>
        if truthy v then
          match v with
          | PDict cd =>
              match dict_get_default "result" (PDict []) cd with
              | PDict r =>
                  (Returned
                     (PDict (dict_update r
                               [("from_cache", PBool true);
                                ("cached_at", dict_get_default "cached_at" PNone cd)])),
                   c1, w1)
              | _ => (Raised "TypeError", c1, w1)
              end
          | _ => (Raised "AttributeError", c1, w1)
          end
        else run c1 w1
    | None => run c1 w1
    end.

(** The operations of the Redis client that the maintenance functions use:
    [delete] of some keys gives the number of keys removed and [keys] of a
    pattern the keys that match ([None]: the call raises). *)
Record RedisKeyspace (W : Type) : Type := {
  redis_delete : list string -> W -> option Z * W;
  redis_keys : string -> W -> option (list string) * W }.
Arguments redis_delete {W}.
Arguments redis_keys {W}.

Definition invalidate {W} (c : ScanResultCache W) (rk : RedisKeyspace W)
    (tool_name target : string) (params : option pydict) (w : W)
  : bool * ScanResultCache W * W :=
  let key := _generate_cache_key tool_name target (or_empty params) in
  match use_redis c, redis_client c with
  | true, Some _ =>
      match redis_delete rk [key] w with
      | (Some deleted, w') => (negb (deleted =? 0), c, w')
      | (None, w') => (false, c, w')
      end
  | _, _ =>
      match memory_cache c !! key with
      | Some _ => (true, with_memory c (delete key (memory_cache c)), w)
      | None => (false, c, w)
      end
  end.

(** [pattern.replace('*', '')] *)
Fixpoint remove_stars (pattern : string) : string :=
  match pattern with
  | EmptyString => EmptyString
  | String ch rest =>
      if Ascii.eqb ch (chr 42) then remove_stars rest
      else String ch (remove_stars rest)
  end.

(** [if pattern:] for an optional string *)
Definition pattern_given (pattern : option string) : bool :=
  match pattern with
  | Some p => negb (String.eqb p EmptyString)
  | None => false
  end.

Definition clear_all {W} (c : ScanResultCache W) (rk : RedisKeyspace W)
    (pattern : option string) (w : W) : Z * ScanResultCache W * W :=
  match use_redis c, redis_client c with
  | true, Some _ =>
      let asked :=
        match pattern with
        | Some p => if pattern_given pattern then p else "hexstrike:scan:*"
        | None => "hexstrike:scan:*"
        end in
      match redis_keys rk asked w with
      | (Some [], w1) => (0, c, w1)
      | (Some keys, w1) =>
          match redis_delete rk keys w1 with
          | (Some count, w2) => (count, c, w2)
          | (None, w2) => (0, c, w2)
          end
      | (None, w1) => (0, c, w1)
      end
  | _, _ =>
      match pattern with
      | Some p =>
          if pattern_given pattern then
            let doomed (k : string) := contains (remove_stars p) k in
            (Z.of_nat (size (filter (fun kv => doomed (fst kv) = true)
                               (memory_cache c))),
             with_memory c (filter (fun kv => doomed (fst kv) = false)
                              (memory_cache c)),
             w)
          else (Z.of_nat (size (memory_cache c)), with_memory c ∅, w)
      | None => (Z.of_nat (size (memory_cache c)), with_memory c ∅, w)
      end
  end.

(** [cleanup_expired], called when the clock reads [now]; the test is on the
    flag [use_redis] alone. *)
Definition cleanup_expired {W} (c : ScanResultCache W) (now : Z)
  : Z * ScanResultCache W :=
  if use_redis c then (0, c)
  else
    (Z.of_nat (size (filter (fun kv => expires_at (snd kv) <= now)
                       (memory_cache c))),
     with_memory c (filter (fun kv => now < expires_at (snd kv))
                      (memory_cache c))).

(** [tool_counts[tool] = tool_counts.get(tool, 0) + 1] for each tool of
    the list *)
Fixpoint count_tools (tools : list string) (tool_counts : gmap string Z)
  : gmap string Z :=
  match tools with
  | [] => tool_counts
  | tool :: rest =>
      count_tools rest
        (<[tool := default 0 (tool_counts !! tool) + 1]> tool_counts)
  end.

(** [s.split(':')]; [acc] is the part read so far. *)
Fixpoint split_colon (acc s : string) : list string :=
  match s with
  | EmptyString => [acc]
  | String ch rest =>
      if Ascii.eqb ch (chr 58) then acc :: split_colon EmptyString rest
      else split_colon (acc +:+ str1 ch) rest
  end.

(** What [get_stats] returns: the dictionary of the Redis backend, that of
    the memory backend, or the one with the error. *)
Inductive Stats : Type :=
| RedisStats (total_entries : Z) (by_tool : gmap string Z)
| MemoryStats (total_entries valid_entries : Z) (by_tool : gmap string Z)
| StatsError.

Definition get_stats {W} (c : ScanResultCache W) (rk : RedisKeyspace W)
    (now : Z) (w : W) : Stats * W :=
  match use_redis c, redis_client c with
  | true, Some _ =>
      match redis_keys rk "hexstrike:scan:*" w with
      | (Some keys, w1) =>
          let tools :=
            omap (fun k => nth_error (split_colon EmptyString k) 2) keys in
          (RedisStats (Z.of_nat (length keys)) (count_tools tools ∅), w1)
      | (None, w1) => (StatsError, w1)
      end
  | _, _ =>
      let valid :=
        List.filter (fun entry => now <? expires_at entry)
          (map snd (map_to_list (memory_cache c))) in
      (MemoryStats (Z.of_nat (size (memory_cache c)))
         (Z.of_nat (length valid))
         (count_tools (map tool_name valid) ∅),
       w)
  end.


End Cache.

(** ** [core/utils/tool_checker.py] (the part the executor uses) *)

Module ToolChecker.

Definition TOOL_INSTALL_COMMANDS : list (string * string) :=
  [("dalfox", "go install github.com/hahwul/dalfox/v2@latest");
   ("subfinder", "go install -v github.com/projectdiscovery/subfinder/v2/cmd/subfinder@latest");
   ("nuclei", "go install -v github.com/projectdiscovery/nuclei/v3/cmd/nuclei@latest");
   ("httpx", "go install -v github.com/projectdiscovery/httpx/cmd/httpx@latest");
   ("katana", "go install github.com/projectdiscovery/katana/cmd/katana@latest");
   ("gau", "go install github.com/lc/gau/v2/cmd/gau@latest");
   ("waybackurls", "go install github.com/tomnomnom/waybackurls@latest");
   ("amass", "go install -v github.com/owasp-amass/amass/v4/...@master");
   ("ffuf", "go install github.com/ffuf/ffuf/v2@latest");
   ("arjun", "pip3 install arjun");
   ("sqlmap", "sudo apt install sqlmap -y");
   ("wpscan", "sudo gem install wpscan");
   ("nmap", "sudo apt install nmap -y");
   ("nikto", "sudo apt install nikto -y");
   ("gobuster", "sudo apt install gobuster -y");
   ("masscan", "sudo apt install masscan -y");
   ("hydra", "sudo apt install hydra -y");
   ("john", "sudo apt install john -y");
   ("hashcat", "sudo apt install hashcat -y");
   ("metasploit-framework", "sudo apt install metasploit-framework -y");
   ("feroxbuster", "sudo apt install feroxbuster -y");
   ("dirsearch", "sudo apt install dirsearch -y");
   ("whatweb", "sudo apt install whatweb -y");
   ("testssl", "sudo apt install testssl.sh -y");
   ("sslscan", "sudo apt install sslscan -y")].

Definition TOOL_ALIASES : list (string * string) :=
  [("testssl.sh", "testssl")].

(** [name.split('/')[-1]]; [acc] is the component read so far. *)
Fixpoint last_component (acc name : string) : string :=
  match name with
  | EmptyString => acc
  | String c name' =>
      if Ascii.eqb c (chr 47) then last_component EmptyString name'
      else last_component (acc +:+ str1 c) name'
  end.

(** [which] stands for [shutil.which(binary) is not None]; the function is
    memoized in the source, one answer per name. *)
Definition is_tool_available (which : string -> bool) (tool_name : string)
  : bool :=
  let tool_name :=
    match assoc tool_name TOOL_ALIASES with Some a => a | None => tool_name end in
  let tool_binary := last_component EmptyString tool_name in
  which tool_binary.

Definition check_tool_or_error (which : string -> bool) (tool_name : string)
  : pydict :=
  if is_tool_available which tool_name then
    [("available", PBool true); ("tool", PStr tool_name)]
  else
    let install_cmd :=
      match assoc tool_name TOOL_INSTALL_COMMANDS with
      | Some c => c
      | None => "# Unknown tool. Try: apt search " +:+ tool_name
      end in
    [("available", PBool false);
     ("error", PStr ("Tool '" +:+ tool_name +:+ "' is not installed or not in PATH"));
     ("tool", PStr tool_name);
     ("install_command", PStr install_cmd);
     ("suggestion", PStr ("Install using: " +:+ install_cmd))].

(** [get_available_tools]: the dictionary comprehension over the list, as
    the list of its items (a tool listed twice gets one item, at its first
    place). *)
Fixpoint get_available_tools_from (which : string -> bool)
    (tool_list : list string) (seen : list (string * bool))
  : list (string * bool) :=
  match tool_list with
  | [] => seen
  | tool :: rest =>
      let available := is_tool_available which tool in
      let seen' :=
        match assoc tool seen with
        | Some _ => map (fun kv => if String.eqb (fst kv) tool
                                   then (tool, available) else kv) seen
        | None => seen ++ [(tool, available)]
        end in
      get_available_tools_from which rest seen'
  end.

Definition get_available_tools (which : string -> bool)
    (tool_list : list string) : list (string * bool) :=
  get_available_tools_from which tool_list [].

Definition get_missing_tools (which : string -> bool)
    (tool_list : list string) : list string :=
  List.filter (fun tool => negb (is_tool_available which tool)) tool_list.


End ToolChecker.

(** ** [core/execution/error_handler.py] *)

Module Handler.

Inductive ErrorType : Type :=
| TOOL_NOT_FOUND
| TIMEOUT
| PERMISSION_DENIED
| NETWORK_ERROR
| INVALID_TARGET
| WAF_DETECTED
| RATE_LIMITED
| UNKNOWN.

Definition ErrorType_eqb (a b : ErrorType) : bool :=
  match a, b with
  | TOOL_NOT_FOUND, TOOL_NOT_FOUND | TIMEOUT, TIMEOUT
  | PERMISSION_DENIED, PERMISSION_DENIED | NETWORK_ERROR, NETWORK_ERROR
  | INVALID_TARGET, INVALID_TARGET | WAF_DETECTED, WAF_DETECTED
  | RATE_LIMITED, RATE_LIMITED | UNKNOWN, UNKNOWN => true
  | _, _ => false
  end.

(** [error_type.value] *)
Definition value (e : ErrorType) : string :=
  match e with
  | TOOL_NOT_FOUND => "tool_not_found"
  | TIMEOUT => "timeout"
  | PERMISSION_DENIED => "permission_denied"
  | NETWORK_ERROR => "network_error"
  | INVALID_TARGET => "invalid_target"
  | WAF_DETECTED => "waf_detected"
  | RATE_LIMITED => "rate_limited"
  | UNKNOWN => "unknown"
  end.

Record ErrorContext : Type := {
  error_type : ErrorType;
  tool_name : string;
  target : string;
  error_message : pyval;
  timestamp : Z;
  retry_count : Z;
  suggestions : list string }.

(** *** ToolAlternatives *)

Definition ALTERNATIVES : list (string * list string) :=
  [("httpx", ["curl"; "wget"]);
   ("nuclei", ["nikto"; "wpscan"]);
   ("nikto", ["nuclei"; "wpscan"]);
   ("dalfox", ["xsser"; "xsstrike"]);
   ("gobuster", ["feroxbuster"; "ffuf"; "dirsearch"]);
   ("feroxbuster", ["gobuster"; "ffuf"; "dirsearch"]);
   ("ffuf", ["gobuster"; "feroxbuster"; "dirsearch"]);
   ("dirsearch", ["gobuster"; "feroxbuster"; "ffuf"]);
   ("subfinder", ["amass"; "assetfinder"; "sublist3r"]);
   ("amass", ["subfinder"; "assetfinder"]);
   ("nmap", ["masscan"; "rustscan"]);
   ("masscan", ["nmap"; "rustscan"]);
   ("rustscan", ["nmap"; "masscan"]);
   ("sqlmap", ["sqliv"; "sqlninja"]);
   ("arjun", ["paramspider"; "x8"]);
   ("paramspider", ["arjun"; "x8"]);
   ("x8", ["arjun"; "paramspider"]);
   ("katana", ["hakrawler"; "gospider"]);
   ("hakrawler", ["katana"; "gospider"])].

Definition get_alternatives (tool_name : string) : list string :=
  match assoc tool_name ALTERNATIVES with Some l => l | None => [] end.

Definition has_alternatives (tool_name : string) : bool :=
  match assoc tool_name ALTERNATIVES with
  | Some l => (0 <? Z.of_nat (length l))
  | None => false
  end.


(** *** ErrorDiagnostics *)

Definition ERROR_PATTERNS : list (ErrorType * list string) :=
  [(TOOL_NOT_FOUND, ["not found"; "command not found"; "No such file or directory"]);
   (TIMEOUT, ["timeout"; "timed out"; "Time limit exceeded"]);
   (PERMISSION_DENIED, ["permission denied"; "access denied"; "Operation not permitted"]);
   (NETWORK_ERROR, ["connection refused"; "network unreachable"; "no route to host";
                    "Name or service not known"]);
   (WAF_DETECTED, ["WAF"; "Web Application Firewall"; "blocked by security"; "rate limit"]);
   (RATE_LIMITED, ["rate limit"; "too many requests"; "429"])].

(** the inner loop: [for pattern in patterns: if pattern.lower() in text] *)
Fixpoint any_pattern (patterns : list string) (combined_text : string) : bool :=
  match patterns with
  | [] => false
  | pattern :: patterns' =>
      if contains (lower pattern) combined_text then true
      else any_pattern patterns' combined_text
  end.

(** the outer loop: [for error_type, patterns in ...items()] *)
Fixpoint scan_groups (groups : list (ErrorType * list string))
    (combined_text : string) : ErrorType :=
  match groups with
  | [] => UNKNOWN
  | (error_type, patterns) :: groups' =>
      if any_pattern patterns combined_text then error_type
      else scan_groups groups' combined_text
  end.

Definition diagnose_error (error_message stderr returncode : pyval) : ErrorType :=
  let combined_text := lower (py_str error_message +:+ " " +:+ py_str stderr) in
  scan_groups ERROR_PATTERNS combined_text.

Definition get_suggestions (which : string -> bool) (error_type : ErrorType)
    (tool_name : string) : list string :=
  match error_type with
  | TOOL_NOT_FOUND =>
      let check_result := ToolChecker.check_tool_or_error which tool_name in
      let install :=
        if truthy (dict_get_default "available" PNone check_result) then []
        else ["Install " +:+ tool_name +:+ ": "
                +:+ py_str (dict_get_default "install_command" PNone check_result)] in
      let alternatives := get_alternatives tool_name in
      install ++
      match alternatives with
      | [] => []
      | _ => ["Try alternative tools: " +:+ join ", " alternatives]
      end
  | TIMEOUT =>
      ["Increase timeout value"; "Check network connectivity";
       "Use faster scan options"]
  | PERMISSION_DENIED =>
      ["Run with sudo: sudo " +:+ tool_name; "Check file permissions"]
  | NETWORK_ERROR =>
      ["Check network connectivity"; "Verify target is reachable: ping <target>";
       "Check DNS resolution"]
  | WAF_DETECTED =>
      ["Use WAF bypass techniques"; "Add delay between requests";
       "Use custom user-agent"; "Consider using tamper scripts"]
  | RATE_LIMITED =>
      ["Reduce request rate"; "Add delay between requests"; "Use proxy rotation"]
  | INVALID_TARGET | UNKNOWN => []
  end.

(** *** ResilientExecutor *)

Record ResilientExecutor : Type := {
  max_retries : Z;
  retry_delay : N;
  enable_fallback : bool }.

(** What the executor needs from outside: the clock, [time.sleep] (for the
    non-negative delays it accepts) and the tool registry's lookup. *)
Record Env (W : Type) : Type := {
  time_time : W -> Z;
  time_sleep : N -> W -> W;
  which : string -> bool }.
Arguments time_time {W}.
Arguments time_sleep {W}.
Arguments which {W}.

(** What a run does to the outside, in order. *)
Inductive event : Type :=
| EvPrimary
| EvSleep (delay : N)
| EvAlternative (tool : string).

Definition _create_failure_result (tool_name target : string)
    (error_context : option ErrorContext) : pyval :=
  match error_context with
  | Some ctx =>
      PDict [("success", PBool false); ("tool", PStr tool_name);
             ("target", PStr target); ("error", error_message ctx);
             ("error_type", PStr (value (error_type ctx)));
             ("retry_count", PInt (retry_count ctx));
             ("suggestions", PList (map PStr (suggestions ctx)));
             ("timestamp", PInt (timestamp ctx))]
  | None =>
      PDict [("success", PBool false); ("tool", PStr tool_name);
             ("target", PStr target); ("error", PStr "Unknown error");
             ("suggestions", PList [PStr "Review error logs";
                                    PStr "Check tool installation"])]
  end.

Section Resilient.

Context {W : Type} (E : Env W) (self : ResilientExecutor).

(** the loop over the alternatives of [_try_fallback] *)
Fixpoint try_alternatives (original_tool target : string) (params : pydict)
    (tool_executors : gmap string (Executor W)) (error_context : ErrorContext)
    (alternatives : list string) (w : W) (tr : list event)
  : pyval * W * list event :=
  match alternatives with
  | [] => (_create_failure_result original_tool target (Some error_context), w, tr)
  | alt_tool :: rest =>
      let continue := try_alternatives original_tool target params tool_executors
                        error_context rest in
      if negb (ToolChecker.is_tool_available (which E) alt_tool) then continue w tr
      else
        match tool_executors !! alt_tool with
        | None => continue w tr
        | Some alt_executor =>
            match alt_executor target params w with
            | (Returned result, w1) =>
                match result with
                | PDict d =>
                    if reports_success result then
                      (PDict (dict_update d
                                [("used_alternative", PBool true);
                                 ("original_tool", PStr original_tool);
                                 ("alternative_tool", PStr alt_tool)]),
                       w1, tr ++ [EvAlternative alt_tool])
                    else continue w1 (tr ++ [EvAlternative alt_tool])
                | _ => continue w1 (tr ++ [EvAlternative alt_tool])
                end
            | (Raised _, w1) => continue w1 (tr ++ [EvAlternative alt_tool])
            end
        end
  end.

Definition _try_fallback (original_tool target : string) (params : pydict)
    (tool_executors : gmap string (Executor W)) (error_context : ErrorContext)
    (w : W) (tr : list event) : pyval * W * list event :=
  let alternatives := get_alternatives original_tool in
  match alternatives with
  | [] => (_create_failure_result original_tool target (Some error_context), w, tr)
  | _ => try_alternatives original_tool target params tool_executors
           error_context alternatives w tr
  end.

(** The diagnosis of a result that does not report success. *)
Definition error_msg_of (result : pyval) : pyval :=
  match result with
  | PDict d => dict_get_default "error" (PStr "Unknown error") d
  | _ => PStr "Execution failed"
  end.

Definition stderr_of (result : pyval) : pyval :=
  match result with
  | PDict d => dict_get_default "stderr" (PStr EmptyString) d
  | _ => PStr EmptyString
  end.

Definition returncode_of (result : pyval) : pyval :=
  match result with
  | PDict d => dict_get_default "return_code" (PInt (-1)) d
  | _ => PInt (-1)
  end.

Definition classify (result : pyval) : ErrorType :=
  diagnose_error (error_msg_of result) (stderr_of result) (returncode_of result).

(** The [ErrorContext] of an attempt whose result does not report success;
    [w] is the world the executor left. *)
Definition failure_context (tool_name target : string) (retry_count : Z)
    (result : pyval) (w : W) : ErrorContext :=
  let error_type := classify result in
  {| error_type := error_type; tool_name := tool_name; target := target;
     error_message := error_msg_of result;
     timestamp := time_time E w; retry_count := retry_count;
     suggestions := get_suggestions (which E) error_type tool_name |}.

(** The [ErrorContext] of an attempt in which the executor raised. *)
Definition exception_context (tool_name target : string) (retry_count : Z)
    (msg : string) (w : W) : ErrorContext :=
  {| error_type := UNKNOWN; tool_name := tool_name; target := target;
     error_message := PStr msg;
     timestamp := time_time E w; retry_count := retry_count;
     suggestions := ["Check tool installation"; "Review error logs"] |}.

(** How the [while] loop over the primary tool ends. *)
Inductive loop_end : Type :=
| LoopReturn (result : pyval)
| LoopExit (last_error : option ErrorContext).

(** The [while retry_count <= max_retries] loop; [fuel] bounds the number of
    iterations ([None]: the bound was too small). *)
Fixpoint primary_loop (fuel : nat) (tool_name target : string)
    (params : pydict) (executor_func : Executor W) (retry_count : Z)
    (last_error : option ErrorContext) (w : W) (tr : list event)
  : option (loop_end * W * list event) :=
  if retry_count <=? max_retries self then
    match fuel with
    | O => None
    | S fuel' =>
        let again rc ctx w tr :=
          if rc <=? max_retries self then
            primary_loop fuel' tool_name target params executor_func rc
              (Some ctx) (time_sleep E (retry_delay self) w)
              (tr ++ [EvSleep (retry_delay self)])
          else
            primary_loop fuel' tool_name target params executor_func rc
              (Some ctx) w tr in
        match executor_func target params w with
        | (Returned result, w1) =>
            if reports_success result then
              Some (LoopReturn result, w1, tr ++ [EvPrimary])
            else
              let error_context :=
                failure_context tool_name target retry_count result w1 in
              if ErrorType_eqb (error_type error_context) TOOL_NOT_FOUND
                 || ErrorType_eqb (error_type error_context) INVALID_TARGET
              then Some (LoopExit (Some error_context), w1, tr ++ [EvPrimary])
              else again (retry_count + 1) error_context w1 (tr ++ [EvPrimary])
        | (Raised msg, w1) =>
            let error_context :=
              exception_context tool_name target retry_count msg w1 in
            again (retry_count + 1) error_context w1 (tr ++ [EvPrimary])
        end
    end
  else Some (LoopExit last_error, w, tr).

(** [execute_with_resilience] with the loop bounded by [fuel]. *)
Definition execute_with_resilience_fuel (fuel : nat) (tool_name target : string)
    (params : pydict) (executor_func : Executor W)
    (tool_executors : gmap string (Executor W)) (w : W)
  : option (pyval * W * list event) :=
  match primary_loop fuel tool_name target params executor_func 0 None w [] with
  | None => None
  | Some (LoopReturn result, w1, tr) => Some (result, w1, tr)
  | Some (LoopExit last_error, w1, tr) =>
      match enable_fallback self, last_error with
      | true, Some ctx =>
          Some (_try_fallback tool_name target params tool_executors ctx w1 tr)
      | _, _ => Some (_create_failure_result tool_name target last_error, w1, tr)
      end
  end.

(** The loop runs at most [max_retries + 1] times. *)
Definition attempts : nat := Z.to_nat (max_retries self + 1).

Definition execute_with_resilience (tool_name target : string)
    (params : pydict) (executor_func : Executor W)
    (tool_executors : gmap string (Executor W)) (w : W)
  : option (pyval * W * list event) :=
  execute_with_resilience_fuel attempts tool_name target params executor_func
    tool_executors w.

End Resilient.

End Handler.

(** ** [core/execution/parallel_scanner.py] *)

Module Scanner.

Record ScanTask : Type := {
  tool_name : string;
  target : string;
  params : pydict;
  timeout : Z;
  priority : Z }.

(** [success] and [timed_out] hold whatever the tool's result has under
    these keys. *)
Record ScanResult : Type := {
  r_tool_name : string;
  r_target : string;
  success : pyval;
  result : pyval;
  execution_time : Z;
  error : option string;
  timed_out : pyval }.

(** An executor as a worker thread runs it: what the call produces, and the
    time it takes.  The interleaving of the workers is not modelled. *)
Definition TimedExecutor : Type := string -> pydict -> outcome pyval * Z.

Definition execute_single_task (task : ScanTask) (executor_func : TimedExecutor)
  : ScanResult :=
  match executor_func (target task) (params task) with
  | (Returned res, execution_time) =>
      {| r_tool_name := tool_name task; r_target := target task;
         success := match res with
                    | PDict d => dict_get_default "success" (PBool false) d
                    | _ => PBool false
                    end;
         result := res;
         execution_time := execution_time;
         error := None;
         timed_out := match res with
                        | PDict d => dict_get_default "timed_out" (PBool false) d
                        | _ => PBool false
                        end |}
  | (Raised msg, execution_time) =>
      {| r_tool_name := tool_name task; r_target := target task;
         success := PBool false; result := PDict [];
         execution_time := execution_time; error := Some msg;
         timed_out := PBool false |}
  end.

(** [sorted(tasks, key=lambda t: t.priority, reverse=True)]: by descending
    priority, tasks of equal priority in their order of submission. *)
Fixpoint insert_task (t : ScanTask) (l : list ScanTask) : list ScanTask :=
  match l with
  | [] => [t]
  | t' :: l' =>
      if priority t' <=? priority t then t :: l else t' :: insert_task t l'
  end.

Fixpoint sort_tasks (l : list ScanTask) : list ScanTask :=
  match l with
  | [] => []
  | t :: l' => insert_task t (sort_tasks l')
  end.

(** A future of the pool: its task, the time at which its worker is done
    and what the worker then leaves in it. *)
Record Future : Type := {
  f_task : ScanTask;
  f_finish : Z;
  f_stored : outcome ScanResult }.

(** What the thread pool decides: when the job submitted in position [i] is
    picked up by a worker, and in which order finished futures are handed to
    the collecting loop. *)
Record Pool : Type := {
  started : nat -> Z;
  as_completed : list Future -> list Future }.

(** [executor.submit(self.execute_single_task, task, executor_func)] for the
    job in position [i]: [execute_single_task] catches what the executor
    raises, so the worker stores a result. *)
Definition submit (pool : Pool) (i : nat) (task : ScanTask)
    (executor_func : TimedExecutor) : Future :=
  let r := execute_single_task task executor_func in
  {| f_task := task;
     f_finish := started pool i + execution_time r;
     f_stored := Returned r |}.

(** What [future.result(timeout=...)] does in the collecting loop. *)
Inductive waited : Type :=
| Got (r : ScanResult)
| FutureTimeoutError
| OtherException (msg : string).

Definition stored (f : Future) : waited :=
  match f_stored f with
  | Returned r => Got r
  | Raised msg => OtherException msg
  end.

(** [future.result(timeout)] called at time [now]: a future that is done
    answers at once; otherwise the call waits for it, for [timeout] at most. *)
Definition future_result (f : Future) (now timeout : Z) : waited :=
  if f_finish f <=? now then stored f
  else if f_finish f <=? now + timeout then stored f
  else FutureTimeoutError.

(** The progress callback acts on the caller's state [W] and may raise;
    [Raised] stands for an exception outside the pool's [TimeoutError]. *)
Definition Callback (W : Type) : Type :=
  Z -> Z -> string -> W -> outcome unit * W.

Definition no_executor_result (task : ScanTask) : ScanResult :=
  {| r_tool_name := tool_name task; r_target := target task;
     success := PBool false; result := PDict []; execution_time := 0;
     error := Some ("No executor found for " +:+ tool_name task);
     timed_out := PBool false |}.

Definition timeout_result (task : ScanTask) : ScanResult :=
  {| r_tool_name := tool_name task; r_target := target task;
     success := PBool false; result := PDict [];
     execution_time := timeout task;
     error := Some ("Timeout after " +:+ int_to_str (timeout task) +:+ "s");
     timed_out := PBool true |}.

Definition exception_result (task : ScanTask) (msg : string) : ScanResult :=
  {| r_tool_name := tool_name task; r_target := target task;
     success := PBool false; result := PDict []; execution_time := 0;
     error := Some msg; timed_out := PBool false |}.

(** The first loop of [execute_parallel]: tasks with an executor are
    submitted, the others get their result at once.  [i] counts the jobs
    submitted so far. *)
Fixpoint submit_all (pool : Pool) (i : nat) (sorted_tasks : list ScanTask)
    (tool_executors : gmap string TimedExecutor)
    (results : gmap string ScanResult)
  : gmap string ScanResult * list Future :=
  match sorted_tasks with
  | [] => (results, [])
  | task :: rest =>
      match tool_executors !! tool_name task with
      | None =>
          submit_all pool i rest tool_executors
            (<[tool_name task := no_executor_result task]> results)
      | Some executor_func =>
          let '(results', futures) :=
            submit_all pool (S i) rest tool_executors results in
          (results', submit pool i task executor_func :: futures)
      end
  end.

(** The state of the collecting loop: the result map, the counter, the
    caller's state, the invocations of the callback so far with their
    arguments, and the time. *)
Record collecting (W : Type) : Type := {
  results : gmap string ScanResult;
  completed_tasks : Z;
  caller : W;
  calls : list (Z * Z * string);
  clock : Z }.
Arguments results {W}.
Arguments completed_tasks {W}.
Arguments caller {W}.
Arguments calls {W}.
Arguments clock {W}.

(** One iteration of [for future in as_completed(future_to_task)]:
    [as_completed] hands a future over once it is done, so the body runs at
    [f_finish future] at the earliest. *)
Definition collect_one {W} (progress_callback : option (Callback W))
    (total_tasks : Z) (st : collecting W) (future : Future) : collecting W :=
  let task := f_task future in
  let now := Z.max (clock st) (f_finish future) in
  match future_result future now (timeout task) with
  | Got r =>
      let results1 := <[tool_name task := r]> (results st) in
      let completed1 := completed_tasks st + 1 in
      match progress_callback with
      | None =>
          {| results := results1; completed_tasks := completed1;
             caller := caller st; calls := calls st; clock := now |}
      | Some cb =>
          let calls1 := calls st ++ [(completed1, total_tasks, tool_name task)] in
          match cb completed1 total_tasks (tool_name task) (caller st) with
          | (Returned _, w1) =>
              {| results := results1; completed_tasks := completed1;
                 caller := w1; calls := calls1; clock := now |}
          | (Raised msg, w1) =>
              {| results := <[tool_name task := exception_result task msg]> results1;
                 completed_tasks := completed1 + 1;
                 caller := w1; calls := calls1; clock := now |}
          end
      end
  | FutureTimeoutError =>
      {| results := <[tool_name task := timeout_result task]> (results st);
         completed_tasks := completed_tasks st + 1;
         caller := caller st; calls := calls st;
         clock := now + timeout task |}
  | OtherException msg =>
      {| results := <[tool_name task := exception_result task msg]> (results st);
         completed_tasks := completed_tasks st + 1;
         caller := caller st; calls := calls st; clock := now |}
  end.

(** [execute_parallel], entered at time [t0]. *)
Definition execute_parallel {W} (pool : Pool) (t0 : Z)
    (tasks : list ScanTask) (tool_executors : gmap string TimedExecutor)
    (progress_callback : option (Callback W)) (w : W) : collecting W :=
  match tasks with
  | [] => {| results := ∅; completed_tasks := 0; caller := w; calls := [];
             clock := t0 |}
  | _ =>
      let sorted_tasks := sort_tasks tasks in
      let total_tasks := Z.of_nat (length sorted_tasks) in
      let '(results0, future_to_task) :=
        submit_all pool 0 sorted_tasks tool_executors ∅ in
      fold_left (collect_one progress_callback total_tasks)
        (as_completed pool future_to_task)
        {| results := results0; completed_tasks := 0; caller := w; calls := [];
           clock := t0 |}
  end.

Definition DEFAULT_TIMEOUTS : list (string * Z) :=
  [("httpx", 30); ("nuclei", 300); ("nmap", 120); ("nmap-advanced", 300);
   ("sqlmap", 600); ("nikto", 300); ("gobuster", 180); ("feroxbuster", 180);
   ("ffuf", 180); ("amass", 600); ("subfinder", 60); ("katana", 120);
   ("dalfox", 300); ("arjun", 120); ("masscan", 180)].

Definition get_default_timeout (tool_name : string) : Z :=
  match assoc tool_name DEFAULT_TIMEOUTS with Some t => t | None => 300 end.

Definition create_task_from_selection (tool_name target : string)
    (params : option pydict) (priority : Z) : ScanTask :=
  {| tool_name := tool_name; target := target;
     params := match params with Some d => d | None => [] end;
     timeout := get_default_timeout tool_name;
     priority := priority |}.

(** [all_results.update(results)] *)
Definition update_results (all_results results : gmap string ScanResult)
  : gmap string ScanResult :=
  results ∪ all_results.

(** What a batch run of [SmartParallelScanner] needs in its round [k]: the
    executors as they behave then, and the pool. *)
Record Round : Type := {
  round_executors : gmap string TimedExecutor;
  round_pool : Pool }.

(** The tasks of [remaining_tasks] that [execute_with_retry] runs again:
    those with a result that is neither a success nor a timeout. *)
Definition failed_tasks (remaining_tasks : list ScanTask)
    (results : gmap string ScanResult) : list ScanTask :=
  List.filter
    (fun task =>
       match results !! tool_name task with
       | Some r => negb (truthy (success r)) && negb (truthy (timed_out r))
       | None => false
       end)
    remaining_tasks.

(** The state of the loops of [SmartParallelScanner]: the results so far,
    the caller's state, the invocations of the callback, the time, and the
    number of batches run. *)
Record smart (W : Type) : Type := {
  all_results : gmap string ScanResult;
  s_caller : W;
  s_calls : list (Z * Z * string);
  s_clock : Z;
  batches : nat }.
Arguments all_results {W}.
Arguments s_caller {W}.
Arguments s_calls {W}.
Arguments s_clock {W}.
Arguments batches {W}.

(** One batch of a loop of [SmartParallelScanner], in round [k]. *)
Definition run_batch {W} (rounds : nat -> Round) (k : nat)
    (tasks : list ScanTask) (progress_callback : option (Callback W))
    (st : smart W) : collecting W :=
  execute_parallel (round_pool (rounds k)) (s_clock st) tasks
    (round_executors (rounds k)) progress_callback (s_caller st).

(** The [while remaining_tasks and retry_count <= max_retries] loop of
    [execute_with_retry]; [fuel] bounds the number of iterations, and the
    loop sleeps 2 before the next batch. *)
Fixpoint retry_loop {W} (fuel : nat) (rounds : nat -> Round)
    (max_retries : Z) (progress_callback : option (Callback W))
    (remaining_tasks : list ScanTask) (retry_count : Z) (st : smart W)
  : option (smart W) :=
  match remaining_tasks with
  | [] => Some st
  | _ =>
      if retry_count <=? max_retries then
        match fuel with
        | O => None
        | S fuel' =>
            let batch := run_batch rounds (batches st) remaining_tasks
                           progress_callback st in
            let st1 :=
              {| all_results := update_results (all_results st) (results batch);
                 s_caller := caller batch;
                 s_calls := s_calls st ++ calls batch;
                 s_clock := clock batch;
                 batches := S (batches st) |} in
            let failed := failed_tasks remaining_tasks (results batch) in
            match failed with
            | [] => Some st1
            | _ =>
                if max_retries <=? retry_count then Some st1
                else
                  retry_loop fuel' rounds max_retries progress_callback failed
                    (retry_count + 1)
                    {| all_results := all_results st1; s_caller := s_caller st1;
                       s_calls := s_calls st1; s_clock := s_clock st1 + 2;
                       batches := batches st1 |}
            end
        end
      else Some st
  end.

Definition execute_with_retry {W} (rounds : nat -> Round)
    (tasks : list ScanTask) (max_retries : Z)
    (progress_callback : option (Callback W)) (t0 : Z) (w : W)
  : option (smart W) :=
  retry_loop (Z.to_nat (max_retries + 1)) rounds max_retries progress_callback
    tasks 0
    {| all_results := ∅; s_caller := w; s_calls := []; s_clock := t0;
       batches := 0 |}.

(** The loop over the groups of [execute_with_dependencies]; the group in
    position [k] is run in round [k]. *)
Fixpoint dependencies_loop {W} (rounds : nat -> Round)
    (progress_callback : option (Callback W))
    (task_groups : list (list ScanTask)) (st : smart W) : smart W :=
  match task_groups with
  | [] => st
  | task_group :: rest =>
      let batch := run_batch rounds (batches st) task_group
                     progress_callback st in
      dependencies_loop rounds progress_callback rest
        {| all_results := update_results (all_results st) (results batch);
           s_caller := caller batch;
           s_calls := s_calls st ++ calls batch;
           s_clock := clock batch;
           batches := S (batches st) |}
  end.

Definition execute_with_dependencies {W} (rounds : nat -> Round)
    (task_groups : list (list ScanTask))
    (progress_callback : option (Callback W)) (t0 : Z) (w : W) : smart W :=
  dependencies_loop rounds progress_callback task_groups
    {| all_results := ∅; s_caller := w; s_calls := []; s_clock := t0;
       batches := 0 |}.


End Scanner.

(** * Properties *)

(** ** The library functions on known values *)

Example md5_of_empty :
  MD5.hexdigest (encode EmptyString) = "d41d8cd98f00b204e9800998ecf8427e".
Proof. vm_compute. reflexivity. Qed.

Example md5_of_abc :
  MD5.hexdigest (encode "abc") = "900150983cd24fb0d6963f7d28e17f72".
Proof. vm_compute. reflexivity. Qed.

Example json_dumps_sorts_keys :
  json_dumps true (PDict [("b", PInt 2); ("a", PList [PNone; PBool true]);
                          ("z", PDict [("y", PInt (-5)); ("x", PStr "q")])])
  = "{" +:+ json_str "a" +:+ ": [null, true], " +:+ json_str "b" +:+ ": 2, "
        +:+ json_str "z" +:+ ": {" +:+ json_str "x" +:+ ": " +:+ json_str "q"
        +:+ ", " +:+ json_str "y" +:+ ": -5}}".
Proof. vm_compute. reflexivity. Qed.

Example str_of_values :
  py_str (PList [PStr "it's"; PNone; PInt 7]) = "[" +:+ str1 dquote +:+ "it's"
                                                 +:+ str1 dquote +:+ ", None, 7]".
Proof. vm_compute. reflexivity. Qed.

(** ** Dictionaries *)

Lemma dict_get_set (k k' : string) (v : pyval) (d : pydict) :
  dict_get k (dict_set k' v d) = if String.eqb k k' then Some v else dict_get k d.
Proof.
  induction d as [|[k0 v0] d IH]; simpl.
  - destruct (String.eqb k k'); reflexivity.
  - destruct (String.eqb k' k0) eqn:E0; simpl.
    + apply String.eqb_eq in E0; subst k0.
      destruct (String.eqb k k'); reflexivity.
    + destruct (String.eqb k k0) eqn:E1.
      * apply String.eqb_eq in E1; subst k0.
        rewrite String.eqb_sym, E0. reflexivity.
      * apply IH.
Qed.

(** ** The order of keys *)

Lemma leb_trans (a b c : string) :
  String.leb a b = true -> String.leb b c = true -> String.leb a c = true.
Proof.
  unfold String.leb. revert b c.
  induction a as [|x a IH]; intros [|y b] [|z c]; simpl; try congruence.
  unfold Ascii.compare.
  destruct (N.compare_spec (N_of_ascii x) (N_of_ascii y));
    destruct (N.compare_spec (N_of_ascii y) (N_of_ascii z));
    destruct (N.compare_spec (N_of_ascii x) (N_of_ascii z));
    try lia; try congruence.
  apply IH.
Qed.

Definition key_le (a b : string * string) : Prop :=
  String.leb (fst a) (fst b) = true.

Lemma insert_item_sorted kv l :
  StronglySorted key_le l -> StronglySorted key_le (insert_item kv l).
Proof.
  induction 1 as [|a l Hs IH Hall]; simpl.
  - repeat constructor.
  - destruct (String.leb (fst kv) (fst a)) eqn:E.
    + constructor; [constructor; assumption|].
      constructor; [exact E|].
      eapply List.Forall_impl; [|exact Hall].
      intros b Hb. unfold key_le in *. eapply leb_trans; eassumption.
    + constructor; [exact IH|].
      assert (Ha : key_le a kv).
      { unfold key_le. destruct (String.leb_total (fst a) (fst kv)); congruence. }
      clear IH Hs. induction l as [|b l IHl]; simpl.
      * repeat constructor; assumption.
      * inversion Hall; subst.
        destruct (String.leb (fst kv) (fst b)); repeat constructor; auto.
Qed.

Lemma sort_items_sorted l : StronglySorted key_le (sort_items l).
Proof.
  induction l; simpl; [constructor | apply insert_item_sorted; assumption].
Qed.

(** Two insertions with different keys into an ordered list commute. *)
Lemma insert_item_comm a b l :
  fst a <> fst b -> StronglySorted key_le l ->
  insert_item a (insert_item b l) = insert_item b (insert_item a l).
Proof.
  intros Hne. induction 1 as [|c l Hs IH Hall]; simpl.
  - destruct (String.leb (fst a) (fst b)) eqn:Eab;
      destruct (String.leb (fst b) (fst a)) eqn:Eba; try reflexivity.
    + exfalso. apply Hne. apply String.leb_antisym; assumption.
    + destruct (String.leb_total (fst a) (fst b)); congruence.
  - destruct (String.leb (fst b) (fst c)) eqn:Ebc;
      destruct (String.leb (fst a) (fst c)) eqn:Eac; simpl;
      rewrite ?Ebc, ?Eac.
    + destruct (String.leb (fst a) (fst b)) eqn:Eab;
        destruct (String.leb (fst b) (fst a)) eqn:Eba;
        rewrite ?Ebc, ?Eac; try reflexivity.
      * exfalso. apply Hne. apply String.leb_antisym; assumption.
      * destruct (String.leb_total (fst a) (fst b)); congruence.
    + destruct (String.leb (fst a) (fst b)) eqn:Eab.
      * rewrite (leb_trans _ _ _ Eab Ebc) in Eac. discriminate.
      * reflexivity.
    + destruct (String.leb (fst b) (fst a)) eqn:Eba.
      * rewrite (leb_trans _ _ _ Eba Eac) in Ebc. discriminate.
      * reflexivity.
    + rewrite IH. reflexivity.
Qed.

(** [sorted] gives one list for all the orders of items with distinct keys. *)
Lemma sort_items_perm (l1 l2 : list (string * string)) :
  Permutation l1 l2 -> NoDup (map fst l1) -> sort_items l1 = sort_items l2.
Proof.
  induction 1 as [|x l l' Hp IH|x y l|l l' l'' Hp1 IH1 Hp2 IH2];
    simpl; intros Hnd.
  - reflexivity.
  - inversion Hnd; subst. rewrite IH by assumption. reflexivity.
  - inversion Hnd as [|? ? Hy Hnd']; subst.
    apply insert_item_comm; [|apply sort_items_sorted].
    intros Heq. apply Hy. rewrite Heq. left.
  - rewrite IH1 by assumption. apply IH2.
    assert (Hm : Permutation (map fst l) (map fst l'))
      by (apply Permutation_map; exact Hp1).
    rewrite <- Hm. exact Hnd.
Qed.

(** ** The result cache *)

Module CacheProps.

Import Cache.

(** The cache works on its process-local store. *)
Definition local_backend {W} (c : ScanResultCache W) : Prop :=
  use_redis c = false \/ redis_client c = None.

Lemma get_local {W} (c : ScanResultCache W) tool target params now w :
  local_backend c ->
  get c tool target params now w =
  let key := _generate_cache_key tool target (or_empty params) in
  match memory_cache c !! key with
  | Some entry =>
      if now <? expires_at entry then (Some (PDict (data entry)), c, w)
      else (None, with_memory c (delete key (memory_cache c)), w)
  | None => (None, c, w)
  end.
Proof.
  intros [H|H]; unfold get; rewrite H; [reflexivity|].
  destruct (use_redis c); reflexivity.
Qed.

Lemma set_local {W} (c : ScanResultCache W) tool target params v ttl scan clk w :
  local_backend c ->
  set c tool target params v ttl scan clk w =
  let key := _generate_cache_key tool target (or_empty params) in
  let t := resolve_ttl tool ttl scan in
  (true,
   with_memory c
     (<[key := {| key := key;
                  data := cached_data tool target v (now_iso clk) t;
                  created_at := time_created clk;
                  expires_at := time_expiry clk + t;
                  tool_name := tool; target := target |}]> (memory_cache c)),
   w).
Proof.
  intros [H|H]; unfold set; rewrite H; [reflexivity|].
  destruct (use_redis c); reflexivity.
Qed.

Lemma with_memory_local {W} (c : ScanResultCache W) m :
  local_backend c -> local_backend (with_memory c m).
Proof. intros H; exact H. Qed.

Lemma generate_cache_key_perm tool target (p1 p2 : pydict) :
  NoDup (map fst p1) -> Permutation p1 p2 ->
  _generate_cache_key tool target p1 = _generate_cache_key tool target p2.
Proof.
  intros Hnd Hp. unfold _generate_cache_key. simpl.
  set (enc := fun kv : string * pyval => let '(k, x) := kv in (k, json_dumps true x)).
  rewrite (sort_items_perm (map enc p1) (map enc p2)); [reflexivity| |].
  - apply Permutation_map. exact Hp.
  - rewrite map_map.
    replace (map (fun x => fst (enc x)) p1) with (map fst p1); [exact Hnd|].
    apply map_ext. intros [k x]. reflexivity.
Qed.

(** C8. The cache key is a function of the tool, the target and the
    parameters in which the insertion order of the parameters plays no part:
    two parameter dictionaries with the same items in different orders get
    the same key, every lookup and every store treats them alike, and on the
    local store a lookup with one order finds, until it expires, the entry
    stored with the other. *)
Theorem cache_key_order_independent {W} (tool target : string)
    (p1 p2 : pydict) :
  NoDup (map fst p1) -> Permutation p1 p2 ->
  _generate_cache_key tool target p1 = _generate_cache_key tool target p2
  /\ (forall (c : ScanResultCache W) now w,
        get c tool target (Some p2) now w = get c tool target (Some p1) now w)
  /\ (forall (c : ScanResultCache W) v ttl scan clk w,
        set c tool target (Some p2) v ttl scan clk w
        = set c tool target (Some p1) v ttl scan clk w)
  /\ (forall (c : ScanResultCache W) v ttl scan clk w now,
        local_backend c ->
        now < time_expiry clk + resolve_ttl tool ttl scan ->
        let stored := set c tool target (Some p1) v ttl scan clk w in
        fst (fst (get (snd (fst stored)) tool target (Some p2) now (snd stored)))
        = Some (PDict (cached_data tool target v (now_iso clk)
                         (resolve_ttl tool ttl scan)))).
Proof.
  intros Hnd Hp.
  pose proof (generate_cache_key_perm tool target p1 p2 Hnd Hp) as Hk.
  split; [exact Hk|]. split; [|split].
  - intros c now w. unfold get. simpl. rewrite Hk. reflexivity.
  - intros c v ttl scan clk w. unfold set. simpl. rewrite Hk. reflexivity.
  - intros c v ttl scan clk w now Hl Hlt. simpl.
    rewrite (set_local c) by assumption. simpl.
    rewrite get_local by (apply with_memory_local; assumption). simpl.
    rewrite <- Hk, lookup_insert_eq. simpl.
    apply Z.ltb_lt in Hlt. rewrite Hlt. reflexivity.
Qed.

Definition params_ab : pydict := [("a", PInt 1); ("b", PInt 2)].
Definition params_ba : pydict := [("b", PInt 2); ("a", PInt 1)].

Lemma params_ab_nodup : NoDup (map fst params_ab).
Proof. apply (bool_decide_unpack _). vm_compute. exact I. Qed.

Lemma cache_key_order_independent_witness :
  _generate_cache_key "nmap" "10.0.0.1" params_ab
  = _generate_cache_key "nmap" "10.0.0.1" params_ba.
Proof.
  apply (cache_key_order_independent (W := unit) "nmap" "10.0.0.1"
           params_ab params_ba).
  - exact params_ab_nodup.
  - apply perm_swap.
Defined.

Example cache_key_ab :
  _generate_cache_key "nmap" "10.0.0.1" params_ba
  = "hexstrike:scan:nmap:6361614f72647fe584c6515c19bbc474".
Proof. vm_compute. reflexivity. Qed.

(** C1, as amended.  On the local store, [get] after [set] with the same
    tool, target and parameters returns, as long as the clock is before the
    entry's expiry, the envelope that [set] built around the payload (the
    payload under ["result"], next to the tool, the target, the time of
    caching and the TTL); once the clock has reached the expiry it returns
    nothing and the entry is gone. *)
Theorem cache_roundtrip {W} (c c1 : ScanResultCache W) (tool target : string)
    (params : option pydict) (v : pyval) (ttl : option Z) (scan : string)
    (clk : SetClock) (w w1 : W) (ok : bool) (now : Z) :
  local_backend c ->
  set c tool target params v ttl scan clk w = (ok, c1, w1) ->
  let t := resolve_ttl tool ttl scan in
  let envelope := cached_data tool target v (now_iso clk) t in
  ok = true /\ w1 = w
  /\ dict_get "result" envelope = Some v
  /\ (now < time_expiry clk + t ->
      get c1 tool target params now w1 = (Some (PDict envelope), c1, w1))
  /\ (time_expiry clk + t <= now ->
      exists c2, get c1 tool target params now w1 = (None, c2, w1)
                 /\ memory_cache c2
                      !! _generate_cache_key tool target (or_empty params) = None).
Proof.
  intros Hl Hset t envelope.
  rewrite set_local in Hset by assumption. simpl in Hset.
  injection Hset as <- <- <-.
  split; [reflexivity|]. split; [reflexivity|]. split; [reflexivity|].
  split; intros Hnow.
  - rewrite get_local by (apply with_memory_local; assumption). simpl.
    rewrite lookup_insert_eq. simpl.
    apply Z.ltb_lt in Hnow. fold t. rewrite Hnow. reflexivity.
  - rewrite get_local by (apply with_memory_local; assumption). simpl.
    rewrite lookup_insert_eq. simpl.
    apply Z.ltb_ge in Hnow. fold t. rewrite Hnow.
    eexists. split; [reflexivity|]. simpl. apply lookup_delete_eq.
Qed.

(** A cache on its local store, empty, and the inputs of the examples. *)
Definition local_cache : ScanResultCache unit :=
  {| use_redis := false; redis_client := None; memory_cache := ∅ |}.

Definition nmap_payload : pyval :=
  PDict [("success", PBool true); ("stdout", PStr "80/tcp open")].

Definition clock_1000 : SetClock :=
  {| now_iso := "2025-01-01T00:16:40"; time_created := 1000;
     time_expiry := 1000 |}.

Definition after_set : ScanResultCache unit :=
  snd (fst (set local_cache "nmap" "10.0.0.1" (Some params_ab) nmap_payload
              None "default" clock_1000 tt)).

Lemma local_cache_local : local_backend local_cache.
Proof. left. reflexivity. Qed.

Lemma set_after_set :
  set local_cache "nmap" "10.0.0.1" (Some params_ab) nmap_payload None
    "default" clock_1000 tt = (true, after_set, tt).
Proof. vm_compute. reflexivity. Qed.

Lemma cache_roundtrip_witness :
  get after_set "nmap" "10.0.0.1" (Some params_ab) 1001 tt
  = (Some (PDict (cached_data "nmap" "10.0.0.1" nmap_payload
                    (now_iso clock_1000) (resolve_ttl "nmap" None "default"))),
     after_set, tt).
Proof.
  refine (proj1 (proj2 (proj2 (proj2
            (cache_roundtrip local_cache after_set "nmap" "10.0.0.1"
               (Some params_ab) nmap_payload None "default" clock_1000 tt tt
               true 1001 local_cache_local set_after_set)))) _).
  vm_compute. reflexivity.
Defined.

(** C1, as stated, fails: what [get] returns right after [set] is not the
    payload that was stored but the envelope around it. *)
Lemma cache_roundtrip_returns_envelope :
  fst (fst (get after_set "nmap" "10.0.0.1" (Some params_ab) 1000 tt))
  = Some (PDict [("result", nmap_payload); ("tool_name", PStr "nmap");
                 ("target", PStr "10.0.0.1");
                 ("cached_at", PStr "2025-01-01T00:16:40");
                 ("ttl", PInt 7200)])
  /\ fst (fst (get after_set "nmap" "10.0.0.1" (Some params_ab) 1000 tt))
     <> Some nmap_payload.
Proof.
  split.
  - vm_compute. reflexivity.
  - vm_compute. intros H. discriminate H.
Qed.

(** The lookup of [get] leaves the local store as it was, or without the
    entry of the key that was looked up. *)
Lemma get_store {W} (c c1 : ScanResultCache W) tool target params now w w1 r :
  get c tool target params now w = (r, c1, w1) ->
  memory_cache c1 = memory_cache c
  \/ memory_cache c1
     = delete (_generate_cache_key tool target (or_empty params)) (memory_cache c).
Proof.
  unfold get. intros H.
  destruct (use_redis c), (redis_client c) as [rc|];
    try (destruct (redis_get rc _ w) as [[[s|]|] w'];
         [destruct (String.eqb s EmptyString); [|destruct (json_loads rc s)]| |];
         injection H as <- <- <-; left; reflexivity);
    (destruct (memory_cache c !! _) as [entry|];
     [destruct (now <? expires_at entry)|];
     injection H as <- <- <-; [left|right|left]; reflexivity).
Qed.

Lemma get_local_miss {W} (c c1 : ScanResultCache W) tool target params now w w1 :
  local_backend c ->
  get c tool target params now w = (None, c1, w1) ->
  memory_cache c1 !! _generate_cache_key tool target (or_empty params) = None.
Proof.
  intros Hl. rewrite get_local by assumption. simpl.
  destruct (memory_cache c !! _) as [entry|] eqn:E.
  - destruct (now <? expires_at entry); intros H; [discriminate H|].
    injection H as <- <-. simpl. apply lookup_delete_eq.
  - intros H. injection H as <- <-. exact E.
Qed.

(** C5, as amended.  When the lookup misses (or is skipped by a forced
    refresh) and the executor returns a dictionary that reports failure, the
    wrapper stores nothing: the cache and the outside world are those left
    by the lookup and the executor, the local store is as before except that
    the lookup may have dropped the expired entry of that key, and after a
    lookup that found nothing the local store has no entry under the key.
    The failed result is returned with ["from_cache"] set to false and its
    other items unchanged. *)
Theorem failure_not_cached {W} (c c1 : ScanResultCache W)
    (tool target : string) (params : pydict) (f : Executor W) (force : bool)
    (scan : string) (now : Z) (clk : SetClock) (w w1 w2 : W)
    (cached : option pyval) (d : pydict) :
  (if force then (None, c, w) else get c tool target (Some params) now w)
  = (cached, c1, w1) ->
  match cached with Some v => truthy v = false | None => True end ->
  f target params w1 = (Returned (PDict d), w2) ->
  reports_success (PDict d) = false ->
  let returned := dict_update d [("from_cache", PBool false)] in
  execute_with_cache c tool target params f force scan now clk w
  = (Returned (PDict returned), c1, w2)
  /\ dict_get "from_cache" returned = Some (PBool false)
  /\ (forall k, k <> "from_cache" -> dict_get k returned = dict_get k d)
  /\ (memory_cache c1 = memory_cache c
      \/ memory_cache c1
         = delete (_generate_cache_key tool target params) (memory_cache c))
  /\ (force = false -> cached = None -> local_backend c ->
      memory_cache c1 !! _generate_cache_key tool target params = None).
Proof.
  intros Hlook Hmiss Hf Hfail returned.
  split; [|split; [|split; [|split]]].
  - unfold execute_with_cache.
    destruct force.
    + injection Hlook as <- <- <-. rewrite Hf, Hfail. reflexivity.
    + rewrite Hlook.
      destruct cached as [v|]; [rewrite Hmiss|]; rewrite Hf, Hfail; reflexivity.
  - unfold returned, dict_update. simpl. rewrite dict_get_set. reflexivity.
  - intros k Hk. unfold returned, dict_update. simpl. rewrite dict_get_set.
    apply String.eqb_neq in Hk. rewrite Hk. reflexivity.
  - destruct force.
    + injection Hlook as <- <- <-. left. reflexivity.
    + apply get_store in Hlook. exact Hlook.
  - intros -> -> Hl. eapply (get_local_miss c c1 tool target (Some params));
      eassumption.
Qed.

(** A store with one entry for nmap on 10.0.0.1, written at time 1000 and
    expired at time 8200, and an executor that fails. *)
Definition failing_executor : Executor unit :=
  fun _ _ w =>
    (Returned (PDict [("success", PBool false);
                      ("error", PStr "connection refused")]), w).

Lemma failure_not_cached_witness :
  execute_with_cache after_set "nmap" "10.0.0.1" params_ab failing_executor
    false "default" 9000 clock_1000 tt
  = (Returned (PDict (dict_update [("success", PBool false);
                                   ("error", PStr "connection refused")]
                        [("from_cache", PBool false)])),
     local_cache, tt).
Proof.
  refine (proj1 (failure_not_cached after_set local_cache "nmap" "10.0.0.1"
                   params_ab failing_executor false "default" 9000 clock_1000
                   tt tt tt None _ _ _ _ _)).
  - vm_compute. reflexivity.
  - exact I.
  - reflexivity.
  - reflexivity.
Defined.

(** C5, as stated, fails: the failed result does not come back unmodified
    (it has gained ["from_cache"]), and the cache may change (the expired
    entry of the key is dropped by the lookup). *)
Lemma failure_result_is_modified :
  execute_with_cache after_set "nmap" "10.0.0.1" params_ab failing_executor
    false "default" 9000 clock_1000 tt
  = (Returned (PDict [("success", PBool false);
                      ("error", PStr "connection refused");
                      ("from_cache", PBool false)]),
     local_cache, tt)
  /\ fst (failing_executor "10.0.0.1" params_ab tt)
     = Returned (PDict [("success", PBool false);
                        ("error", PStr "connection refused")])
  /\ dict_get "from_cache" [("success", PBool false);
                            ("error", PStr "connection refused");
                            ("from_cache", PBool false)]
     <> dict_get "from_cache" [("success", PBool false);
                               ("error", PStr "connection refused")]
  /\ memory_cache after_set <> memory_cache local_cache.
Proof.
  split; [vm_compute; reflexivity|].
  split; [reflexivity|].
  split; [vm_compute; intros H; discriminate H|].
  intros H.
  assert (Hk : memory_cache after_set
               !! _generate_cache_key "nmap" "10.0.0.1" params_ab = None)
    by (rewrite H; apply lookup_empty).
  vm_compute in Hk. discriminate Hk.
Qed.

End CacheProps.

(** ** Substrings, with and without case *)

(** [s] occurs in [t]. *)
Definition occurs (s t : string) : Prop :=
  exists pre post, t = pre +:+ s +:+ post.

(** Some substring of [t] is [p] up to the case of its letters. *)
Definition occurs_ci (p t : string) : Prop :=
  exists s, occurs s t /\ lower s = lower p.

Lemma startswith_spec (p t : string) :
  startswith p t = true <-> exists post, t = p +:+ post.
Proof.
  revert t. induction p as [|a p IH]; intros t; simpl.
  - split; [intros _; exists t; reflexivity | reflexivity].
  - destruct t as [|b t].
    + split; [discriminate | intros [post H]; discriminate H].
    + rewrite andb_true_iff, IH, Ascii.eqb_eq. split.
      * intros [-> [post ->]]. exists post. reflexivity.
      * intros [post H]. injection H as -> ->. split; [reflexivity|].
        exists post. reflexivity.
Qed.

Lemma contains_spec (p t : string) : contains p t = true <-> occurs p t.
Proof.
  induction t as [|b t IH].
  - simpl. rewrite orb_false_r, startswith_spec. split.
    + intros [post H]. exists EmptyString, post. exact H.
    + intros [[|c pre] [post H]]; [exists post; exact H | discriminate H].
  - cbn [contains]. rewrite orb_true_iff, startswith_spec, IH. split.
    + intros [[post H]|[pre [post H]]].
      * exists EmptyString, post. exact H.
      * exists (String b pre), post. simpl. rewrite H. reflexivity.
    + intros [[|c pre] [post H]].
      * left. exists post. exact H.
      * right. injection H as _ H. exists pre, post. exact H.
Qed.

Lemma lower_app (s t : string) : lower (s +:+ t) = lower s +:+ lower t.
Proof. induction s as [|c s IH]; simpl; [|rewrite IH]; reflexivity. Qed.

Lemma lower_split (t a b : string) :
  lower t = a +:+ b -> exists x y, t = x +:+ y /\ lower x = a /\ lower y = b.
Proof.
  revert t. induction a as [|c a IH]; intros t H.
  - exists EmptyString, t. auto.
  - destruct t as [|d t]; [discriminate H|].
    simpl in H. injection H as Hc H.
    destruct (IH t H) as (x & y & -> & Hx & Hy).
    exists (String d x), y. simpl. rewrite Hc, Hx. auto.
Qed.

(** The test of the classifier, [pattern.lower() in combined_text] with the
    combined text in lower case, is a search without regard to case. *)
Lemma contains_lower (p t : string) :
  contains (lower p) (lower t) = true <-> occurs_ci p t.
Proof.
  rewrite contains_spec. split.
  - intros (pre & post & H).
    apply lower_split in H as (x & yz & -> & Hx & H).
    apply lower_split in H as (y & z & -> & Hy & Hz).
    exists y. split; [exists x, z; reflexivity | exact Hy].
  - intros (s & (pre & post & ->) & Hs).
    exists (lower pre), (lower post).
    rewrite !lower_app, Hs. reflexivity.
Qed.

(** ** Error classification *)

Module HandlerProps.

Import Handler.

(** A group matches a text when one of its patterns occurs in it, whatever
    the case of letters. *)
Definition group_matches (patterns : list string) (text : string) : Prop :=
  Exists (fun p => occurs_ci p text) patterns.

(** [ty] is the category of the first group of [groups] that matches
    [text], or [UNKNOWN] when none does. *)
Definition first_matching_group (groups : list (ErrorType * list string))
    (text : string) (ty : ErrorType) : Prop :=
  (exists before patterns after,
      groups = before ++ (ty, patterns) :: after
      /\ group_matches patterns text
      /\ Forall (fun g => ~ group_matches (snd g) text) before)
  \/ (ty = UNKNOWN /\ Forall (fun g => ~ group_matches (snd g) text) groups).

Lemma any_pattern_spec (patterns : list string) (text : string) :
  any_pattern patterns (lower text) = true <-> group_matches patterns text.
Proof.
  unfold group_matches. induction patterns as [|p ps IH]; simpl.
  - split; [discriminate | intros H; inversion H].
  - destruct (contains (lower p) (lower text)) eqn:E.
    + split; [intros _ | reflexivity].
      apply Exists_cons_hd. apply contains_lower. exact E.
    + rewrite IH. split.
      * intros H. apply Exists_cons_tl. exact H.
      * intros H. inversion H as [? ? Hp|? ? Hps]; subst; [|exact Hps].
        apply contains_lower in Hp. congruence.
Qed.

Lemma scan_groups_spec (groups : list (ErrorType * list string))
    (text : string) (ty : ErrorType) :
  scan_groups groups (lower text) = ty <-> first_matching_group groups text ty.
Proof.
  unfold first_matching_group.
  induction groups as [|[ty0 ps] gs IH]; simpl.
  - split.
    + intros <-. right. split; [reflexivity | constructor].
    + intros [(before & patterns & after & H & _)|[-> _]]; [|reflexivity].
      destruct before; discriminate H.
  - destruct (any_pattern ps (lower text)) eqn:E.
    + apply any_pattern_spec in E. split.
      * intros <-. left. exists [], ps, gs. repeat split; [exact E | constructor].
      * intros [(before & patterns & after & H & Hm & Hb)|[_ Hall]].
        -- destruct before as [|g before].
           ++ injection H as <- _ _. reflexivity.
           ++ injection H as <- _. inversion Hb; subst. simpl in *. tauto.
        -- inversion Hall; subst. simpl in *. tauto.
    + assert (Hn : ~ group_matches ps text).
      { intros H. apply any_pattern_spec in H. congruence. }
      rewrite IH. split.
      * intros [(before & patterns & after & -> & Hm & Hb)|[-> Hall]].
        -- left. exists ((ty0, ps) :: before), patterns, after.
           repeat split; [exact Hm | constructor; assumption].
        -- right. split; [reflexivity | constructor; assumption].
      * intros [(before & patterns & after & H & Hm & Hb)|[-> Hall]].
        -- destruct before as [|g before].
           ++ injection H as _ <- _. tauto.
           ++ injection H as _ ->. inversion Hb; subst.
              left. exists before, patterns, after. auto.
        -- right. inversion Hall; subst. auto.
Qed.

(** C9. The groups of patterns are examined in the order tool-not-found,
    timeout, permission-denied, network-error, waf-detected, rate-limited;
    the category of an error message and a standard error text is that of
    the first group one of whose patterns occurs, whatever the case of
    letters, in the message followed by a space and the standard error text,
    and it is unknown exactly when no group has such a pattern. *)
Theorem diagnose_error_first_group (error_message stderr : string)
    (returncode : pyval) (ty : ErrorType) :
  map fst ERROR_PATTERNS
  = [TOOL_NOT_FOUND; TIMEOUT; PERMISSION_DENIED; NETWORK_ERROR; WAF_DETECTED;
     RATE_LIMITED]
  /\ (diagnose_error (PStr error_message) (PStr stderr) returncode = ty
      <-> first_matching_group ERROR_PATTERNS
            (error_message +:+ " " +:+ stderr) ty).
Proof.
  split; [reflexivity|].
  unfold diagnose_error. simpl py_str. apply scan_groups_spec.
Qed.

Example diagnose_rate_limit :
  diagnose_error (PStr "HTTP 429: Rate Limit hit") (PStr EmptyString) (PInt 1)
  = WAF_DETECTED.
Proof. vm_compute. reflexivity. Qed.

Example diagnose_mixed :
  diagnose_error (PStr "Connection timed out") (PStr "nmap: command NOT FOUND")
    (PInt 127) = TOOL_NOT_FOUND.
Proof. vm_compute. reflexivity. Qed.

Lemma scan_groups_range (groups : list (ErrorType * list string))
    (text : string) :
  scan_groups groups text = UNKNOWN \/ In (scan_groups groups text) (map fst groups).
Proof.
  induction groups as [|[ty ps] gs IH]; simpl; [left; reflexivity|].
  destruct (any_pattern ps text); [right; left; reflexivity|].
  destruct IH; [left | right; right]; assumption.
Qed.

Lemma diagnose_error_not_invalid_target (error_message stderr returncode : pyval) :
  diagnose_error error_message stderr returncode <> INVALID_TARGET.
Proof.
  unfold diagnose_error.
  destruct (scan_groups_range ERROR_PATTERNS
              (lower (py_str error_message +:+ " " +:+ py_str stderr))) as [H|H];
    rewrite H || (intros Heq; rewrite Heq in H; simpl in H);
    [discriminate|].
  repeat (destruct H as [H|H]; [discriminate H|]). exact H.
Qed.

(** *** The retry loop *)

Section Loop.

Context {W : Type} (E : Env W) (self : ResilientExecutor).
Context (tool target : string) (params : pydict) (f : Executor W).

(** An attempt fails with an error that is retried: the executor raises, or
    returns a result that does not report success and is not classified as
    tool-not-found (invalid-target is never the classification). *)
Definition retryable_failure (o : outcome pyval) : Prop :=
  match o with
  | Raised _ => True
  | Returned r => reports_success r = false /\ classify r <> TOOL_NOT_FOUND
  end.

(** The [ErrorContext] the loop records for a failed attempt. *)
Definition context_of (retry_count : Z) (o : outcome pyval) (w : W)
  : ErrorContext :=
  match o with
  | Raised msg => exception_context E tool target retry_count msg w
  | Returned r => failure_context E tool target retry_count r w
  end.

Lemma classify_not_invalid_target (r : pyval) : classify r <> INVALID_TARGET.
Proof. apply diagnose_error_not_invalid_target. Qed.

Lemma break_test (r : pyval) :
  ErrorType_eqb (classify r) TOOL_NOT_FOUND
  || ErrorType_eqb (classify r) INVALID_TARGET
  = ErrorType_eqb (classify r) TOOL_NOT_FOUND.
Proof.
  pose proof (classify_not_invalid_target r) as H.
  destruct (classify r); try reflexivity. congruence.
Qed.

Lemma ErrorType_eqb_eq (a b : ErrorType) : ErrorType_eqb a b = true <-> a = b.
Proof. destruct a, b; simpl; split; congruence. Qed.

Lemma primary_loop_success fuel rc last w tr r w1 :
  rc <= max_retries self ->
  f target params w = (Returned r, w1) -> reports_success r = true ->
  primary_loop E self (S fuel) tool target params f rc last w tr
  = Some (LoopReturn r, w1, tr ++ [EvPrimary]).
Proof.
  intros Hrc Hf Hok. cbn [primary_loop].
  apply Z.leb_le in Hrc. rewrite Hrc, Hf, Hok. reflexivity.
Qed.

Lemma primary_loop_fatal fuel rc last w tr r w1 :
  rc <= max_retries self ->
  f target params w = (Returned r, w1) -> reports_success r = false ->
  classify r = TOOL_NOT_FOUND ->
  primary_loop E self (S fuel) tool target params f rc last w tr
  = Some (LoopExit (Some (failure_context E tool target rc r w1)), w1,
          tr ++ [EvPrimary]).
Proof.
  intros Hrc Hf Hok Hc. cbn [primary_loop].
  apply Z.leb_le in Hrc. rewrite Hrc, Hf, Hok.
  cbn [failure_context error_type]. rewrite Hc. reflexivity.
Qed.

Lemma primary_loop_retry fuel rc last w tr o w1 :
  rc <= max_retries self ->
  f target params w = (o, w1) -> retryable_failure o ->
  primary_loop E self (S fuel) tool target params f rc last w tr
  = if rc + 1 <=? max_retries self then
      primary_loop E self fuel tool target params f (rc + 1)
        (Some (context_of rc o w1)) (time_sleep E (retry_delay self) w1)
        (tr ++ [EvPrimary] ++ [EvSleep (retry_delay self)])
    else
      primary_loop E self fuel tool target params f (rc + 1)
        (Some (context_of rc o w1)) w1 (tr ++ [EvPrimary]).
Proof.
  intros Hrc Hf Hr. cbn [primary_loop].
  apply Z.leb_le in Hrc. rewrite Hrc, Hf.
  destruct o as [r|msg]; simpl in Hr.
  - destruct Hr as [Hok Hc]. rewrite Hok.
    cbn [failure_context error_type]. rewrite break_test.
    destruct (ErrorType_eqb (classify r) TOOL_NOT_FOUND) eqn:Eq.
    + apply ErrorType_eqb_eq in Eq. contradiction.
    + rewrite <- app_assoc. reflexivity.
  - rewrite <- app_assoc. reflexivity.
Qed.

Lemma primary_loop_over fuel rc last w tr :
  max_retries self < rc ->
  primary_loop E self fuel tool target params f rc last w tr
  = Some (LoopExit last, w, tr).
Proof.
  intros Hrc. apply Z.leb_gt in Hrc.
  destruct fuel; cbn [primary_loop]; rewrite Hrc; reflexivity.
Qed.

(** The bound on the iterations is enough: the loop comes to an end. *)
Lemma primary_loop_total fuel rc last w tr :
  (Z.to_nat (max_retries self + 1 - rc) <= fuel)%nat ->
  exists e, primary_loop E self fuel tool target params f rc last w tr = Some e.
Proof.
  revert rc last w tr. induction fuel as [|fuel IH]; intros rc last w tr Hfuel.
  - rewrite primary_loop_over by lia. eauto.
  - destruct (Z_lt_le_dec (max_retries self) rc) as [Hover|Hle].
    { rewrite primary_loop_over by lia. eauto. }
    destruct (f target params w) as [o w1] eqn:Hf.
    assert (Hnext : forall c w' tr',
               exists e, (if rc + 1 <=? max_retries self then
                            primary_loop E self fuel tool target params f (rc + 1)
                              (Some c) (time_sleep E (retry_delay self) w')
                              (tr' ++ [EvSleep (retry_delay self)])
                          else
                            primary_loop E self fuel tool target params f (rc + 1)
                              (Some c) w' tr') = Some e).
    { intros c w' tr'. destruct (rc + 1 <=? max_retries self); apply IH; lia. }
    cbn [primary_loop]. apply Z.leb_le in Hle. rewrite Hle, Hf.
    destruct o as [r|msg]; [|apply Hnext].
    destruct (reports_success r); [eauto|].
    destruct (_ || _); [eauto | apply Hnext].
Qed.

End Loop.

(** [execute_with_resilience] returns a value on every input. *)
Lemma execute_with_resilience_total {W} (E : Env W) (self : ResilientExecutor)
    tool target params (f : Executor W) execs w :
  exists r, execute_with_resilience E self tool target params f execs w = Some r.
Proof.
  unfold execute_with_resilience, execute_with_resilience_fuel.
  destruct (primary_loop_total E self tool target params f (attempts self) 0 None w [])
    as [[[e w1] tr] ->]; [unfold attempts; lia|].
  destruct e as [r|last]; [eauto|].
  destruct (enable_fallback self), last; eauto.
Qed.

(** C10. The classifier never answers invalid-target, whatever the message,
    the standard error text and the return code: in the loop of
    [execute_with_resilience] the test for the errors that are not retried is
    the test for tool-not-found alone, and no error context the loop leaves
    behind has the category invalid-target. *)
Theorem invalid_target_unreachable :
  (forall error_message stderr returncode,
      diagnose_error error_message stderr returncode <> INVALID_TARGET)
  /\ ~ In INVALID_TARGET (map fst ERROR_PATTERNS)
  /\ (forall result,
        ErrorType_eqb (classify result) TOOL_NOT_FOUND
        || ErrorType_eqb (classify result) INVALID_TARGET
        = ErrorType_eqb (classify result) TOOL_NOT_FOUND)
  /\ (forall W (E : Env W) self tool target params f fuel rc w tr ctx w' tr',
        primary_loop E self fuel tool target params f rc None w tr
        = Some (LoopExit (Some ctx), w', tr') ->
        error_type ctx <> INVALID_TARGET).
Proof.
  split; [exact diagnose_error_not_invalid_target|].
  split; [simpl; intuition discriminate|].
  split; [exact break_test|].
  intros W E self tool target params f fuel rc w tr ctx w' tr'.
  assert (G : forall last,
             match last with Some c => error_type c <> INVALID_TARGET | None => True end ->
             primary_loop E self fuel tool target params f rc last w tr
             = Some (LoopExit (Some ctx), w', tr') ->
             error_type ctx <> INVALID_TARGET); [|apply (G None I)].
  revert rc w tr. induction fuel as [|fuel IH]; intros rc w tr last Hlast;
    cbn [primary_loop]; destruct (rc <=? max_retries self);
    try (intros H; injection H as -> _ _; exact Hlast); [discriminate|].
  destruct (f target params w) as [[r|msg] w1].
  - destruct (reports_success r); [discriminate|].
    cbn [failure_context error_type]. rewrite break_test.
    destruct (ErrorType_eqb (classify r) TOOL_NOT_FOUND).
    + intros H; injection H as <- _ _. apply classify_not_invalid_target.
    + destruct (rc + 1 <=? max_retries self); apply IH;
        apply classify_not_invalid_target.
  - destruct (rc + 1 <=? max_retries self); apply IH; discriminate.
Qed.

(** C4, as amended.  With [max_retries = 2], when the executor fails with a
    retryable error on its first two invocations and reports success on the
    third, [execute_with_resilience] invokes it three times, sleeping the
    retry delay after each of the two failures, tries no alternative, and
    returns the third result as the executor gave it: nothing is added to
    it, in particular no count of retries. *)
Theorem retry_then_succeed {W} (E : Env W) (self : ResilientExecutor)
    (tool target : string) (params : pydict) (f : Executor W)
    (tool_executors : gmap string (Executor W)) (w0 w1 w2 w3 : W)
    (o1 o2 : outcome pyval) (r3 : pyval) :
  max_retries self = 2 ->
  f target params w0 = (o1, w1) -> retryable_failure o1 ->
  f target params (time_sleep E (retry_delay self) w1) = (o2, w2) ->
  retryable_failure o2 ->
  f target params (time_sleep E (retry_delay self) w2) = (Returned r3, w3) ->
  reports_success r3 = true ->
  execute_with_resilience E self tool target params f tool_executors w0
  = Some (r3, w3,
          [EvPrimary; EvSleep (retry_delay self);
           EvPrimary; EvSleep (retry_delay self); EvPrimary]).
Proof.
  intros Hmax H1 Hr1 H2 Hr2 H3 Hok.
  unfold execute_with_resilience, execute_with_resilience_fuel, attempts.
  rewrite Hmax. change (Z.to_nat (2 + 1)) with 3%nat.
  rewrite (primary_loop_retry E self tool target params f _ 0 _ _ _ o1 w1)
    by (rewrite ?Hmax; (lia || assumption)).
  rewrite Hmax. change (0 + 1 <=? 2) with true. cbv iota.
  rewrite (primary_loop_retry E self tool target params f _ (0 + 1) _ _ _ o2 w2)
    by (rewrite ?Hmax; (lia || assumption)).
  rewrite Hmax. change (0 + 1 + 1 <=? 2) with true. cbv iota.
  rewrite (primary_loop_success E self tool target params f _ (0 + 1 + 1) _ _ _ r3 w3)
    by (rewrite ?Hmax; (lia || assumption)).
  reflexivity.
Qed.

(** A world that counts the invocations, and an executor that fails twice
    with a refused connection before it succeeds. *)
Definition counting_env : Env nat :=
  {| time_time := fun n => 1000 + Z.of_nat n;
     time_sleep := fun _ n => n;
     which := fun _ => false |}.

Definition flaky_executor : Executor nat :=
  fun _ _ n =>
    if (n <? 2)%nat then
      (Returned (PDict [("success", PBool false);
                        ("error", PStr "connection refused")]), S n)
    else
      (Returned (PDict [("success", PBool true);
                        ("stdout", PStr "80/tcp open")]), S n).

Definition two_retries : ResilientExecutor :=
  {| max_retries := 2; retry_delay := 2; enable_fallback := true |}.

Lemma retry_then_succeed_witness :
  execute_with_resilience counting_env two_retries "nmap" "10.0.0.1" []
    flaky_executor ∅ 0%nat
  = Some (PDict [("success", PBool true); ("stdout", PStr "80/tcp open")],
          3%nat,
          [EvPrimary; EvSleep (retry_delay two_retries);
           EvPrimary; EvSleep (retry_delay two_retries); EvPrimary]).
Proof.
  refine (retry_then_succeed counting_env two_retries "nmap" "10.0.0.1" []
            flaky_executor ∅ 0%nat 1%nat 2%nat 3%nat
            (Returned (PDict [("success", PBool false);
                              ("error", PStr "connection refused")]))
            (Returned (PDict [("success", PBool false);
                              ("error", PStr "connection refused")]))
            (PDict [("success", PBool true); ("stdout", PStr "80/tcp open")])
            _ _ _ _ _ _ _).
  - reflexivity.
  - reflexivity.
  - split; [reflexivity | vm_compute; discriminate].
  - reflexivity.
  - split; [reflexivity | vm_compute; discriminate].
  - reflexivity.
  - reflexivity.
Defined.

(** C4, as stated, fails: the result of the run above is the dictionary the
    executor returned on its third invocation, and it has no
    ["retry_count"]. *)
Lemma retried_result_has_no_retry_count :
  execute_with_resilience counting_env two_retries "nmap" "10.0.0.1" []
    flaky_executor ∅ 0%nat
  = Some (PDict [("success", PBool true); ("stdout", PStr "80/tcp open")],
          3%nat, [EvPrimary; EvSleep 2; EvPrimary; EvSleep 2; EvPrimary])
  /\ dict_get "retry_count"
       [("success", PBool true); ("stdout", PStr "80/tcp open")] = None
  /\ dict_get "retry_count"
       [("success", PBool true); ("stdout", PStr "80/tcp open")]
     <> Some (PInt 2).
Proof.
  split; [vm_compute; reflexivity|].
  split; [reflexivity | vm_compute; discriminate].
Qed.

(** *** Fallback *)

Section Fallback.

Context {W : Type} (E : Env W).
Context (original_tool target : string) (params : pydict).
Context (tool_executors : gmap string (Executor W)).
Context (error_context : ErrorContext).

(** An alternative is tried when the registry reports it available and an
    executor is registered for it. *)
Definition eligible (alt_tool : string) : bool :=
  ToolChecker.is_tool_available (which E) alt_tool
  && match tool_executors !! alt_tool with Some _ => true | None => false end.

(** The invocation came back without a result that reports success. *)
Definition fails (o : outcome pyval) : Prop :=
  match o with
  | Raised _ => True
  | Returned r => reports_success r = false
  end.

(** [all_fail l w w']: invoked one after the other from [w], the executors
    of the tools [l] all fail, and leave the world [w']. *)
Inductive all_fail : list string -> W -> W -> Prop :=
| all_fail_nil w : all_fail [] w w
| all_fail_cons alt l g o w w1 w2 :
    tool_executors !! alt = Some g ->
    g target params w = (o, w1) -> fails o ->
    all_fail l w1 w2 ->
    all_fail (alt :: l) w w2.

(** The annotation of the result of an alternative that succeeded. *)
Definition annotated (d : pydict) (alt_tool : string) : pydict :=
  dict_update d [("used_alternative", PBool true);
                 ("original_tool", PStr original_tool);
                 ("alternative_tool", PStr alt_tool)].

Lemma annotated_fields d alt_tool :
  dict_get "used_alternative" (annotated d alt_tool) = Some (PBool true)
  /\ dict_get "original_tool" (annotated d alt_tool) = Some (PStr original_tool)
  /\ dict_get "alternative_tool" (annotated d alt_tool) = Some (PStr alt_tool)
  /\ (forall k, k <> "used_alternative" -> k <> "original_tool" ->
                k <> "alternative_tool" ->
                dict_get k (annotated d alt_tool) = dict_get k d).
Proof.
  unfold annotated, dict_update. simpl. rewrite !dict_get_set. simpl.
  repeat split. intros k H1 H2 H3. rewrite !dict_get_set.
  apply String.eqb_neq in H1, H2, H3. rewrite H1, H2, H3. reflexivity.
Qed.

(** What a run of the loop over the alternatives [alts] from the world [w]
    and the trace [tr] comes to; [called] lists, in order, the tools whose
    executors were invoked. *)
Definition fallback_outcome (alts : list string) (w : W) (tr : list event)
    (result : pyval) (w' : W) (tr' : list event) (called : list string)
  : Prop :=
  tr' = tr ++ map EvAlternative called
  /\ (exists later, List.filter eligible alts = called ++ later)
  /\ ((exists before alt g d wb,
          called = before ++ [alt]
          /\ all_fail before w wb
          /\ tool_executors !! alt = Some g
          /\ g target params wb = (Returned (PDict d), w')
          /\ reports_success (PDict d) = true
          /\ result = PDict (annotated d alt))
      \/ (called = List.filter eligible alts
          /\ all_fail called w w'
          /\ result = _create_failure_result original_tool target
                        (Some error_context))).

Abbreviation run_alternatives :=
  (try_alternatives E original_tool target params tool_executors error_context).

Lemma try_alternatives_skip alt alts w tr :
  eligible alt = false ->
  run_alternatives (alt :: alts) w tr = run_alternatives alts w tr.
Proof.
  unfold eligible. intros H. cbn [try_alternatives].
  destruct (ToolChecker.is_tool_available (which E) alt); [|reflexivity].
  destruct (tool_executors !! alt); [discriminate H | reflexivity].
Qed.

Lemma eligible_executor alt g :
  tool_executors !! alt = Some g -> eligible alt = true ->
  ToolChecker.is_tool_available (which E) alt = true.
Proof.
  unfold eligible. intros ->.
  destruct (ToolChecker.is_tool_available (which E) alt); [reflexivity | discriminate].
Qed.

Lemma try_alternatives_fail alt alts w tr g o w1 :
  eligible alt = true -> tool_executors !! alt = Some g ->
  g target params w = (o, w1) -> fails o ->
  run_alternatives (alt :: alts) w tr
  = run_alternatives alts w1 (tr ++ [EvAlternative alt]).
Proof.
  intros He Hg Hrun Ho. cbn [try_alternatives].
  rewrite (eligible_executor alt g Hg He), Hg, Hrun. simpl negb. cbv iota.
  destruct o as [r|msg]; [|reflexivity].
  destruct r; try reflexivity. unfold fails in Ho. rewrite Ho. reflexivity.
Qed.

Lemma try_alternatives_success alt alts w tr g d w1 :
  eligible alt = true -> tool_executors !! alt = Some g ->
  g target params w = (Returned (PDict d), w1) ->
  reports_success (PDict d) = true ->
  run_alternatives (alt :: alts) w tr
  = (PDict (annotated d alt), w1, tr ++ [EvAlternative alt]).
Proof.
  intros He Hg Hrun Ho. cbn [try_alternatives].
  rewrite (eligible_executor alt g Hg He), Hg, Hrun, Ho. reflexivity.
Qed.

Lemma try_alternatives_outcome (alts : list string) (w : W) (tr : list event) :
  exists called,
    let out := run_alternatives alts w tr in
    fallback_outcome alts w tr (fst (fst out)) (snd (fst out)) (snd out) called.
Proof.
  revert w tr. induction alts as [|alt alts IH]; intros w tr.
  - exists []. simpl. unfold fallback_outcome. simpl. rewrite app_nil_r.
    split; [reflexivity|]. split; [exists []; reflexivity|].
    right. repeat split. constructor.
  - destruct (eligible alt) eqn:He.
    2:{ destruct (IH w tr) as [called Hc]. exists called.
        rewrite try_alternatives_skip by assumption.
        unfold fallback_outcome in *. cbn [List.filter]. rewrite He. exact Hc. }
    assert (Hex : exists g, tool_executors !! alt = Some g).
    { unfold eligible in He. destruct (tool_executors !! alt) as [g|]; [eauto|].
      rewrite andb_false_r in He. discriminate He. }
    destruct Hex as [g Hg].
    destruct (g target params w) as [o w1] eqn:Hrun.
    assert (Hfail : fails o ->
              exists called,
                let out := run_alternatives (alt :: alts) w tr in
                fallback_outcome (alt :: alts) w tr (fst (fst out))
                  (snd (fst out)) (snd out) called).
    { intros Ho. destruct (IH w1 (tr ++ [EvAlternative alt])) as [called Hc].
      exists (alt :: called).
      rewrite (try_alternatives_fail alt alts w tr g o w1) by assumption.
      cbv zeta in *.
      destruct (run_alternatives alts w1 (tr ++ [EvAlternative alt]))
        as [[result w'] tr'].
      unfold fallback_outcome in *. cbn [fst snd List.filter] in *. rewrite He.
      destruct Hc as (-> & [later Hl] & Hc).
      split; [rewrite <- app_assoc; reflexivity|].
      split; [exists later; rewrite Hl; reflexivity|].
      destruct Hc as [(before & a & g' & d & wb & -> & Hb & Ha & Hr & Hs & ->)
                     |(-> & Hall & ->)].
      - left. exists (alt :: before), a, g', d, wb.
        repeat split; try assumption. econstructor; eassumption.
      - right. repeat split. econstructor; eassumption. }
    destruct o as [r|msg]; [|apply Hfail; exact I].
    destruct (reports_success r) eqn:Hs; [|apply Hfail; exact Hs].
    destruct r as [| | | | |d]; try discriminate Hs.
    exists [alt].
    rewrite (try_alternatives_success alt alts w tr g d w1) by assumption.
    unfold fallback_outcome. cbn [fst snd List.filter]. rewrite He.
    split; [reflexivity|].
    split; [exists (List.filter eligible alts); reflexivity|].
    left. exists [], alt, g, d, w. repeat split; try assumption. constructor.
Qed.

Lemma try_fallback_alternatives w tr :
  _try_fallback E original_tool target params tool_executors error_context w tr
  = run_alternatives (get_alternatives original_tool) w tr.
Proof.
  unfold _try_fallback. destruct (get_alternatives original_tool); reflexivity.
Qed.

End Fallback.

(** When the loop over the primary tool ends with an error and fallback is
    enabled, the run goes on with [_try_fallback]; otherwise it ends with
    the failure result. *)
Lemma resilience_after_loop {W} (E : Env W) (self : ResilientExecutor)
    tool target params (f : Executor W) execs w last w1 tr :
  primary_loop E self (attempts self) tool target params f 0 None w []
  = Some (LoopExit last, w1, tr) ->
  execute_with_resilience E self tool target params f execs w
  = Some (match enable_fallback self, last with
          | true, Some ctx => _try_fallback E tool target params execs ctx w1 tr
          | _, _ => (_create_failure_result tool target last, w1, tr)
          end).
Proof.
  intros H. unfold execute_with_resilience, execute_with_resilience_fuel.
  rewrite H. destruct (enable_fallback self), last; reflexivity.
Qed.


(** The tool registry in which only masscan is installed, and executors for
    nmap's alternatives of which rustscan is not registered. *)
Definition masscan_env : Env nat :=
  {| time_time := fun n => 1000 + Z.of_nat n;
     time_sleep := fun _ n => n;
     which := fun name => String.eqb name "masscan" |}.

Definition always_fails : Executor nat :=
  fun _ _ n =>
    (Returned (PDict [("success", PBool false);
                      ("error", PStr "nmap: command not found")]), S n).

Definition always_succeeds : Executor nat :=
  fun _ _ n =>
    (Returned (PDict [("success", PBool true); ("stdout", PStr "open: 80")]),
     S n).

Definition nmap_masscan : gmap string (Executor nat) :=
  {[ "nmap" := always_fails; "masscan" := always_succeeds ]}.

Example fallback_to_masscan :
  execute_with_resilience masscan_env two_retries "nmap" "10.0.0.1" []
    always_fails nmap_masscan 0%nat
  = Some (PDict [("success", PBool true); ("stdout", PStr "open: 80");
                 ("used_alternative", PBool true);
                 ("original_tool", PStr "nmap");
                 ("alternative_tool", PStr "masscan")],
          2%nat, [EvPrimary; EvAlternative "masscan"]).
Proof. vm_compute. reflexivity. Qed.

(** The row of rustscan is nmap, masscan.  Where only masscan is installed,
    nmap is passed over and masscan is the one alternative in line. *)
Definition command_not_found : ErrorContext :=
  failure_context masscan_env "rustscan" "10.0.0.1" 0
    (PDict [("success", PBool false);
            ("error", PStr "rustscan: command not found")]) 1%nat.


Example fallback_passes_over_nmap :
  _try_fallback masscan_env "rustscan" "10.0.0.1" [] nmap_masscan
    command_not_found 1%nat [EvPrimary]
  = (PDict [("success", PBool true); ("stdout", PStr "open: 80");
            ("used_alternative", PBool true);
            ("original_tool", PStr "rustscan");
            ("alternative_tool", PStr "masscan")],
     2%nat, [EvPrimary; EvAlternative "masscan"]).
Proof. vm_compute. reflexivity. Qed.

(** A configuration with a negative retry budget, fallback enabled. *)
Definition negative_budget : ResilientExecutor :=
  {| max_retries := -1; retry_delay := 2; enable_fallback := true |}.

(** C6 fails on the code for a negative [max_retries].  The executor's
    failure is classified as tool-not-found and masscan stands ready as an
    alternative, yet the loop [while retry_count <= max_retries] is not
    entered: the executor is invoked not once but never, no fallback is
    attempted, and the result is the failure result without error
    context. *)
Theorem negative_budget_never_invokes :
  classify (PDict [("success", PBool false);
                   ("error", PStr "nmap: command not found")]) = TOOL_NOT_FOUND
  /\ execute_with_resilience masscan_env negative_budget "nmap" "10.0.0.1" []
       always_fails nmap_masscan 0%nat
     = Some (_create_failure_result "nmap" "10.0.0.1" None, 0%nat, [])
  /\ execute_with_resilience masscan_env two_retries "nmap" "10.0.0.1" []
       always_fails nmap_masscan 0%nat
     = Some (PDict [("success", PBool true); ("stdout", PStr "open: 80");
                    ("used_alternative", PBool true);
                    ("original_tool", PStr "nmap");
                    ("alternative_tool", PStr "masscan")],
             2%nat, [EvPrimary; EvAlternative "masscan"]).
Proof. repeat split; vm_compute; reflexivity. Qed.

(** C6, as amended.  When the first result of the executor does not report
    success and is classified as tool-not-found or invalid-target, then,
    whatever the retry budget [max_retries >= 0], the executor is invoked
    that one time only: the error context has [retry_count = 0], there is no sleep and no
    second attempt, and the run goes straight on with the fallback from the
    world the executor left (or, fallback disabled, ends with the failure
    result).  All further invocations are those of alternatives. *)
Theorem non_retryable_short_circuit {W} (E : Env W) (self : ResilientExecutor)
    (tool target : string) (params : pydict) (f : Executor W)
    (tool_executors : gmap string (Executor W)) (w0 w1 : W) (r : pyval) :
  0 <= max_retries self ->
  f target params w0 = (Returned r, w1) ->
  reports_success r = false ->
  classify r = TOOL_NOT_FOUND \/ classify r = INVALID_TARGET ->
  let ctx := failure_context E tool target 0 r w1 in
  retry_count ctx = 0
  /\ execute_with_resilience E self tool target params f tool_executors w0
     = Some (if enable_fallback self
             then _try_fallback E tool target params tool_executors ctx w1
                    [EvPrimary]
             else (_create_failure_result tool target (Some ctx), w1,
                   [EvPrimary]))
  /\ exists called,
      option_map snd
        (execute_with_resilience E self tool target params f tool_executors w0)
      = Some (EvPrimary :: map EvAlternative called)
      /\ (enable_fallback self = false -> called = []).
Proof.
  intros Hmax Hf Hfail Hclass ctx.
  assert (Hc : classify r = TOOL_NOT_FOUND).
  { destruct Hclass as [H|H]; [exact H|].
    exfalso. exact (classify_not_invalid_target r H). }
  assert (Hloop : primary_loop E self (attempts self) tool target params f 0
                    None w0 []
                  = Some (LoopExit (Some ctx), w1, [EvPrimary])).
  { unfold attempts.
    replace (Z.to_nat (max_retries self + 1))
      with (S (Z.to_nat (max_retries self))) by lia.
    apply primary_loop_fatal; assumption. }
  assert (Hrun := resilience_after_loop E self tool target params f
                    tool_executors w0 _ w1 _ Hloop).
  split; [reflexivity|]. split.
  - rewrite Hrun. destruct (enable_fallback self); reflexivity.
  - rewrite Hrun. destruct (enable_fallback self).
    + rewrite try_fallback_alternatives.
      destruct (try_alternatives_outcome E tool target params tool_executors
                  ctx (get_alternatives tool) w1 [EvPrimary]) as [called H].
      cbv zeta in H. destruct H as (Htr & _ & _).
      exists called. simpl. rewrite Htr. split; [reflexivity | discriminate].
    + exists []. split; reflexivity.
Qed.

Lemma non_retryable_short_circuit_witness :
  execute_with_resilience masscan_env two_retries "nmap" "10.0.0.1" []
    always_fails nmap_masscan 0%nat
  = Some (_try_fallback masscan_env "nmap" "10.0.0.1" [] nmap_masscan
            (failure_context masscan_env "nmap" "10.0.0.1" 0
               (PDict [("success", PBool false);
                       ("error", PStr "nmap: command not found")]) 1%nat)
            1%nat [EvPrimary]).
Proof.
  refine (proj1 (proj2
            (non_retryable_short_circuit masscan_env two_retries "nmap"
               "10.0.0.1" [] always_fails nmap_masscan 0%nat 1%nat
               (PDict [("success", PBool false);
                       ("error", PStr "nmap: command not found")])
               _ _ _ _))).
  - simpl. lia.
  - reflexivity.
  - reflexivity.
  - left. vm_compute. reflexivity.
Defined.

End HandlerProps.

(** ** The scheduler *)

Module ScannerProps.

Import Scanner.


Definition has_executor (tool_executors : gmap string TimedExecutor)
    (task : ScanTask) : bool :=
  match tool_executors !! tool_name task with Some _ => true | None => false end.

(** The future was made by [submit]. *)
Definition submitted (pool : Pool) (future : Future) : Prop :=
  exists i task g, future = submit pool i task g.

Lemma submit_all_futures pool i tasks execs results :
  Forall (submitted pool) (snd (submit_all pool i tasks execs results))
  /\ map f_task (snd (submit_all pool i tasks execs results))
     = List.filter (has_executor execs) tasks.
Proof.
  revert i results. induction tasks as [|task tasks IH]; intros i results;
    cbn [submit_all List.filter]; [split; [constructor | reflexivity]|].
  unfold has_executor at 1.
  destruct (execs !! tool_name task) as [g|]; [|apply IH].
  destruct (IH (S i) results) as [H1 H2].
  destruct (submit_all pool (S i) tasks execs results) as [res futs].
  simpl in *. split; [constructor; [exists i, task, g; reflexivity | exact H1]|].
  rewrite H2. reflexivity.
Qed.

(** When the collecting loop takes up a future, [future.result] answers
    with what the worker stored, whatever the timeout of the task: the wait
    never runs into the timeout. *)
Lemma future_result_of_completed (future : Future) (clock timeout : Z) :
  future_result future (Z.max clock (f_finish future)) timeout = stored future.
Proof.
  unfold future_result.
  destruct (Z.leb_spec (f_finish future) (Z.max clock (f_finish future)));
    [reflexivity | lia].
Qed.

Lemma collect_one_submitted {W} pool (cb : option (Callback W)) total st future :
  submitted pool future ->
  exists r, f_stored future = Returned r
    /\ collect_one cb total st future
       = match cb with
         | None =>
             {| results := <[tool_name (f_task future) := r]> (results st);
                completed_tasks := completed_tasks st + 1;
                caller := caller st; calls := calls st;
                clock := Z.max (clock st) (f_finish future) |}
         | Some g =>
             let n := completed_tasks st + 1 in
             let calls1 := calls st ++ [(n, total, tool_name (f_task future))] in
             match g n total (tool_name (f_task future)) (caller st) with
             | (Returned _, w1) =>
                 {| results := <[tool_name (f_task future) := r]> (results st);
                    completed_tasks := n; caller := w1; calls := calls1;
                    clock := Z.max (clock st) (f_finish future) |}
             | (Raised msg, w1) =>
                 {| results :=
                      <[tool_name (f_task future)
                        := exception_result (f_task future) msg]>
                        (<[tool_name (f_task future) := r]> (results st));
                    completed_tasks := n + 1; caller := w1; calls := calls1;
                    clock := Z.max (clock st) (f_finish future) |}
             end
         end.
Proof.
  intros (i & task & g & ->). eexists. split; [reflexivity|].
  unfold collect_one. rewrite future_result_of_completed.
  unfold stored. simpl. reflexivity.
Qed.





(** A pool with one worker per job that hands the futures over in the
    reverse order of submission. *)
Definition reversing_pool : Pool :=
  {| started := fun _ => 0; as_completed := @rev Future |}.

Definition httpx_task : ScanTask :=
  {| tool_name := "httpx"; target := "10.0.0.1"; params := [];
     timeout := 30; priority := 1 |}.

Definition nmap_task : ScanTask :=
  {| tool_name := "nmap"; target := "10.0.0.1"; params := [];
     timeout := 120; priority := 0 |}.

Definition nikto_task : ScanTask :=
  {| tool_name := "nikto"; target := "10.0.0.1"; params := [];
     timeout := 300; priority := 0 |}.

(** httpx answers after 100 units, beyond its timeout of 30; nmap raises;
    nikto has no executor. *)
Definition slow_httpx : TimedExecutor :=
  fun _ _ => (Returned (PDict [("success", PBool true);
                               ("stdout", PStr "200 OK")]), 100).

Definition raising_nmap : TimedExecutor :=
  fun _ _ => (Raised "nmap crashed", 3).

Definition two_executors : gmap string TimedExecutor :=
  {[ "httpx" := slow_httpx; "nmap" := raising_nmap ]}.

Definition quiet_callback : Callback unit :=
  fun _ _ _ w => (Returned tt, w).

Lemma reversing_pool_permutes (futures : list Future) :
  Permutation (as_completed reversing_pool futures) futures.
Proof. symmetry. apply Permutation_rev. Qed.




Example progress_calls_of_batch :
  calls (execute_parallel reversing_pool 0 [nmap_task; nikto_task; httpx_task]
           two_executors (Some quiet_callback) tt)
  = [(1, 3, "nmap"); (2, 3, "httpx")].
Proof. vm_compute. reflexivity. Qed.

(** C2 fails on the code.  A task with a timeout of 30 whose executor takes
    100 and then reports success gets the executor's result, with [success]
    true and [timed_out] false: the collecting loop asks for the result of a
    future only after [as_completed] has handed it over, that is once it is
    done, so the wait never exceeds the timeout and the branch that builds
    the timed-out result is never taken. *)
Theorem slow_task_is_not_timed_out :
  timeout httpx_task < snd (slow_httpx (target httpx_task) (params httpx_task))
  /\ results (execute_parallel reversing_pool 0 [httpx_task] two_executors
                (@None (Callback unit)) tt) !! "httpx"
     = Some {| r_tool_name := "httpx"; r_target := "10.0.0.1";
               success := PBool true;
               result := PDict [("success", PBool true);
                                ("stdout", PStr "200 OK")];
               execution_time := 100; error := None;
               timed_out := PBool false |}.
Proof. split; [reflexivity | vm_compute; reflexivity]. Qed.

(** The same for every batch: whatever the timeouts of the tasks, the
    result that the loop records for a future is the one its worker stored. *)
Lemma collected_result_is_stored {W} pool (cb : option (Callback W)) total st
    future :
  submitted pool future ->
  (forall n t name w, match cb with
                      | Some g => exists w', g n t name w = (Returned tt, w')
                      | None => True
                      end) ->
  exists r, f_stored future = Returned r
    /\ results (collect_one cb total st future) !! tool_name (f_task future)
       = Some r.
Proof.
  intros Hsub Hcb.
  destruct (collect_one_submitted pool cb total st future Hsub) as (r & Hr & ->).
  exists r. split; [exact Hr|].
  destruct cb as [g|]; simpl.
  - destruct (Hcb (completed_tasks st + 1) total (tool_name (f_task future))
                (caller st)) as [w' ->].
    simpl. apply lookup_insert_eq.
  - apply lookup_insert_eq.
Qed.

(** The handlers of the collecting loop for a wait that raises count the
    task as completed and do not invoke the callback. *)
Lemma handlers_skip_callback {W} (cb : option (Callback W)) total st future :
  future_result future (Z.max (clock st) (f_finish future))
    (timeout (f_task future)) = FutureTimeoutError
  \/ (exists msg,
        future_result future (Z.max (clock st) (f_finish future))
          (timeout (f_task future)) = OtherException msg) ->
  calls (collect_one cb total st future) = calls st
  /\ completed_tasks (collect_one cb total st future) = completed_tasks st + 1.
Proof.
  unfold collect_one. intros [->|[msg ->]]; split; reflexivity.
Qed.

Lemma insert_task_In t t' l : In t' (insert_task t l) <-> t' = t \/ In t' l.
Proof.
  induction l as [|a l IH]; simpl; [intuition|].
  destruct (priority a <=? priority t); simpl; [intuition|].
  rewrite IH. intuition.
Qed.

Lemma sort_tasks_In t l : In t (sort_tasks l) <-> In t l.
Proof.
  induction l as [|a l IH]; simpl; [reflexivity|].
  rewrite insert_task_In, IH. intuition.
Qed.

(** Where a recorded result comes from: the task had no executor, or its
    executor ran and [execute_single_task] built the result from what it
    returned or raised. *)
Definition origin (tool_executors : gmap string TimedExecutor)
    (tasks : list ScanTask) (r : ScanResult) : Prop :=
  exists task, In task tasks
    /\ match tool_executors !! tool_name task with
       | None => r = no_executor_result task
       | Some g => r = execute_single_task task g
       end.

(** The worker of the future stored a result of that kind. *)
Definition holds_result (tool_executors : gmap string TimedExecutor)
    (tasks : list ScanTask) (future : Future) : Prop :=
  exists r, f_stored future = Returned r /\ origin tool_executors tasks r.

Lemma submit_all_origin pool execs tasks todo i results :
  (forall t, In t todo -> In t tasks) ->
  (forall name r, results !! name = Some r -> origin execs tasks r) ->
  (forall name r, fst (submit_all pool i todo execs results) !! name = Some r ->
                  origin execs tasks r)
  /\ Forall (holds_result execs tasks)
       (snd (submit_all pool i todo execs results)).
Proof.
  revert i results. induction todo as [|task todo IH]; intros i results Hin Hres;
    cbn [submit_all]; [split; [exact Hres | constructor]|].
  assert (Hin' : forall t, In t todo -> In t tasks)
    by (intros; apply Hin; right; assumption).
  assert (Htask : In task tasks) by (apply Hin; left; reflexivity).
  destruct (execs !! tool_name task) as [g|] eqn:Hg.
  - destruct (IH (S i) results Hin' Hres) as [H1 H2].
    destruct (submit_all pool (S i) todo execs results) as [res futs].
    simpl in *. split; [exact H1|]. constructor; [|exact H2].
    eexists. split; [reflexivity|].
    exists task. split; [exact Htask|]. rewrite Hg. reflexivity.
  - apply IH; [exact Hin'|].
    intros name r. rewrite lookup_insert. case_decide as Hname.
    + intros Heq; injection Heq as <-. exists task.
      split; [exact Htask|]. rewrite Hg. reflexivity.
    + apply Hres.
Qed.

Lemma collect_origin {W} execs tasks (cb : option (Callback W)) total done st :
  (forall n t name w, match cb with
                      | Some g => exists w', g n t name w = (Returned tt, w')
                      | None => True
                      end) ->
  Forall (holds_result execs tasks) done ->
  (forall name r, results st !! name = Some r -> origin execs tasks r) ->
  forall name r,
    results (fold_left (collect_one cb total) done st) !! name = Some r ->
    origin execs tasks r.
Proof.
  intros Hcb. revert st. induction done as [|future done IH]; intros st Hdone Hst;
    [exact Hst|].
  inversion Hdone as [|? ? (r0 & Hr0 & Ho) Hrest]; subst.
  cbn [fold_left]. apply IH; [exact Hrest|].
  unfold collect_one. rewrite future_result_of_completed.
  unfold stored. rewrite Hr0.
  assert (Hins : forall name r,
             <[tool_name (f_task future) := r0]> (results st) !! name = Some r ->
             origin execs tasks r).
  { intros name r. rewrite lookup_insert. case_decide as Hname; [|apply Hst].
    intros Heq; injection Heq as <-. exact Ho. }
  destruct cb as [g|]; [|exact Hins].
  destruct (Hcb (completed_tasks st + 1) total (tool_name (f_task future))
              (caller st)) as [w' ->].
  exact Hins.
Qed.

(** With a callback that returns normally (or none), every result in the map
    that [execute_parallel] returns is the immediate failure of a task
    without executor or what [execute_single_task] made of an executor's
    run: the loop never records a timed-out result of its own, whatever the
    timeouts of the tasks. *)
Lemma results_come_from_executors {W} (pool : Pool) (t0 : Z)
    (tasks : list ScanTask) (tool_executors : gmap string TimedExecutor)
    (progress_callback : option (Callback W)) (w : W) (name : string)
    (r : ScanResult) :
  (forall futures, Permutation (as_completed pool futures) futures) ->
  (forall n t name w, match progress_callback with
                      | Some g => exists w', g n t name w = (Returned tt, w')
                      | None => True
                      end) ->
  results (execute_parallel pool t0 tasks tool_executors progress_callback w)
    !! name = Some r ->
  origin tool_executors tasks r.
Proof.
  intros Hperm Hcb. unfold execute_parallel.
  destruct tasks as [|task0 tasks0]; [simpl; rewrite lookup_empty; discriminate|].
  remember (task0 :: tasks0) as batch. clear Heqbatch.
  destruct (submit_all_origin pool tool_executors batch (sort_tasks batch) 0 ∅)
    as [Hres Hfut].
  { intros t. apply sort_tasks_In. }
  { intros ? ?. rewrite lookup_empty. discriminate. }
  destruct (submit_all pool 0 (sort_tasks batch) tool_executors ∅)
    as [results0 futures]. cbn [fst snd] in *.
  rewrite <- (Hperm futures) in Hfut.
  apply (collect_origin tool_executors batch progress_callback _ _ _ Hcb Hfut).
  exact Hres.
Qed.

End ScannerProps.

(** * Further properties of the code *)

(** [m !! k] has an entry. *)
Definition present {A} (o : option A) : bool :=
  match o with Some _ => true | None => false end.

(** ** The maintenance of the cache *)

Module CacheExtra.

Import Cache CacheProps.

Lemma invalidate_on_local {W} (c : ScanResultCache W) rk tool target params w :
  local_backend c ->
  invalidate c rk tool target params w =
  let key := _generate_cache_key tool target (or_empty params) in
  match memory_cache c !! key with
  | Some _ => (true, with_memory c (delete key (memory_cache c)), w)
  | None => (false, c, w)
  end.
Proof.
  intros [H|H]; unfold invalidate; rewrite H; [reflexivity|].
  destruct (use_redis c); reflexivity.
Qed.

(** X1. On the local store, [invalidate] answers whether an entry was
    there, leaves no entry under the key and touches no other key; a lookup
    of the key misses afterwards, and right after a [set] of the same key it
    answers true. *)
Theorem invalidate_removes_entry {W} (c : ScanResultCache W)
    (rk : RedisKeyspace W) (tool target : string) (params : option pydict)
    (w : W) :
  local_backend c ->
  let key := _generate_cache_key tool target (or_empty params) in
  let out := invalidate c rk tool target params w in
  fst (fst out) = present (memory_cache c !! key)
  /\ snd out = w
  /\ memory_cache (snd (fst out)) = delete key (memory_cache c)
  /\ (forall now w', fst (fst (get (snd (fst out)) tool target params now w')) = None)
  /\ (forall v ttl scan clk,
        fst (fst (invalidate
                    (snd (fst (set c tool target params v ttl scan clk w)))
                    rk tool target params w)) = true).
Proof.
  intros Hl. cbv zeta.
  assert (Hset : forall v ttl scan clk,
             fst (fst (invalidate
                         (snd (fst (set c tool target params v ttl scan clk w)))
                         rk tool target params w)) = true).
  { intros v ttl scan clk. rewrite (set_local c) by assumption. simpl.
    rewrite invalidate_on_local by (apply with_memory_local; assumption).
    simpl. rewrite lookup_insert_eq. reflexivity. }
  rewrite invalidate_on_local by assumption. cbv zeta.
  destruct (memory_cache c !! _generate_cache_key tool target (or_empty params))
    as [e|] eqn:He; cbn [fst snd present].
  - split; [reflexivity|]. split; [reflexivity|]. split; [reflexivity|].
    split; [|exact Hset].
    intros now w'. rewrite get_local by (apply with_memory_local; assumption).
    simpl. rewrite lookup_delete_eq. reflexivity.
  - split; [reflexivity|]. split; [reflexivity|].
    split; [symmetry; apply delete_id; exact He|]. split; [|exact Hset].
    intros now w'. rewrite get_local by assumption.
    simpl. rewrite He. reflexivity.
Qed.

(** The Redis operations of a process that has no server. *)
Definition no_keyspace : RedisKeyspace unit :=
  {| redis_delete := fun _ w => (None, w); redis_keys := fun _ w => (None, w) |}.

Lemma invalidate_removes_entry_witness :
  fst (fst (invalidate after_set no_keyspace "nmap" "10.0.0.1"
              (Some params_ab) tt))
  = present (memory_cache after_set
               !! _generate_cache_key "nmap" "10.0.0.1"
                    (or_empty (Some params_ab))).
Proof.
  refine (proj1 (invalidate_removes_entry after_set no_keyspace "nmap"
                   "10.0.0.1" (Some params_ab) tt _)).
  left. reflexivity.
Defined.

(** The entries kept and the entries dropped by a test add up. *)
Lemma size_filter_split {A} (m : gmap string A) (test : string * A -> bool) :
  (size (filter (fun kv => test kv = true) m)
   + size (filter (fun kv => test kv = false) m) = size m)%nat.
Proof.
  rewrite <- map_size_disj_union.
  - f_equal.
    rewrite <- (map_filter_union_complement (fun kv => test kv = true) m) at 3.
    f_equal. apply map_filter_ext. intros k x _.
    simpl. destruct (test (k, x)); intuition congruence.
  - apply map_disjoint_spec. intros k x y Hx Hy.
    apply map_lookup_filter_Some in Hx as [Hmx Hx].
    apply map_lookup_filter_Some in Hy as [Hmy Hy].
    rewrite Hmx in Hmy. injection Hmy as <-. congruence.
Qed.

Lemma clear_all_on_local {W} (c : ScanResultCache W) rk pattern w :
  local_backend c ->
  clear_all c rk pattern w =
  if pattern_given pattern then
    let doomed (k : string) :=
      contains (remove_stars (default EmptyString pattern)) k in
    (Z.of_nat (size (filter (fun kv => doomed (fst kv) = true) (memory_cache c))),
     with_memory c (filter (fun kv => doomed (fst kv) = false) (memory_cache c)),
     w)
  else (Z.of_nat (size (memory_cache c)), with_memory c ∅, w).
Proof.
  intros Hl.
  assert (H : clear_all c rk pattern w =
              match pattern with
              | Some p =>
                  if pattern_given pattern then
                    let doomed (k : string) := contains (remove_stars p) k in
                    (Z.of_nat (size (filter (fun kv => doomed (fst kv) = true)
                                       (memory_cache c))),
                     with_memory c (filter (fun kv => doomed (fst kv) = false)
                                      (memory_cache c)), w)
                  else (Z.of_nat (size (memory_cache c)), with_memory c ∅, w)
              | None => (Z.of_nat (size (memory_cache c)), with_memory c ∅, w)
              end).
  { destruct Hl as [H|H]; unfold clear_all; rewrite H; [reflexivity|].
    destruct (use_redis c); reflexivity. }
  rewrite H. destruct pattern; reflexivity.
Qed.

(** X2. On the local store, [clear_all] without a pattern (or with the
    empty one) empties the store and returns the number of entries it had.
    With a pattern it drops exactly the entries whose key contains the
    pattern with its stars removed, keeps the others as they were, and
    returns the number of entries dropped; a pattern made of stars only
    drops everything. *)
Theorem clear_all_local {W} (c : ScanResultCache W) (rk : RedisKeyspace W)
    (pattern : option string) (w : W) :
  local_backend c ->
  let out := clear_all c rk pattern w in
  let count := fst (fst out) in
  let after := memory_cache (snd (fst out)) in
  snd out = w
  /\ (count + Z.of_nat (size after) = Z.of_nat (size (memory_cache c)))
  /\ (pattern_given pattern = false -> after = ∅)
  /\ (forall p, pattern = Some p -> p <> EmptyString ->
        forall k, after !! k
                  = if contains (remove_stars p) k then None
                    else memory_cache c !! k)
  /\ (forall p, pattern = Some p -> remove_stars p = EmptyString -> after = ∅).
Proof.
  intros Hl. cbv zeta. rewrite clear_all_on_local by assumption.
  assert (Hkeys : forall p k,
             filter (fun kv : string * CacheEntry =>
                       contains (remove_stars p) (fst kv) = false)
               (memory_cache c) !! k
             = if contains (remove_stars p) k then None else memory_cache c !! k).
  { intros p k. destruct (contains (remove_stars p) k) eqn:Ek.
    - apply map_lookup_filter_None. right. intros x _. simpl. congruence.
    - destruct (memory_cache c !! k) as [x|] eqn:Ex.
      + apply map_lookup_filter_Some. auto.
      + apply map_lookup_filter_None. left. exact Ex. }
  destruct (pattern_given pattern) eqn:Hp; cbn [fst snd memory_cache with_memory].
  - split; [reflexivity|]. split.
    { pose proof (size_filter_split (memory_cache c)
                    (fun kv => contains
                                 (remove_stars (default EmptyString pattern))
                                 (fst kv))) as Hs.
      simpl in Hs. lia. }
    split; [discriminate|]. split.
    + intros p -> _ k. apply Hkeys.
    + intros p -> Hstars. apply map_eq. intros k. simpl.
      rewrite Hkeys, Hstars, lookup_empty.
      destruct k; reflexivity.
  - split; [reflexivity|]. split; [rewrite map_size_empty; lia|].
    split; [reflexivity|]. split.
    + intros p -> Hne. exfalso. simpl in Hp.
      apply negb_false_iff, String.eqb_eq in Hp. contradiction.
    + intros. reflexivity.
Qed.

Lemma clear_all_local_witness :
  snd (clear_all after_set no_keyspace (Some "hexstrike:scan:nmap:*") tt) = tt.
Proof.
  refine (proj1 (clear_all_local after_set no_keyspace
                   (Some "hexstrike:scan:nmap:*") tt _)).
  left. reflexivity.
Defined.

Lemma contains_refl_app (p pre post : string) :
  contains p (pre +:+ p +:+ post) = true.
Proof. apply contains_spec. exists pre, post. reflexivity. Qed.

Lemma string_app_assoc (a b c : string) :
  a +:+ (b +:+ c) = (a +:+ b) +:+ c.
Proof.
  induction a as [|ch a IH]; [reflexivity|].
  change (String ch (a +:+ (b +:+ c)) = String ch ((a +:+ b) +:+ c)).
  rewrite IH. reflexivity.
Qed.

Lemma remove_stars_app (a b : string) :
  remove_stars (a +:+ b) = remove_stars a +:+ remove_stars b.
Proof.
  induction a as [|ch a IH]; simpl; [reflexivity|].
  destruct (Ascii.eqb ch (chr 42)); simpl; rewrite IH; reflexivity.
Qed.

Lemma remove_stars_none (s : string) :
  contains "*" s = false -> remove_stars s = s.
Proof.
  induction s as [|ch s IH]; [reflexivity|].
  cbn [contains startswith remove_stars].
  destruct (Ascii.eqb ch (chr 42)) eqn:E.
  - rewrite Ascii.eqb_sym in E. change (chr 42) with "*"%char in E.
    rewrite E. simpl. discriminate.
  - intros H. apply orb_false_iff in H as [_ H]. rewrite IH by exact H.
    reflexivity.
Qed.

Lemma clear_all_lookup {W} (c : ScanResultCache W) (rk : RedisKeyspace W)
    (p : string) (w : W) (k : string) :
  local_backend c -> p <> EmptyString ->
  memory_cache (snd (fst (clear_all c rk (Some p) w))) !! k
  = if contains (remove_stars p) k then None else memory_cache c !! k.
Proof.
  intros Hl Hp. rewrite clear_all_on_local by assumption.
  assert (Hgiven : pattern_given (Some p) = true).
  { simpl. apply negb_true_iff, String.eqb_neq, Hp. }
  rewrite Hgiven. cbn [fst snd memory_cache with_memory default].
  destruct (contains (remove_stars p) k) eqn:Ek.
  - apply map_lookup_filter_None. right. intros x _. simpl. congruence.
  - destruct (memory_cache c !! k) as [x|] eqn:Ex.
    + apply map_lookup_filter_Some. auto.
    + apply map_lookup_filter_None. left. exact Ex.
Qed.

(** X3. On the local store, clearing with the pattern
    [hexstrike:scan:<tool>:*] of a tool whose name has no star leaves no
    entry of that tool: whatever the target and the parameters, the key that
    [_generate_cache_key] gives them is gone. *)
Theorem clear_all_tool_pattern {W} (c : ScanResultCache W)
    (rk : RedisKeyspace W) (tool target : string) (params : pydict) (w : W) :
  local_backend c ->
  contains "*" tool = false ->
  memory_cache
    (snd (fst (clear_all c rk (Some ("hexstrike:scan:" +:+ tool +:+ ":*")) w)))
    !! _generate_cache_key tool target params = None.
Proof.
  intros Hl Hstar.
  rewrite clear_all_lookup by (exact Hl || discriminate).
  replace (remove_stars ("hexstrike:scan:" +:+ tool +:+ ":*"))
    with ("hexstrike:scan:" +:+ tool +:+ ":").
  - replace (contains ("hexstrike:scan:" +:+ tool +:+ ":")
               (_generate_cache_key tool target params)) with true; [reflexivity|].
    symmetry. apply contains_spec. unfold _generate_cache_key. cbv zeta.
    exists EmptyString, (MD5.hexdigest
                           (encode (tool +:+ ":" +:+ target +:+ ":"
                                    +:+ json_dumps true (PDict params)))).
    cbn [String.append]. rewrite <- !string_app_assoc. reflexivity.
  - change ("hexstrike:scan:" +:+ tool +:+ ":*")
      with ("hexstrike:scan:" +:+ (tool +:+ ":*")).
    rewrite !remove_stars_app, (remove_stars_none tool Hstar). reflexivity.
Qed.

Lemma clear_all_tool_pattern_witness :
  memory_cache
    (snd (fst (clear_all after_set no_keyspace
                 (Some ("hexstrike:scan:" +:+ "nmap" +:+ ":*")) tt)))
    !! _generate_cache_key "nmap" "10.0.0.1" params_ab = None.
Proof.
  refine (clear_all_tool_pattern after_set no_keyspace "nmap" "10.0.0.1"
            params_ab tt _ _).
  - left. reflexivity.
  - reflexivity.
Defined.

Lemma cleanup_filters {W} (c : ScanResultCache W) (now : Z) :
  filter (fun kv : string * CacheEntry => expires_at (snd kv) <= now)
    (memory_cache c)
  = filter (fun kv : string * CacheEntry => (now <? expires_at (snd kv)) = false)
      (memory_cache c)
  /\ filter (fun kv : string * CacheEntry => now < expires_at (snd kv))
       (memory_cache c)
     = filter (fun kv : string * CacheEntry => (now <? expires_at (snd kv)) = true)
         (memory_cache c).
Proof.
  split; apply map_filter_ext; intros k e _; simpl.
  - rewrite Z.ltb_ge. reflexivity.
  - rewrite Z.ltb_lt. reflexivity.
Qed.

Lemma cleanup_lookup {W} (c : ScanResultCache W) (now : Z) (k : string) :
  filter (fun kv : string * CacheEntry => now < expires_at (snd kv))
    (memory_cache c) !! k
  = match memory_cache c !! k with
    | Some e => if now <? expires_at e then Some e else None
    | None => None
    end.
Proof.
  destruct (memory_cache c !! k) as [e|] eqn:He.
  - destruct (Z.ltb_spec now (expires_at e)).
    + apply map_lookup_filter_Some. auto.
    + apply map_lookup_filter_None. right. intros e' He'. simpl.
      rewrite He in He'. injection He' as <-. lia.
  - apply map_lookup_filter_None. left. exact He.
Qed.

(** X4. With the Redis flag off, [cleanup_expired] drops exactly the
    entries whose expiry the clock has reached, keeps the others as they
    were and returns the number of entries dropped; a second run at the same
    time finds nothing to drop, and no lookup, then or later, can tell the
    cleaned store from the one before. *)
Theorem cleanup_expired_local {W} (c : ScanResultCache W) (now : Z) :
  use_redis c = false ->
  let out := cleanup_expired c now in
  (forall k, memory_cache (snd out) !! k
             = match memory_cache c !! k with
               | Some e => if now <? expires_at e then Some e else None
               | None => None
               end)
  /\ fst out + Z.of_nat (size (memory_cache (snd out)))
     = Z.of_nat (size (memory_cache c))
  /\ cleanup_expired (snd out) now = (0, snd out)
  /\ (forall tool target params now' (w : W),
        now <= now' ->
        fst (fst (get (snd out) tool target params now' w))
        = fst (fst (get c tool target params now' w))).
Proof.
  intros Hr. cbv zeta.
  assert (Hout : cleanup_expired c now
                 = (Z.of_nat (size (filter (fun kv : string * CacheEntry =>
                                              expires_at (snd kv) <= now)
                                      (memory_cache c))),
                    with_memory c (filter (fun kv : string * CacheEntry =>
                                             now < expires_at (snd kv))
                                     (memory_cache c))))
    by (unfold cleanup_expired; rewrite Hr; reflexivity).
  rewrite Hout. cbn [fst snd memory_cache with_memory].
  destruct (cleanup_filters c now) as [Hd Hk].
  split; [intros k; apply cleanup_lookup|]. split.
  { rewrite Hd, Hk.
    pose proof (size_filter_split (memory_cache c)
                  (fun kv => now <? expires_at (snd kv))) as Hs.
    simpl in Hs. lia. }
  split.
  - unfold cleanup_expired. cbn [use_redis with_memory memory_cache]. rewrite Hr.
    f_equal.
    + replace (filter (fun kv : string * CacheEntry => expires_at (snd kv) <= now)
                 (filter (fun kv : string * CacheEntry => now < expires_at (snd kv))
                    (memory_cache c))) with (∅ : gmap string CacheEntry);
        [rewrite map_size_empty; reflexivity|].
      symmetry. apply map_eq. intros k. rewrite lookup_empty.
      apply map_lookup_filter_None. right. intros e He. simpl.
      apply map_lookup_filter_Some in He as [_ He]. simpl in He. lia.
    + unfold with_memory. cbn [use_redis redis_client memory_cache]. f_equal.
      apply map_filter_id. intros k e He.
      apply map_lookup_filter_Some in He as [_ He]. exact He.
  - intros tool target params now' w Hle.
    assert (Hl : local_backend c) by (left; exact Hr).
    rewrite !get_local by (try apply with_memory_local; exact Hl).
    cbv zeta. cbn [memory_cache with_memory]. rewrite cleanup_lookup.
    destruct (memory_cache c !! _) as [e|]; [|reflexivity].
    destruct (Z.ltb_spec now (expires_at e)) as [Hlt|Hge].
    + destruct (now' <? expires_at e); reflexivity.
    + destruct (Z.ltb_spec now' (expires_at e)); [lia | reflexivity].
Qed.

Lemma cleanup_expired_local_witness :
  cleanup_expired (snd (cleanup_expired after_set 9000)) 9000
  = (0, snd (cleanup_expired after_set 9000)).
Proof.
  exact (proj1 (proj2 (proj2
           (cleanup_expired_local after_set 9000 eq_refl)))).
Defined.

(** X5. A cache that was told to use Redis but has no client keeps its
    entries in the local store, and [cleanup_expired], which looks at the
    flag alone, never removes them: after a [set], whatever the time, it
    returns 0 and the entry is still in the store. *)
Theorem cleanup_skipped_without_client {W} (c : ScanResultCache W)
    (tool target : string) (params : option pydict) (v : pyval)
    (ttl : option Z) (scan : string) (clk : SetClock) (w : W) (now : Z) :
  use_redis c = true -> redis_client c = None ->
  let c1 := snd (fst (set c tool target params v ttl scan clk w)) in
  cleanup_expired c1 now = (0, c1)
  /\ present (memory_cache c1
               !! _generate_cache_key tool target (or_empty params)) = true
  /\ Z.of_nat (size (memory_cache c1)) >= 1.
Proof.
  intros Hflag Hclient. cbv zeta.
  assert (Hl : local_backend c) by (right; exact Hclient).
  rewrite (set_local c) by exact Hl. cbn [fst snd]. cbv zeta.
  split; [unfold cleanup_expired; cbn [use_redis with_memory]; rewrite Hflag;
          reflexivity|].
  cbn [memory_cache with_memory]. split.
  - rewrite lookup_insert_eq. reflexivity.
  - destruct (memory_cache c !! _generate_cache_key tool target (or_empty params))
      as [e|] eqn:E.
    + rewrite map_size_insert_Some by eauto.
      assert (size (memory_cache c) <> 0%nat); [|lia].
      apply map_size_non_empty_iff. intros Hm. rewrite Hm, lookup_empty in E.
      discriminate.
    + rewrite map_size_insert_None by exact E. lia.
Qed.

(** A cache with the Redis flag on and no client. *)
Definition flagged_cache : ScanResultCache unit :=
  {| use_redis := true; redis_client := None; memory_cache := ∅ |}.

Lemma cleanup_skipped_without_client_witness :
  cleanup_expired
    (snd (fst (set flagged_cache "nmap" "10.0.0.1" None nmap_payload None
                 "default" clock_1000 tt))) 99999
  = (0, snd (fst (set flagged_cache "nmap" "10.0.0.1" None nmap_payload None
                    "default" clock_1000 tt))).
Proof.
  exact (proj1 (cleanup_skipped_without_client flagged_cache "nmap" "10.0.0.1"
                  None nmap_payload None "default" clock_1000 tt 99999
                  eq_refl eq_refl)).
Defined.

Lemma filter_length_perm {A} (f : A -> bool) (l l' : list A) :
  Permutation l l' -> length (List.filter f l) = length (List.filter f l').
Proof.
  induction 1 as [|x l l' _ IH|x y l|l l' l'' _ IH1 _ IH2]; simpl.
  - reflexivity.
  - destruct (f x); simpl; rewrite IH; reflexivity.
  - destruct (f x), (f y); reflexivity.
  - rewrite IH1. exact IH2.
Qed.

(** Counting the values of a store that pass a test, on its list of items
    and on the store. *)
Lemma length_filter_values {A} (m : gmap string A) (f : A -> bool) :
  length (List.filter f (map snd (map_to_list m)))
  = size (filter (fun kv : string * A => f (snd kv) = true) m).
Proof.
  induction m as [|k x m Hk _ IH] using map_first_key_ind.
  - rewrite map_to_list_empty, map_filter_empty, map_size_empty. reflexivity.
  - rewrite (filter_length_perm f _ (x :: map snd (map_to_list m))).
    2:{ change (x :: map snd (map_to_list m))
          with (map snd ((k, x) :: map_to_list m)).
        apply Permutation_map. apply map_to_list_insert. exact Hk. }
    simpl. destruct (f x) eqn:Ex.
    + rewrite map_filter_insert_True by exact Ex.
      rewrite map_size_insert_None.
      * simpl. rewrite IH. reflexivity.
      * apply map_lookup_filter_None. left. exact Hk.
    + rewrite map_filter_insert_False by (simpl; congruence).
      rewrite delete_id by exact Hk. exact IH.
Qed.

Lemma count_tools_lookup (tools : list string) (acc : gmap string Z) (t : string) :
  default 0 (count_tools tools acc !! t)
  = default 0 (acc !! t) + Z.of_nat (length (List.filter (String.eqb t) tools)).
Proof.
  revert acc. induction tools as [|tool tools IH]; intros acc; simpl; [lia|].
  rewrite IH. rewrite lookup_insert.
  destruct (String.eqb t tool) eqn:E.
  - apply String.eqb_eq in E. subst tool.
    rewrite decide_True by reflexivity. simpl. lia.
  - apply String.eqb_neq in E. rewrite decide_False by congruence. lia.
Qed.

Lemma count_tools_positive (tools : list string) (acc : gmap string Z) (t : string) :
  (forall t' n, acc !! t' = Some n -> 0 < n) ->
  forall n, count_tools tools acc !! t = Some n -> 0 < n.
Proof.
  revert acc. induction tools as [|tool tools IH]; intros acc Hacc n; simpl;
    [apply Hacc|].
  apply IH. intros t' n'. rewrite lookup_insert. case_decide as Ht.
  - intros Hn. injection Hn as <-.
    destruct (acc !! tool) as [m|] eqn:Em; simpl; [|lia].
    specialize (Hacc _ _ Em). lia.
  - apply Hacc.
Qed.

Lemma get_stats_on_local {W} (c : ScanResultCache W) rk now w :
  local_backend c ->
  get_stats c rk now w =
  let valid := List.filter (fun entry => now <? expires_at entry)
                 (map snd (map_to_list (memory_cache c))) in
  (MemoryStats (Z.of_nat (size (memory_cache c))) (Z.of_nat (length valid))
     (count_tools (map tool_name valid) ∅), w).
Proof.
  intros [H|H]; unfold get_stats; rewrite H; [reflexivity|].
  destruct (use_redis c); reflexivity.
Qed.

(** X6. On the local store, [get_stats] reports the memory backend with
    the size of the store as the total, the number of entries that have not
    expired as the valid ones, never more than the total, and for each tool
    the number of its entries that have not expired (a tool with none has no
    item); after [cleanup_expired] at the same time the valid entries are
    all the entries. *)
Theorem get_stats_local {W} (c : ScanResultCache W) (rk : RedisKeyspace W)
    (now : Z) (w : W) :
  local_backend c ->
  exists valid by_tool,
    get_stats c rk now w
    = (MemoryStats (Z.of_nat (size (memory_cache c))) valid by_tool, w)
    /\ valid = Z.of_nat (size (filter (fun kv : string * CacheEntry =>
                                         now < expires_at (snd kv))
                                 (memory_cache c)))
    /\ 0 <= valid <= Z.of_nat (size (memory_cache c))
    /\ (forall t,
          default 0 (by_tool !! t)
          = Z.of_nat (size (filter (fun kv : string * CacheEntry =>
                                      tool_name (snd kv) = t
                                      /\ now < expires_at (snd kv))
                              (memory_cache c))))
    /\ (forall t n, by_tool !! t = Some n -> 0 < n)
    /\ (use_redis c = false ->
        exists by_tool',
          get_stats (snd (cleanup_expired c now)) rk now w
          = (MemoryStats valid valid by_tool', w)).
Proof.
  intros Hl.
  assert (Hvalid : forall m : gmap string CacheEntry,
             length (List.filter (fun entry => now <? expires_at entry)
                       (map snd (map_to_list m)))
             = size (filter (fun kv : string * CacheEntry =>
                               now < expires_at (snd kv)) m)).
  { intros m. rewrite length_filter_values. f_equal.
    apply map_filter_ext. intros k e _. simpl. apply Z.ltb_lt. }
  eexists _, _. split; [apply get_stats_on_local; exact Hl|]. cbv zeta.
  split; [rewrite Hvalid; reflexivity|]. split.
  { rewrite Hvalid.
    pose proof (map_subseteq_size _ _
                  (map_filter_subseteq (fun kv : string * CacheEntry =>
                                          now < expires_at (snd kv))
                     (memory_cache c))). lia. }
  split.
  { intros t. rewrite count_tools_lookup, lookup_empty.
    cbn [default]. rewrite Z.add_0_l.
    assert (Hf : forall l : list CacheEntry,
               length (List.filter (String.eqb t)
                         (map tool_name
                            (List.filter (fun entry => now <? expires_at entry) l)))
               = length (List.filter
                           (fun e => String.eqb t (tool_name e)
                                     && (now <? expires_at e)) l)).
    { induction l as [|e l IH]; simpl; [reflexivity|].
      destruct (now <? expires_at e); simpl;
        destruct (String.eqb t (tool_name e)); simpl; rewrite IH; reflexivity. }
    rewrite Hf, length_filter_values. do 2 f_equal.
    apply map_filter_ext. intros k e _. simpl.
    rewrite andb_true_iff, String.eqb_eq, Z.ltb_lt. intuition congruence. }
  split.
  { intros t n. apply count_tools_positive. intros t' n'.
    rewrite lookup_empty. discriminate. }
  intros Hr. eexists.
  rewrite get_stats_on_local
    by (unfold cleanup_expired; rewrite Hr; apply with_memory_local; exact Hl).
  unfold cleanup_expired. rewrite Hr. cbn [snd memory_cache with_memory]. cbv zeta.
  rewrite !Hvalid.
  rewrite (map_filter_id _ (filter (fun kv : string * CacheEntry =>
                                      now < expires_at (snd kv))
                              (memory_cache c))); [reflexivity|].
  intros k e He. apply map_lookup_filter_Some in He as [_ He]. exact He.
Qed.

Lemma get_stats_local_witness :
  exists valid by_tool,
    get_stats after_set no_keyspace 1000 tt
    = (MemoryStats (Z.of_nat (size (memory_cache after_set))) valid by_tool, tt).
Proof.
  destruct (get_stats_local after_set no_keyspace 1000 tt local_cache_local)
    as (valid & by_tool & H & _).
  exists valid, by_tool. exact H.
Defined.

Lemma string_length_app (a b : string) :
  String.length (a +:+ b) = (String.length a + String.length b)%nat.
Proof.
  induction a as [|ch a IH]; [reflexivity|].
  change (S (String.length (a +:+ b)) = S (String.length a + String.length b)).
  rewrite IH. reflexivity.
Qed.

Lemma string_app_inv_head (a x y : string) : a +:+ x = a +:+ y -> x = y.
Proof.
  induction a as [|ch a IH]; [exact (fun H => H)|].
  intros H. change (String ch (a +:+ x) = String ch (a +:+ y)) in H.
  injection H as H. exact (IH H).
Qed.

Lemma string_app_inj_length (a b x y : string) :
  a +:+ x = b +:+ y -> String.length a = String.length b -> a = b.
Proof.
  revert b. induction a as [|ch a IH]; intros [|ch' b] H Hlen;
    try reflexivity; try discriminate Hlen.
  change (String ch (a +:+ x) = String ch' (b +:+ y)) in H.
  injection H as -> H. f_equal. apply IH; [exact H|].
  simpl in Hlen. lia.
Qed.

(** [hexdigest] gives 32 characters. *)
Lemma hexdigest_length (bs : list Z) : String.length (MD5.hexdigest bs) = 32%nat.
Proof.
  unfold MD5.hexdigest, MD5.digest.
  destruct (MD5.blocks _ _ _) as [[[a b] c] d].
  unfold MD5.word_bytes. cbn [app fold_right].
  rewrite !string_length_app. reflexivity.
Qed.

(** X7. Entries of different tools never share a key, whatever MD5 does:
    the key ends with the 32 characters of the digest after the tool's
    name.  So on the local store a [set] for one tool leaves every lookup
    for another tool as it was. *)
Theorem cache_keys_of_tools_differ {W} (tool1 tool2 target1 target2 : string)
    (params1 params2 : pydict) :
  tool1 <> tool2 ->
  _generate_cache_key tool1 target1 params1
  <> _generate_cache_key tool2 target2 params2
  /\ (forall (c : ScanResultCache W) v ttl scan clk w now w',
        local_backend c ->
        fst (fst (get (snd (fst (set c tool1 target1 (Some params1) v ttl scan
                                   clk w)))
                    tool2 target2 (Some params2) now w'))
        = fst (fst (get c tool2 target2 (Some params2) now w'))).
Proof.
  intros Hne.
  assert (Hk : _generate_cache_key tool1 target1 params1
               <> _generate_cache_key tool2 target2 params2).
  { unfold _generate_cache_key. cbv zeta. intros H.
    apply string_app_inv_head in H.
    apply Hne. eapply string_app_inj_length; [exact H|].
    apply (f_equal String.length) in H.
    rewrite !string_length_app, !hexdigest_length in H. simpl in H. lia. }
  split; [exact Hk|].
  intros c v ttl scan clk w now w' Hl.
  rewrite (set_local c) by exact Hl. cbn [fst snd]. cbv zeta.
  rewrite !get_local by (try apply with_memory_local; exact Hl).
  cbv zeta. cbn [memory_cache with_memory or_empty].
  rewrite lookup_insert_ne by exact Hk.
  destruct (memory_cache c !! _) as [e|]; [|reflexivity].
  destruct (now <? expires_at e); reflexivity.
Qed.

Lemma cache_keys_of_tools_differ_witness :
  _generate_cache_key "nmap" "10.0.0.1" params_ab
  <> _generate_cache_key "httpx" "10.0.0.1" params_ab.
Proof.
  refine (proj1 (cache_keys_of_tools_differ (W := unit) "nmap" "httpx"
                   "10.0.0.1" "10.0.0.1" params_ab params_ab _)).
  intros H. discriminate H.
Defined.

Lemma get_keeps_backend {W} (c c1 : ScanResultCache W) tool target params now
    w w1 r :
  get c tool target params now w = (r, c1, w1) ->
  local_backend c -> local_backend c1 /\ w1 = w.
Proof.
  intros H Hl. rewrite get_local in H by exact Hl. cbv zeta in H.
  destruct (memory_cache c !! _) as [e|];
    [destruct (now <? expires_at e)|]; injection H as <- <- <-; auto.
Qed.

(** X8. On the local store, once the wrapper has run the executor (the
    lookup missed or a refresh was forced) and the executor has returned a
    dictionary that reports success, the wrapper returns it with
    ["from_cache"] false, and every later call without forced refresh, until
    the entry expires, returns that dictionary with ["from_cache"] true and
    the time of caching, whatever executor it is given: the executor is not
    invoked and neither the cache nor the outside world changes. *)
Theorem cached_result_served {W} (c c0 : ScanResultCache W)
    (tool target : string) (params : pydict) (f g : Executor W)
    (force : bool) (scan scan' : string) (now now' : Z) (clk clk' : SetClock)
    (w w0 w1 w' : W) (cached : option pyval) (d : pydict) :
  local_backend c ->
  (if force then (None, c, w) else get c tool target (Some params) now w)
  = (cached, c0, w0) ->
  match cached with Some v => truthy v = false | None => True end ->
  f target params w0 = (Returned (PDict d), w1) ->
  reports_success (PDict d) = true ->
  now' < time_expiry clk + resolve_ttl tool None scan ->
  let first := execute_with_cache c tool target params f force scan now clk w in
  let c1 := snd (fst first) in
  first = (Returned (PDict (dict_update d [("from_cache", PBool false)])), c1, w1)
  /\ execute_with_cache c1 tool target params g false scan' now' clk' w'
     = (Returned (PDict (dict_update d [("from_cache", PBool true);
                                        ("cached_at", PStr (now_iso clk))])),
        c1, w').
Proof.
  intros Hl Hlook Hmiss Hf Hok Hnow. cbv zeta.
  assert (Hl0 : local_backend c0).
  { destruct force; [injection Hlook as _ <- _; exact Hl|].
    apply (get_keeps_backend _ _ _ _ _ _ _ _ _ Hlook Hl). }
  assert (Hfirst : execute_with_cache c tool target params f force scan now clk w
                   = (Returned (PDict (dict_update d [("from_cache", PBool false)])),
                      snd (fst (set c0 tool target (Some params) (PDict d) None
                                  scan clk w1)),
                      w1)).
  { unfold execute_with_cache.
    assert (Hrun : forall c' : ScanResultCache W, local_backend c' ->
               (let '(c2, w2) :=
                  if reports_success (PDict d)
                  then let '(_, c2, w2) :=
                         set c' tool target (Some params) (PDict d) None scan clk w1 in
                       (c2, w2)
                  else (c', w1) in
                (Returned (PDict (dict_update d [("from_cache", PBool false)])),
                 c2, w2))
               = (Returned (PDict (dict_update d [("from_cache", PBool false)])),
                  snd (fst (set c' tool target (Some params) (PDict d) None scan
                              clk w1)), w1)).
    { intros c' Hl'. rewrite Hok. rewrite (set_local c') by exact Hl'.
      reflexivity. }
    destruct force.
    - injection Hlook as <- <- <-. rewrite Hf. apply Hrun. exact Hl.
    - rewrite Hlook.
      destruct cached as [v|]; [rewrite Hmiss|]; rewrite Hf; apply Hrun; exact Hl0. }
  rewrite Hfirst. cbn [fst snd]. split; [reflexivity|].
  unfold execute_with_cache.
  rewrite (set_local c0) by exact Hl0. cbn [fst snd]. cbv zeta.
  rewrite get_local by (apply with_memory_local; exact Hl0).
  cbv zeta. cbn [memory_cache with_memory or_empty].
  rewrite lookup_insert_eq. cbn [expires_at data].
  apply Z.ltb_lt in Hnow. rewrite Hnow. reflexivity.
Qed.

(** An executor that reports success once, and one that must not run. *)
Definition succeeding_executor : Executor unit :=
  fun _ _ w => (Returned nmap_payload, w).

Definition crashing_executor : Executor unit :=
  fun _ _ w => (Raised "must not run", w).

Lemma cached_result_served_witness :
  execute_with_cache
    (snd (fst (execute_with_cache local_cache "nmap" "10.0.0.1" params_ab
                 succeeding_executor false "default" 1000 clock_1000 tt)))
    "nmap" "10.0.0.1" params_ab crashing_executor false "deep_scan" 5000
    clock_1000 tt
  = (Returned (PDict (dict_update
                        [("success", PBool true); ("stdout", PStr "80/tcp open")]
                        [("from_cache", PBool true);
                         ("cached_at", PStr (now_iso clock_1000))])),
     snd (fst (execute_with_cache local_cache "nmap" "10.0.0.1" params_ab
                 succeeding_executor false "default" 1000 clock_1000 tt)),
     tt).
Proof.
  refine (proj2 (cached_result_served local_cache local_cache "nmap" "10.0.0.1"
                   params_ab succeeding_executor crashing_executor false
                   "default" "deep_scan" 1000 5000 clock_1000 clock_1000
                   tt tt tt tt None
                   [("success", PBool true); ("stdout", PStr "80/tcp open")]
                   local_cache_local _ I eq_refl eq_refl _)).
  - vm_compute. reflexivity.
  - vm_compute. reflexivity.
Defined.

(** [':' in name] *)
Fixpoint has_colon (name : string) : bool :=
  match name with
  | EmptyString => false
  | String ch rest => Ascii.eqb ch (chr 58) || has_colon rest
  end.

Lemma string_app_nil (a : string) : a +:+ EmptyString = a.
Proof.
  induction a as [|ch a IH]; [reflexivity|].
  change (String ch (a +:+ EmptyString) = String ch a). rewrite IH. reflexivity.
Qed.

Lemma split_colon_part (acc a rest : string) :
  has_colon a = false ->
  split_colon acc (a +:+ String (chr 58) rest)
  = (acc +:+ a) :: split_colon EmptyString rest.
Proof.
  revert acc. induction a as [|ch a IH]; intros acc; cbn [has_colon].
  - intros _. change (EmptyString +:+ String (chr 58) rest)
      with (String (chr 58) rest).
    cbn [split_colon]. rewrite Ascii.eqb_refl, string_app_nil. reflexivity.
  - destruct (Ascii.eqb ch (chr 58)) eqn:Hch; [discriminate|]. simpl orb.
    intros Ha.
    change (String ch a +:+ String (chr 58) rest)
      with (String ch (a +:+ String (chr 58) rest)).
    cbn [split_colon]. rewrite Hch, (IH _ Ha). unfold str1.
    rewrite <- string_app_assoc. reflexivity.
Qed.

Lemma tool_of_key (tool target : string) (params : pydict) :
  has_colon tool = false ->
  nth_error (split_colon EmptyString (_generate_cache_key tool target params)) 2
  = Some tool.
Proof.
  intros Htool. unfold _generate_cache_key. cbv zeta.
  set (hash_key := MD5.hexdigest _).
  change ("hexstrike:scan:" +:+ tool +:+ ":" +:+ hash_key)
    with ("hexstrike" +:+ String (chr 58)
            ("scan" +:+ String (chr 58) (tool +:+ String (chr 58) hash_key))).
  rewrite !split_colon_part by (reflexivity || exact Htool).
  reflexivity.
Qed.

(** X9. On the Redis backend, [get_stats] reads the tool of an entry back
    from its key.  When the keys that Redis lists are keys made by
    [_generate_cache_key] for tools whose names have no colon, every key
    is counted under the tool it was made for. *)
Theorem redis_stats_count_by_tool {W} (c : ScanResultCache W)
    (rc : RedisClient W) (rk : RedisKeyspace W) (now : Z) (w w1 : W)
    (jobs : list (string * string * pydict)) :
  use_redis c = true ->
  redis_client c = Some rc ->
  redis_keys rk "hexstrike:scan:*" w
  = (Some (map (fun job => _generate_cache_key (fst (fst job)) (snd (fst job))
                             (snd job)) jobs), w1) ->
  Forall (fun job => has_colon (fst (fst job)) = false) jobs ->
  exists by_tool,
    get_stats c rk now w = (RedisStats (Z.of_nat (length jobs)) by_tool, w1)
    /\ forall tool,
         default 0 (by_tool !! tool)
         = Z.of_nat (length (List.filter
                               (fun job => String.eqb tool (fst (fst job)))
                               jobs)).
Proof.
  intros Hflag Hclient Hkeys Hjobs. unfold get_stats.
  rewrite Hflag, Hclient, Hkeys. rewrite length_map.
  eexists. split; [reflexivity|]. intros tool.
  rewrite count_tools_lookup, lookup_empty. cbn [default].
  rewrite Z.add_0_l. f_equal.
  clear Hkeys. induction Hjobs as [|job jobs Hjob Hjobs IH]; [reflexivity|].
  cbn [map omap list_omap]. rewrite (tool_of_key _ _ _ Hjob).
  cbn [List.filter]. destruct (String.eqb tool (fst (fst job)));
    cbn [length]; rewrite IH; reflexivity.
Qed.


(** A server that holds nothing under the keys asked for, and a keyspace
    that lists the keys of three scans. *)
Definition silent_client : RedisClient unit :=
  {| redis_get := fun _ w => (Some None, w);
     redis_setex := fun _ _ _ w => (true, w);
     json_loads := fun _ => None |}.

Definition redis_cache : ScanResultCache unit :=
  {| use_redis := true; redis_client := Some silent_client; memory_cache := ∅ |}.

Definition three_scans : list (string * string * pydict) :=
  [("nmap", "10.0.0.1", params_ab); ("httpx", "10.0.0.1", []);
   ("nmap", "10.0.0.2", [])].

Definition three_keys : RedisKeyspace unit :=
  {| redis_delete := fun keys w => (Some (Z.of_nat (length keys)), w);
     redis_keys := fun _ w =>
       (Some (map (fun job => _generate_cache_key (fst (fst job))
                                (snd (fst job)) (snd job)) three_scans), w) |}.

Lemma three_scans_no_colon :
  Forall (fun job => has_colon (fst (fst job)) = false) three_scans.
Proof. repeat constructor. Qed.

Lemma redis_stats_count_by_tool_witness :
  exists by_tool,
    get_stats redis_cache three_keys 0 tt
    = (RedisStats (Z.of_nat (length three_scans)) by_tool, tt)
    /\ forall tool,
         default 0 (by_tool !! tool)
         = Z.of_nat (length (List.filter
                               (fun job => String.eqb tool (fst (fst job)))
                               three_scans)).
Proof.
  apply (redis_stats_count_by_tool redis_cache silent_client three_keys 0 tt tt
           three_scans).
  - reflexivity.
  - reflexivity.
  - reflexivity.
  - exact three_scans_no_colon.
Defined.


End CacheExtra.

(** ** The classifier and the resilient executor *)

Module HandlerExtra.

Import Handler HandlerProps.

Lemma any_pattern_In (patterns : list string) (p text : string) :
  In p patterns -> contains (lower p) text = true ->
  any_pattern patterns text = true.
Proof.
  induction patterns as [|q qs IH]; simpl; [tauto|].
  intros [->|Hin] Hc; [rewrite Hc; reflexivity|].
  destruct (contains (lower q) text); [reflexivity | auto].
Qed.

Lemma any_pattern_inv (patterns : list string) (text : string) :
  any_pattern patterns text = true ->
  exists p, In p patterns /\ contains (lower p) text = true.
Proof.
  induction patterns as [|q qs IH]; simpl; [discriminate|].
  destruct (contains (lower q) text) eqn:E.
  - intros _. exists q. auto.
  - intros H. destruct (IH H) as (p & Hp & Hc). exists p. auto.
Qed.

(** X10. The pattern "rate limit" belongs to the waf-detected group, which
    is examined before the rate-limited one: a text in which it occurs is
    never classified as rate-limited, and the classification rate-limited
    is reached only through "too many requests" or "429". *)
Theorem rate_limited_only_by_requests_or_429 (error_message stderr : string)
    (returncode : pyval) :
  diagnose_error (PStr error_message) (PStr stderr) returncode = RATE_LIMITED ->
  let text := error_message +:+ " " +:+ stderr in
  ~ occurs_ci "rate limit" text
  /\ (occurs_ci "too many requests" text \/ occurs_ci "429" text).
Proof.
  unfold diagnose_error. cbn [py_str]. intros H. cbv zeta.
  set (text := lower (error_message +:+ " " +:+ stderr)) in *.
  unfold ERROR_PATTERNS in H. cbn [scan_groups] in H.
  repeat match type of H with
         | (if any_pattern ?ps text then _ else _) = _ =>
             let E := fresh "E" in
             destruct (any_pattern ps text) eqn:E; [discriminate H|]
         end.
  match type of H with
  | (if any_pattern ?ps text then _ else _) = _ =>
      destruct (any_pattern ps text) eqn:Erl; [|discriminate H]
  end.
  split.
  - intros Hocc. apply contains_lower in Hocc. fold text in Hocc.
    assert (Hw : any_pattern ["WAF"; "Web Application Firewall";
                              "blocked by security"; "rate limit"] text = true).
    { apply (any_pattern_In _ "rate limit"); [simpl; auto | exact Hocc]. }
    congruence.
  - apply any_pattern_inv in Erl as (p & Hp & Hc).
    destruct Hp as [<-|[<-|[<-|[]]]].
    + exfalso.
      assert (Hw : any_pattern ["WAF"; "Web Application Firewall";
                                "blocked by security"; "rate limit"] text = true).
      { apply (any_pattern_In _ "rate limit"); [simpl; auto | exact Hc]. }
      congruence.
    + left. apply contains_lower. exact Hc.
    + right. apply contains_lower. exact Hc.
Qed.

Lemma rate_limited_only_by_requests_or_429_witness :
  ~ occurs_ci "rate limit" ("HTTP 429" +:+ " " +:+ "slow down")
  /\ (occurs_ci "too many requests" ("HTTP 429" +:+ " " +:+ "slow down")
      \/ occurs_ci "429" ("HTTP 429" +:+ " " +:+ "slow down")).
Proof.
  refine (rate_limited_only_by_requests_or_429 "HTTP 429" "slow down" (PInt 1) _).
  vm_compute. reflexivity.
Defined.

(** X11. The classification depends on the message and the standard error
    text only through their letters without regard to case; the return code
    plays no part in it. *)
Theorem diagnose_error_ignores_case_and_code (m m' e e' : string)
    (returncode returncode' : pyval) :
  lower m = lower m' -> lower e = lower e' ->
  diagnose_error (PStr m) (PStr e) returncode
  = diagnose_error (PStr m') (PStr e') returncode'.
Proof.
  intros Hm He. unfold diagnose_error. cbn [py_str].
  rewrite !lower_app, Hm, He. reflexivity.
Qed.

Lemma diagnose_error_ignores_case_and_code_witness :
  diagnose_error (PStr "Permission DENIED") (PStr "EACCES") (PInt 13)
  = diagnose_error (PStr "permission denied") (PStr "eacces") PNone.
Proof.
  refine (diagnose_error_ignores_case_and_code _ _ _ _ _ _ _ _);
    vm_compute; reflexivity.
Defined.

(** The trace of [n] failed attempts, each followed by a sleep, and a last
    attempt. *)
Fixpoint retry_trace (n : nat) (delay : N) : list event :=
  match n with
  | O => [EvPrimary]
  | S n' => EvPrimary :: EvSleep delay :: retry_trace n' delay
  end.

Lemma retry_count_context_of {W} (E : Env W) tool target rc o w :
  retry_count (context_of E tool target rc o w) = rc.
Proof. destruct o; reflexivity. Qed.

Lemma error_type_context_of {W} (E : Env W) tool target rc o w :
  retryable_failure o ->
  error_type (context_of E tool target rc o w) <> TOOL_NOT_FOUND.
Proof. destruct o as [r|msg]; simpl; [tauto | discriminate]. Qed.

Lemma primary_loop_exhausted {W} (E : Env W) (self : ResilientExecutor)
    tool target params (f : Executor W) :
  (forall w, retryable_failure (fst (f target params w))) ->
  forall (k : nat) rc last w tr,
    max_retries self - rc = Z.of_nat k ->
    exists ctx w',
      primary_loop E self (S k) tool target params f rc last w tr
      = Some (LoopExit (Some ctx), w', tr ++ retry_trace k (retry_delay self))
      /\ retry_count ctx = max_retries self
      /\ error_type ctx <> TOOL_NOT_FOUND.
Proof.
  intros Hfail. induction k as [|k IH]; intros rc last w tr Hk.
  - destruct (f target params w) as [o w1] eqn:Hf.
    pose proof (Hfail w) as Ho. rewrite Hf in Ho. simpl in Ho.
    rewrite (primary_loop_retry E self tool target params f _ rc last w tr o w1)
      by (try lia; assumption).
    replace (rc + 1 <=? max_retries self) with false
      by (symmetry; apply Z.leb_gt; lia).
    rewrite primary_loop_over by lia.
    eexists _, _. split; [reflexivity|].
    rewrite retry_count_context_of. split; [lia|].
    apply error_type_context_of. exact Ho.
  - destruct (f target params w) as [o w1] eqn:Hf.
    pose proof (Hfail w) as Ho. rewrite Hf in Ho. simpl in Ho.
    rewrite (primary_loop_retry E self tool target params f _ rc last w tr o w1)
      by (try lia; assumption).
    replace (rc + 1 <=? max_retries self) with true
      by (symmetry; apply Z.leb_le; lia).
    destruct (IH (rc + 1) (Some (context_of E tool target rc o w1))
                (time_sleep E (retry_delay self) w1)
                (tr ++ [EvPrimary] ++ [EvSleep (retry_delay self)]))
      as (ctx & w' & Hloop & Hrc & Hty); [lia|].
    exists ctx, w'. rewrite Hloop. split; [|auto].
    rewrite <- !app_assoc. reflexivity.
Qed.

(** X12. When the executor fails with a retryable error every time, also
    by raising with a message that says the tool was not found, and the
    budget [max_retries] is not negative, it is invoked [max_retries + 1]
    times with a sleep of the retry delay after each attempt but the last;
    the error that is left records [max_retries] as its retry count, and the
    run goes on with the fallback from there, or, fallback disabled, returns
    the failure result of that error. *)
Theorem retries_exhausted {W} (E : Env W) (self : ResilientExecutor)
    (tool target : string) (params : pydict) (f : Executor W)
    (tool_executors : gmap string (Executor W)) (w : W) :
  0 <= max_retries self ->
  (forall w, retryable_failure (fst (f target params w))) ->
  exists ctx w',
    let tr := retry_trace (Z.to_nat (max_retries self)) (retry_delay self) in
    retry_count ctx = max_retries self
    /\ error_type ctx <> TOOL_NOT_FOUND
    /\ length (List.filter (fun e => match e with EvPrimary => true | _ => false end) tr)
       = S (Z.to_nat (max_retries self))
    /\ length (List.filter (fun e => match e with EvSleep _ => true | _ => false end) tr)
       = Z.to_nat (max_retries self)
    /\ execute_with_resilience E self tool target params f tool_executors w
       = Some (if enable_fallback self
               then _try_fallback E tool target params tool_executors ctx w' tr
               else (_create_failure_result tool target (Some ctx), w', tr)).
Proof.
  intros Hmax Hfail.
  destruct (primary_loop_exhausted E self tool target params f Hfail
              (Z.to_nat (max_retries self)) 0 None w [])
    as (ctx & w' & Hloop & Hrc & Hty); [lia|].
  exists ctx, w'. cbv zeta. split; [exact Hrc|]. split; [exact Hty|].
  assert (Hcount : forall n d,
             length (List.filter (fun e => match e with EvPrimary => true | _ => false end)
                       (retry_trace n d)) = S n
             /\ length (List.filter (fun e => match e with EvSleep _ => true | _ => false end)
                          (retry_trace n d)) = n).
  { induction n as [|n IHn]; intros d; simpl; [auto|].
    destruct (IHn d) as [-> ->]. auto. }
  destruct (Hcount (Z.to_nat (max_retries self)) (retry_delay self)) as [H1 H2].
  split; [exact H1|]. split; [exact H2|].
  rewrite (resilience_after_loop E self tool target params f tool_executors w
             (Some ctx) w' (retry_trace (Z.to_nat (max_retries self))
                              (retry_delay self))).
  - destruct (enable_fallback self); reflexivity.
  - unfold attempts.
    replace (Z.to_nat (max_retries self + 1))
      with (S (Z.to_nat (max_retries self))) by lia.
    exact Hloop.
Qed.

(** An executor that raises every time, saying that the tool is missing. *)
Definition raising_executor : Executor nat :=
  fun _ _ n => (Raised "nmap: command not found", S n).

Lemma retries_exhausted_witness :
  exists ctx w',
    retry_count ctx = max_retries two_retries
    /\ execute_with_resilience counting_env two_retries "nmap" "10.0.0.1" []
         raising_executor ∅ 0%nat
       = Some (_try_fallback counting_env "nmap" "10.0.0.1" [] ∅ ctx w'
                 (retry_trace 2 2)).
Proof.
  destruct (retries_exhausted counting_env two_retries "nmap" "10.0.0.1" []
              raising_executor ∅ 0%nat) as (ctx & w' & H1 & _ & _ & _ & H2).
  - simpl. lia.
  - intros w. exact I.
  - exists ctx, w'. split; [exact H1 | exact H2].
Defined.

(** X13. With a negative budget the loop over the primary tool is not
    entered: the executor is never invoked, no alternative is tried even if
    fallback is enabled, and the result is the failure result without error
    context, whose error is "Unknown error". *)
Theorem negative_budget_runs_nothing {W} (E : Env W) (self : ResilientExecutor)
    (tool target : string) (params : pydict) (f : Executor W)
    (tool_executors : gmap string (Executor W)) (w : W) :
  max_retries self < 0 ->
  execute_with_resilience E self tool target params f tool_executors w
  = Some (_create_failure_result tool target None, w, [])
  /\ dict_get "error"
       (match _create_failure_result tool target None with
        | PDict d => d
        | _ => []
        end) = Some (PStr "Unknown error")
  /\ reports_success (_create_failure_result tool target None) = false.
Proof.
  intros Hneg. split; [|split; reflexivity].
  rewrite (resilience_after_loop E self tool target params f tool_executors w
             None w []).
  - destruct (enable_fallback self); reflexivity.
  - apply primary_loop_over. lia.
Qed.

Definition no_budget : ResilientExecutor :=
  {| max_retries := -1; retry_delay := 2; enable_fallback := true |}.

Lemma negative_budget_runs_nothing_witness :
  execute_with_resilience masscan_env no_budget "nmap" "10.0.0.1" []
    always_succeeds nmap_masscan 0%nat
  = Some (_create_failure_result "nmap" "10.0.0.1" None, 0%nat, []).
Proof.
  refine (proj1 (negative_budget_runs_nothing masscan_env no_budget "nmap"
                   "10.0.0.1" [] always_succeeds nmap_masscan 0%nat _)).
  reflexivity.
Defined.

Definition is_primary (e : event) : bool :=
  match e with EvPrimary => true | _ => false end.
Definition is_sleep (e : event) : bool :=
  match e with EvSleep _ => true | _ => false end.
Definition is_alternative (e : event) : bool :=
  match e with EvAlternative _ => true | _ => false end.

(** the number of events of a trace that pass a test *)
Definition count (test : event -> bool) (tr : list event) : nat :=
  length (List.filter test tr).

Lemma count_app test tr tr' : count test (tr ++ tr') = (count test tr + count test tr')%nat.
Proof. unfold count. rewrite List.filter_app, length_app. reflexivity. Qed.

Lemma count_cons test e tr :
  count test (e :: tr) = ((if test e then 1 else 0) + count test tr)%nat.
Proof. unfold count. simpl. destruct (test e); reflexivity. Qed.

(** What the loop over the primary tool adds to the trace, and where a
    result it returns comes from. *)
Lemma primary_loop_bounds {W} (E : Env W) (self : ResilientExecutor)
    tool target params (f : Executor W) fuel rc last w tr e w' tr' :
  primary_loop E self fuel tool target params f rc last w tr = Some (e, w', tr') ->
  exists added,
    tr' = tr ++ added
    /\ (count is_primary added <= Z.to_nat (max_retries self + 1 - rc))%nat
    /\ (count is_sleep added <= Z.to_nat (max_retries self - rc))%nat
    /\ count is_alternative added = 0%nat
    /\ match e with
       | LoopReturn result =>
           reports_success result = true
           /\ exists w0 w1, f target params w0 = (Returned result, w1)
       | LoopExit _ => True
       end.
Proof.
  revert rc last w tr. induction fuel as [|fuel IH]; intros rc last w tr;
    cbn [primary_loop]; destruct (Z.leb_spec rc (max_retries self)) as [Hle|Hgt];
    try discriminate;
    try (intros H; injection H as <- <- <-; exists []; rewrite app_nil_r;
         repeat split; unfold count; simpl; lia).
  assert (Hnext : forall c w1,
             (if rc + 1 <=? max_retries self then
                primary_loop E self fuel tool target params f (rc + 1) (Some c)
                  (time_sleep E (retry_delay self) w1)
                  ((tr ++ [EvPrimary]) ++ [EvSleep (retry_delay self)])
              else
                primary_loop E self fuel tool target params f (rc + 1) (Some c)
                  w1 (tr ++ [EvPrimary])) = Some (e, w', tr') ->
             exists added,
               tr' = tr ++ added
               /\ (count is_primary added <= Z.to_nat (max_retries self + 1 - rc))%nat
               /\ (count is_sleep added <= Z.to_nat (max_retries self - rc))%nat
               /\ count is_alternative added = 0%nat
               /\ match e with
                  | LoopReturn result =>
                      reports_success result = true
                      /\ exists w0 w1, f target params w0 = (Returned result, w1)
                  | LoopExit _ => True
                  end).
  { intros c w1. destruct (Z.leb_spec (rc + 1) (max_retries self)) as [Hle1|Hgt1];
      intros H; apply IH in H as (added & -> & Hp & Hs & Ha & He).
    - exists (EvPrimary :: EvSleep (retry_delay self) :: added).
      rewrite <- !app_assoc. split; [reflexivity|].
      rewrite !count_cons. cbn [is_primary is_sleep is_alternative].
      repeat split; try lia. exact He.
    - exists (EvPrimary :: added). rewrite <- !app_assoc.
      split; [reflexivity|].
      rewrite !count_cons. cbn [is_primary is_sleep is_alternative].
      repeat split; try lia. exact He. }
  destruct (f target params w) as [[r|msg] w1] eqn:Hf; [|apply Hnext].
  destruct (reports_success r) eqn:Hok.
  - intros H. injection H as <- <- <-. exists [EvPrimary].
    split; [reflexivity|]. unfold count. simpl.
    split; [lia|]. split; [lia|]. split; [reflexivity|]. split; [exact Hok|].
    exists w, w1. exact Hf.
  - destruct (_ || _); [|apply Hnext].
    intros H. injection H as <- <- <-. exists [EvPrimary].
    split; [reflexivity|]. unfold count. simpl. repeat split; lia.
Qed.

(** What the table offers as alternatives: never the tool itself, no tool
    twice, three tools at most. *)
Definition alternatives_ok (entry : string * list string) : bool :=
  negb (existsb (String.eqb (fst entry)) (snd entry))
  && bool_decide (NoDup (snd entry))
  && (length (snd entry) <=? 3)%nat.

Lemma ALTERNATIVES_ok : forallb alternatives_ok ALTERNATIVES = true.
Proof. vm_compute. reflexivity. Qed.

Lemma assoc_In {A} (k : string) (l : list (string * A)) (a : A) :
  assoc k l = Some a -> In (k, a) l.
Proof.
  induction l as [|[k' a'] l IH]; simpl; [discriminate|].
  destruct (String.eqb k k') eqn:E.
  - apply String.eqb_eq in E. subst k'. intros H; injection H as ->. auto.
  - auto.
Qed.

Lemma get_alternatives_ok (tool : string) :
  ~ In tool (get_alternatives tool)
  /\ NoDup (get_alternatives tool)
  /\ (length (get_alternatives tool) <= 3)%nat.
Proof.
  unfold get_alternatives.
  destruct (assoc tool ALTERNATIVES) as [l|] eqn:E;
    [|repeat split; [intros [] | constructor | simpl; lia]].
  apply assoc_In in E.
  pose proof ALTERNATIVES_ok as Hok. rewrite forallb_forall in Hok.
  specialize (Hok _ E). unfold alternatives_ok in Hok. simpl in Hok.
  apply andb_true_iff in Hok as [Hok Hlen].
  apply andb_true_iff in Hok as [Hself Hnd].
  split; [|split].
  - intros Hin. apply negb_true_iff in Hself.
    assert (existsb (String.eqb tool) l = true); [|congruence].
    apply existsb_exists. exists tool. split; [exact Hin | apply String.eqb_refl].
  - apply bool_decide_eq_true in Hnd. exact Hnd.
  - apply Nat.leb_le. exact Hlen.
Qed.

Lemma filter_In_sub {A} (f : A -> bool) (l called later : list A) :
  List.filter f l = called ++ later ->
  Forall (fun a => In a l /\ f a = true) called.
Proof.
  intros H. apply List.Forall_forall. intros a Ha.
  apply filter_In. rewrite H. apply in_or_app. auto.
Qed.

Lemma filter_NoDup_length {A} (f : A -> bool) (l called later : list A) :
  NoDup l -> List.filter f l = called ++ later ->
  NoDup called /\ (length called <= length l)%nat.
Proof.
  intros Hnd H. split.
  - assert (Hf : NoDup (List.filter f l)).
    { clear H. induction Hnd as [|x l Hx Hnd IH]; simpl; [constructor|].
      destruct (f x); [|exact IH]. constructor; [|exact IH].
      intros Hin. apply Hx. apply list_elem_of_In in Hin.
      apply filter_In in Hin as [Hin _]. apply list_elem_of_In. exact Hin. }
    rewrite H in Hf. apply NoDup_app in Hf as [Hc _]. exact Hc.
  - assert (Hlen : (length (List.filter f l) <= length l)%nat).
    { clear. induction l as [|x l IH]; simpl; [lia|].
      destruct (f x); simpl; lia. }
    rewrite H, length_app in Hlen. lia.
Qed.

Lemma try_fallback_called {W} (E : Env W)
    (original_tool target : string) (params : pydict)
    (tool_executors : gmap string (Executor W)) (error_context : ErrorContext)
    (w : W) (tr : list event) :
  let out := _try_fallback E original_tool target params tool_executors
               error_context w tr in
  exists called,
    snd out = tr ++ map EvAlternative called
    /\ Forall (fun alt =>
                 In alt (get_alternatives original_tool)
                 /\ alt <> original_tool
                 /\ ToolChecker.is_tool_available (which E) alt = true
                 /\ present (tool_executors !! alt) = true) called
    /\ NoDup called
    /\ (length called <= 3)%nat
    /\ (has_alternatives original_tool = false ->
        out = (_create_failure_result original_tool target (Some error_context),
               w, tr)).
Proof.
  cbv zeta. rewrite try_fallback_alternatives.
  destruct (try_alternatives_outcome E original_tool target params
              tool_executors error_context (get_alternatives original_tool) w tr)
    as [called H].
  cbv zeta in H. destruct H as (Htr & [later Hl] & _).
  destruct (get_alternatives_ok original_tool) as (Hself & Hnd & Hlen).
  exists called. split; [exact Htr|]. split.
  { apply filter_In_sub in Hl. eapply List.Forall_impl; [|exact Hl].
    intros alt [Hin Hel]. unfold eligible in Hel.
    apply andb_true_iff in Hel as [Hav Hex].
    split; [exact Hin|]. split; [intros ->; contradiction|].
    split; [exact Hav|]. unfold present.
    destruct (tool_executors !! alt); [reflexivity | discriminate]. }
  destruct (filter_NoDup_length _ _ _ _ Hnd Hl) as [Hndc Hlenc].
  split; [exact Hndc|]. split; [lia|].
  unfold has_alternatives, get_alternatives.
  destruct (assoc original_tool ALTERNATIVES) as [[|a l]|]; simpl;
    intros Hno; try discriminate; reflexivity.
Qed.


(** X14. The fallback invokes executors of alternatives only: tools that
    the table lists for the original tool, never the original tool itself,
    each at most once and three at most, each reported available and with a
    registered executor; for a tool without alternatives in the table it
    invokes nothing and returns the failure result at once. *)
Theorem fallback_invokes_listed_alternatives {W} (E : Env W)
    (original_tool target : string) (params : pydict)
    (tool_executors : gmap string (Executor W)) (error_context : ErrorContext)
    (w : W) (tr : list event) :
  let out := _try_fallback E original_tool target params tool_executors
               error_context w tr in
  exists called,
    snd out = tr ++ map EvAlternative called
    /\ Forall (fun alt =>
                 In alt (get_alternatives original_tool)
                 /\ alt <> original_tool
                 /\ ToolChecker.is_tool_available (which E) alt = true
                 /\ present (tool_executors !! alt) = true) called
    /\ NoDup called
    /\ (length called <= 3)%nat
    /\ (has_alternatives original_tool = false ->
        out = (_create_failure_result original_tool target (Some error_context),
               w, tr)).
Proof.
  apply try_fallback_called.
Qed.

Lemma count_alternatives (called : list string) :
  count is_primary (map EvAlternative called) = 0%nat
  /\ count is_sleep (map EvAlternative called) = 0%nat
  /\ count is_alternative (map EvAlternative called) = length called.
Proof.
  induction called as [|a l (H1 & H2 & H3)]; [auto|].
  simpl map. rewrite !count_cons. simpl. auto.
Qed.

(** X15. Every run of [execute_with_resilience] comes to an end with a
    value, after at most [max_retries + 1] invocations of the primary
    executor, at most [max_retries] sleeps and at most three invocations of
    alternatives. *)
Theorem resilience_is_bounded {W} (E : Env W) (self : ResilientExecutor)
    (tool target : string) (params : pydict) (f : Executor W)
    (tool_executors : gmap string (Executor W)) (w : W) :
  exists result w' tr,
    execute_with_resilience E self tool target params f tool_executors w
    = Some (result, w', tr)
    /\ (count is_primary tr <= Z.to_nat (max_retries self + 1))%nat
    /\ (count is_sleep tr <= Z.to_nat (max_retries self))%nat
    /\ (count is_alternative tr <= 3)%nat.
Proof.
  destruct (primary_loop_total E self tool target params f (attempts self) 0
              None w []) as [[[e w1] tr1] Hloop]; [unfold attempts; lia|].
  destruct (primary_loop_bounds E self tool target params f _ _ _ _ _ _ _ _ Hloop)
    as (added & Htr & Hp & Hs & Ha & _).
  simpl in Htr. subst tr1. rewrite Z.sub_0_r in Hp, Hs.
  unfold execute_with_resilience, execute_with_resilience_fuel. rewrite Hloop.
  destruct e as [result|last].
  { exists result, w1, added. repeat split; lia. }
  assert (Hfail : exists result w' tr,
             Some (_create_failure_result tool target last, w1, added)
             = Some (result, w', tr)
             /\ (count is_primary tr <= Z.to_nat (max_retries self + 1))%nat
             /\ (count is_sleep tr <= Z.to_nat (max_retries self))%nat
             /\ (count is_alternative tr <= 3)%nat).
  { eexists _, _, _. split; [reflexivity|]. repeat split; lia. }
  destruct (enable_fallback self); [|destruct last; exact Hfail].
  destruct last as [ctx|]; [|exact Hfail].
  destruct (try_fallback_called E tool target params tool_executors ctx w1 added)
    as (called & Hcalled & _ & _ & Hlen & _).
  destruct (_try_fallback E tool target params tool_executors ctx w1 added)
    as [[result w'] tr] eqn:Hfb.
  simpl in Hcalled. subst tr.
  exists result, w', (added ++ map EvAlternative called).
  split; [reflexivity|].
  destruct (count_alternatives called) as (H1 & H2 & H3).
  rewrite !count_app, H1, H2, H3. repeat split; lia.
Qed.

Lemma annotated_reports_success (original_tool : string) (d : pydict)
    (alt : string) :
  reports_success (PDict (annotated original_tool d alt))
  = reports_success (PDict d).
Proof.
  unfold reports_success, dict_get_default.
  destruct (annotated_fields original_tool d alt) as (_ & _ & _ & H).
  rewrite H by discriminate. reflexivity.
Qed.

(** X16. [execute_with_resilience] never makes up a success.  The value it
    returns either reports success, and then it is what the primary
    executor returned on one of its invocations, or what the executor of a
    listed alternative returned, with the three annotations; or it is a
    failure result, which reports failure. *)
Theorem resilience_result_source {W} (E : Env W) (self : ResilientExecutor)
    (tool target : string) (params : pydict) (f : Executor W)
    (tool_executors : gmap string (Executor W)) (w : W) :
  exists result w' tr,
    execute_with_resilience E self tool target params f tool_executors w
    = Some (result, w', tr)
    /\ ((reports_success result = true
         /\ ((exists w0 w1, f target params w0 = (Returned result, w1))
             \/ (exists alt g d w0 w1,
                    In alt (get_alternatives tool)
                    /\ tool_executors !! alt = Some g
                    /\ g target params w0 = (Returned (PDict d), w1)
                    /\ reports_success (PDict d) = true
                    /\ result = PDict (annotated tool d alt))))
        \/ (reports_success result = false
            /\ exists last, result = _create_failure_result tool target last)).
Proof.
  destruct (primary_loop_total E self tool target params f (attempts self) 0
              None w []) as [[[e w1] tr1] Hloop]; [unfold attempts; lia|].
  destruct (primary_loop_bounds E self tool target params f _ _ _ _ _ _ _ _ Hloop)
    as (added & _ & _ & _ & _ & Hsrc).
  unfold execute_with_resilience, execute_with_resilience_fuel. rewrite Hloop.
  destruct e as [result|last].
  { destruct Hsrc as [Hok Hw]. exists result, w1, tr1.
    split; [reflexivity|]. left. auto. }
  assert (Hfail : forall last' (w' : W) (tr : list event),
             exists result w'' tr',
               Some (_create_failure_result tool target last', w', tr)
               = Some (result, w'', tr')
               /\ ((reports_success result = true
                    /\ ((exists w0 w1, f target params w0 = (Returned result, w1))
                        \/ (exists alt g d w0 w1,
                               In alt (get_alternatives tool)
                               /\ tool_executors !! alt = Some g
                               /\ g target params w0 = (Returned (PDict d), w1)
                               /\ reports_success (PDict d) = true
                               /\ result = PDict (annotated tool d alt))))
                   \/ (reports_success result = false
                       /\ exists last, result = _create_failure_result tool target last))).
  { intros last' w' tr. eexists _, _, _. split; [reflexivity|]. right.
    split; [destruct last'; reflexivity | eauto]. }
  destruct (enable_fallback self); [|destruct last; apply Hfail].
  destruct last as [ctx|]; [|apply Hfail].
  rewrite try_fallback_alternatives.
  destruct (try_alternatives_outcome E tool target params tool_executors ctx
              (get_alternatives tool) w1 tr1) as [called H].
  cbv zeta in H.
  destruct (try_alternatives E tool target params tool_executors ctx
              (get_alternatives tool) w1 tr1) as [[result w'] tr] eqn:Hfb.
  cbn [fst snd] in H. destruct H as (_ & [later Hl] & H).
  destruct H as [(before & alt & g & d & wb & -> & _ & Hg & Hr & Hs & ->)
                |(_ & _ & ->)].
  - exists (PDict (annotated tool d alt)), w', tr. split; [reflexivity|].
    left. split; [rewrite annotated_reports_success; exact Hs|].
    right. exists alt, g, d, wb, w'. repeat split; try assumption.
    apply filter_In_sub in Hl. rewrite List.Forall_forall in Hl.
    apply (Hl alt). apply in_or_app. right. left. reflexivity.
  - apply Hfail.
Qed.

Lemma check_result_available (which : string -> bool) (tool : string) :
  truthy (dict_get_default "available" PNone
            (ToolChecker.check_tool_or_error which tool))
  = ToolChecker.is_tool_available which tool.
Proof.
  unfold ToolChecker.check_tool_or_error.
  destruct (ToolChecker.is_tool_available which tool); reflexivity.
Qed.

Lemma has_alternatives_get (tool : string) :
  has_alternatives tool
  = match get_alternatives tool with [] => false | _ => true end.
Proof.
  unfold has_alternatives, get_alternatives.
  destruct (assoc tool ALTERNATIVES) as [[|a l]|]; reflexivity.
Qed.

(** X17. When [get_suggestions] has nothing to say: for the error types
    without a branch of their own, and for a tool reported as not found
    that is on the path after all and has no listed alternative.  For a
    tool that is not on the path, the first suggestion is the install
    command of [check_tool_or_error]: the one the table lists for the tool,
    or the hint to search for the package. *)
Theorem suggestions_empty_iff (which : string -> bool) (error_type : ErrorType)
    (tool : string) :
  (get_suggestions which error_type tool = []
   <-> error_type = UNKNOWN \/ error_type = INVALID_TARGET
       \/ (error_type = TOOL_NOT_FOUND
           /\ ToolChecker.is_tool_available which tool = true
           /\ has_alternatives tool = false))
  /\ (error_type = TOOL_NOT_FOUND ->
      ToolChecker.is_tool_available which tool = false ->
      exists rest,
        get_suggestions which error_type tool
        = ("Install " +:+ tool +:+ ": "
             +:+ match assoc tool ToolChecker.TOOL_INSTALL_COMMANDS with
                 | Some install_cmd => install_cmd
                 | None => "# Unknown tool. Try: apt search " +:+ tool
                 end) :: rest).
Proof.
  split.
  - destruct error_type; cbn [get_suggestions];
      try (split; [discriminate|];
           intros [H|[H|(H & _)]]; discriminate);
      try (split; [auto|reflexivity]).
    rewrite check_result_available, has_alternatives_get.
    destruct (ToolChecker.is_tool_available which tool);
      destruct (get_alternatives tool) as [|a l]; cbn [app];
      split; try discriminate; try reflexivity; auto;
      intros [H|[H|(_ & H1 & H2)]]; discriminate.
  - intros -> Hno. cbn [get_suggestions].
    rewrite check_result_available, Hno.
    unfold ToolChecker.check_tool_or_error. rewrite Hno.
    eexists. cbn [app]. reflexivity.
Qed.


End HandlerExtra.

(** ** The scheduler's batches *)

Module ScannerExtra.

Import Scanner ScannerProps.

(** [a] may stand before [b] in the order of submission. *)
Definition by_priority (a b : ScanTask) : Prop := priority b <= priority a.

Definition has_priority (p : Z) (t : ScanTask) : bool := priority t =? p.

Lemma insert_task_perm t l : Permutation (insert_task t l) (t :: l).
Proof.
  induction l as [|t' l IH]; simpl; [reflexivity|].
  destruct (priority t' <=? priority t); [reflexivity|].
  rewrite IH. apply perm_swap.
Qed.

Lemma sort_tasks_perm l : Permutation (sort_tasks l) l.
Proof.
  induction l as [|t l IH]; simpl; [reflexivity|].
  rewrite insert_task_perm, IH. reflexivity.
Qed.

Lemma insert_task_sorted t l :
  StronglySorted by_priority l -> StronglySorted by_priority (insert_task t l).
Proof.
  induction 1 as [|t' l Hs IH Hall]; simpl.
  - constructor; constructor.
  - destruct (priority t' <=? priority t) eqn:Hle.
    + apply Z.leb_le in Hle. constructor; [constructor; assumption|].
      constructor; [exact Hle|].
      eapply List.Forall_impl; [|exact Hall].
      intros b Hb. unfold by_priority in *. lia.
    + apply Z.leb_gt in Hle. constructor; [exact IH|].
      rewrite List.Forall_forall. intros b Hb.
      apply insert_task_In in Hb. destruct Hb as [->|Hb].
      * unfold by_priority. lia.
      * rewrite List.Forall_forall in Hall. apply Hall, Hb.
Qed.

Lemma sort_tasks_sorted l : StronglySorted by_priority (sort_tasks l).
Proof.
  induction l as [|t l IH]; simpl; [constructor|].
  apply insert_task_sorted, IH.
Qed.

Lemma insert_task_stable p t l :
  List.filter (has_priority p) (insert_task t l)
  = List.filter (has_priority p) (t :: l).
Proof.
  induction l as [|t' l IH]; [reflexivity|].
  cbn [insert_task]. destruct (priority t' <=? priority t) eqn:Hle; [reflexivity|].
  apply Z.leb_gt in Hle.
  cbn [List.filter] in *. rewrite IH. unfold has_priority.
  destruct (priority t' =? p) eqn:H1; [|reflexivity].
  apply Z.eqb_eq in H1.
  destruct (priority t =? p) eqn:H2; [|reflexivity].
  apply Z.eqb_eq in H2. lia.
Qed.

Lemma sort_tasks_stable p l :
  List.filter (has_priority p) (sort_tasks l) = List.filter (has_priority p) l.
Proof.
  induction l as [|t l IH]; [reflexivity|].
  cbn [sort_tasks]. rewrite insert_task_stable. cbn [List.filter].
  rewrite IH. reflexivity.
Qed.

(** X18. [execute_parallel] submits to the pool the tasks that have an
    executor, each once, in the order of descending priority, tasks of
    equal priority in the order in which the caller listed them. *)
Theorem tasks_submitted_by_priority (pool : Pool) (tasks : list ScanTask)
    (tool_executors : gmap string TimedExecutor) :
  let sorted_tasks := sort_tasks tasks in
  let futures := snd (submit_all pool 0 sorted_tasks tool_executors ∅) in
  map f_task futures = List.filter (has_executor tool_executors) sorted_tasks
  /\ Permutation sorted_tasks tasks
  /\ StronglySorted by_priority sorted_tasks
  /\ (forall p, List.filter (has_priority p) sorted_tasks
                = List.filter (has_priority p) tasks).
Proof.
  cbv zeta. split; [apply submit_all_futures|].
  split; [apply sort_tasks_perm|].
  split; [apply sort_tasks_sorted|].
  intros p. apply sort_tasks_stable.
Qed.

(** Every result of the map is filed under the tool name it carries. *)
Definition keyed (results : gmap string ScanResult) : Prop :=
  forall name r, results !! name = Some r -> r_tool_name r = name.

Lemma keyed_insert (results : gmap string ScanResult) name r :
  r_tool_name r = name -> keyed results -> keyed (<[name := r]> results).
Proof.
  intros Hr Hk name' r'. rewrite lookup_insert. case_decide as Hn.
  - intros Heq. injection Heq as <-. congruence.
  - apply Hk.
Qed.

Lemma submit_all_fst pool i task todo execs results g :
  execs !! tool_name task = Some g ->
  fst (submit_all pool i (task :: todo) execs results)
  = fst (submit_all pool (S i) todo execs results).
Proof.
  intros Hg. cbn [submit_all]. rewrite Hg.
  destruct (submit_all pool (S i) todo execs results). reflexivity.
Qed.

Lemma submit_all_dom pool i todo execs results name :
  is_Some (fst (submit_all pool i todo execs results) !! name)
  <-> is_Some (results !! name)
      \/ exists t, In t todo /\ execs !! tool_name t = None /\ tool_name t = name.
Proof.
  revert i results. induction todo as [|task todo IH]; intros i results.
  - simpl. split; [auto|]. intros [H|(t & [] & _)]. exact H.
  - destruct (execs !! tool_name task) as [g|] eqn:Hg.
    + rewrite (submit_all_fst _ _ _ _ _ _ g Hg), IH. split.
      * intros [H|(t & Ht & Hn & He)]; [auto|]. right. exists t. simpl. auto.
      * intros [H|(t & [<-|Ht] & Hn & He)]; [auto|congruence|].
        right. exists t. auto.
    + cbn [submit_all]. rewrite Hg, IH, lookup_insert_is_Some'. split.
      * intros [[H|H]|(t & Ht & Hn & He)]; [|auto|].
        -- right. exists task. simpl. auto.
        -- right. exists t. simpl. auto.
      * intros [H|(t & [<-|Ht] & Hn & He)]; [auto|auto|].
        right. exists t. auto.
Qed.

Lemma submit_all_keyed pool i todo execs results :
  keyed results -> keyed (fst (submit_all pool i todo execs results)).
Proof.
  revert i results. induction todo as [|task todo IH]; intros i results Hk;
    [exact Hk|].
  destruct (execs !! tool_name task) as [g|] eqn:Hg.
  - rewrite (submit_all_fst _ _ _ _ _ _ g Hg). apply IH, Hk.
  - cbn [submit_all]. rewrite Hg. apply IH, keyed_insert; [reflexivity|exact Hk].
Qed.

(** Without an executor for [name], the map after the submissions holds for
    [name] what it held before, or the result made for a task of that
    name. *)
Lemma submit_all_missing pool i todo execs results name r :
  execs !! name = None ->
  fst (submit_all pool i todo execs results) !! name = Some r ->
  results !! name = Some r
  \/ exists t, In t todo /\ tool_name t = name /\ r = no_executor_result t.
Proof.
  intros Hname. revert i results.
  induction todo as [|task todo IH]; intros i results; [simpl; auto|].
  destruct (execs !! tool_name task) as [g|] eqn:Hg.
  - rewrite (submit_all_fst _ _ _ _ _ _ g Hg). intros H.
    destruct (IH _ _ H) as [H'|(t & Ht & Hn & Hr)]; [auto|].
    right. exists t. simpl. auto.
  - cbn [submit_all]. rewrite Hg. intros H.
    destruct (IH _ _ H) as [H'|(t & Ht & Hn & Hr)].
    + rewrite lookup_insert in H'. case_decide as Hd; [|auto].
      injection H' as <-. right. exists task. simpl. auto.
    + right. exists t. simpl. auto.
Qed.

Lemma collect_one_other {W} (cb : option (Callback W)) total st future name :
  tool_name (f_task future) <> name ->
  results (collect_one cb total st future) !! name = results st !! name.
Proof.
  intros Hne. unfold collect_one.
  destruct (future_result _ _ _); [destruct cb as [g|]|..]; cbn [results];
    try (destruct (g _ _ _ _) as [[u|msg] w1]; cbn [results]);
    rewrite ?lookup_insert_ne by exact Hne; reflexivity.
Qed.

Lemma collect_one_same {W} (cb : option (Callback W)) total st future :
  is_Some (results (collect_one cb total st future) !! tool_name (f_task future)).
Proof.
  unfold collect_one.
  destruct (future_result _ _ _); [destruct cb as [g|]|..]; cbn [results];
    try (destruct (g _ _ _ _) as [[u|msg] w1]; cbn [results]);
    rewrite lookup_insert_eq; eauto.
Qed.

Lemma collect_one_keyed {W} pool (cb : option (Callback W)) total st future :
  submitted pool future -> keyed (results st) ->
  keyed (results (collect_one cb total st future)).
Proof.
  intros (i & task & g & ->) Hk. unfold collect_one.
  rewrite future_result_of_completed. unfold stored, submit. cbn [f_stored f_task].
  assert (Hn : r_tool_name (execute_single_task task g) = tool_name task).
  { unfold execute_single_task. destruct (g _ _) as [[res|msg] t]; reflexivity. }
  destruct cb as [cb|]; cbn [results].
  - destruct (cb _ _ _ _) as [[u|msg] w1]; cbn [results];
      repeat apply keyed_insert; auto.
  - apply keyed_insert; auto.
Qed.

Lemma collect_dom {W} (cb : option (Callback W)) total done st name :
  is_Some (results (fold_left (collect_one cb total) done st) !! name)
  <-> is_Some (results st !! name)
      \/ exists future, In future done /\ tool_name (f_task future) = name.
Proof.
  revert st. induction done as [|future done IH]; intros st; simpl.
  - split; [auto|]. intros [H|(f & [] & _)]. exact H.
  - rewrite IH. split.
    + intros [H|(f & Hf & Hn)]; [|right; exists f; auto].
      destruct (decide (tool_name (f_task future) = name)) as [He|Hne].
      * right. exists future. auto.
      * rewrite collect_one_other in H by exact Hne. auto.
    + intros [H|(f & [<-|Hf] & Hn)].
      * destruct (decide (tool_name (f_task future) = name)) as [<-|Hne].
        -- left. apply collect_one_same.
        -- left. rewrite collect_one_other by exact Hne. exact H.
      * left. subst name. apply collect_one_same.
      * right. exists f. auto.
Qed.

Lemma collect_keyed {W} pool (cb : option (Callback W)) total done st :
  Forall (submitted pool) done -> keyed (results st) ->
  keyed (results (fold_left (collect_one cb total) done st)).
Proof.
  intros Hall. revert st. induction Hall as [|future done Hf Hall IH];
    intros st Hk; [exact Hk|].
  simpl. apply IH. eapply collect_one_keyed; eauto.
Qed.

Lemma collect_untouched {W} (cb : option (Callback W)) total done st name :
  (forall future, In future done -> tool_name (f_task future) <> name) ->
  results (fold_left (collect_one cb total) done st) !! name = results st !! name.
Proof.
  revert st. induction done as [|future done IH]; intros st Hne; [reflexivity|].
  simpl. rewrite IH by (intros f Hf; apply Hne; right; exact Hf).
  apply collect_one_other, Hne. left. reflexivity.
Qed.

(** The pool hands every future to the collecting loop, each once. *)
Definition hands_over_all (pool : Pool) : Prop :=
  forall futures, Permutation (as_completed pool futures) futures.

(** What [execute_parallel] does for a non-empty batch, with the futures
    named. *)
Lemma execute_parallel_unfold {W} pool t0 tasks execs (cb : option (Callback W)) w :
  tasks <> [] ->
  execute_parallel pool t0 tasks execs cb w
  = fold_left (collect_one cb (Z.of_nat (length (sort_tasks tasks))))
      (as_completed pool (snd (submit_all pool 0 (sort_tasks tasks) execs ∅)))
      {| results := fst (submit_all pool 0 (sort_tasks tasks) execs ∅);
         completed_tasks := 0; caller := w; calls := []; clock := t0 |}.
Proof.
  intros Hne. unfold execute_parallel. destruct tasks as [|t l]; [congruence|].
  destruct (submit_all pool 0 (sort_tasks (t :: l)) execs ∅). reflexivity.
Qed.

Lemma future_names pool tasks execs future :
  hands_over_all pool ->
  In future (as_completed pool (snd (submit_all pool 0 (sort_tasks tasks) execs ∅))) ->
  In (f_task future) tasks
  /\ is_Some (execs !! tool_name (f_task future)).
Proof.
  intros Hp Hin. apply (Permutation_in _ (Hp _)) in Hin.
  apply (in_map f_task) in Hin.
  rewrite (proj2 (submit_all_futures _ _ _ _ _)) in Hin.
  apply filter_In in Hin as [Hin He].
  apply (proj1 (sort_tasks_In _ _)) in Hin.
  split; [exact Hin|]. unfold has_executor in He.
  destruct (execs !! tool_name (f_task future)); [eauto|discriminate].
Qed.

Lemma execute_parallel_dom {W} pool t0 tasks execs (cb : option (Callback W)) w name :
  hands_over_all pool ->
  is_Some (results (execute_parallel pool t0 tasks execs cb w) !! name)
  <-> In name (map tool_name tasks).
Proof.
  intros Hp. destruct tasks as [|t0' l] eqn:Htasks.
  { simpl. rewrite lookup_empty. split; [intros [x Hx]; discriminate|intros []]. }
  rewrite <- Htasks. rewrite execute_parallel_unfold by (subst; discriminate).
  rewrite collect_dom. cbn [results]. rewrite submit_all_dom, lookup_empty.
  rewrite in_map_iff. split.
  - intros [[[x Hx]|(t & Ht & _ & Hn)]|(future & Hf & Hn)].
    + discriminate.
    + exists t. split; [exact Hn|]. apply sort_tasks_In, Ht.
    + exists (f_task future). split; [exact Hn|].
      apply (future_names pool tasks execs future Hp Hf).
  - intros (t & Hn & Ht).
    destruct (execs !! tool_name t) as [g|] eqn:Hg.
    + right.
      assert (Hin : In t (map f_task
                 (as_completed pool (snd (submit_all pool 0 (sort_tasks tasks) execs ∅))))).
      { apply (Permutation_in _ (Permutation_sym (Permutation_map f_task (Hp _)))).
        rewrite (proj2 (submit_all_futures _ _ _ _ _)).
        apply filter_In. split; [apply sort_tasks_In, Ht|].
        unfold has_executor. rewrite Hg. reflexivity. }
      apply in_map_iff in Hin as (future & Hft & Hf).
      exists future. split; [exact Hf|]. congruence.
    + left. right. exists t. split; [apply sort_tasks_In, Ht|]. auto.
Qed.

Lemma execute_parallel_keyed {W} pool t0 tasks execs (cb : option (Callback W)) w :
  hands_over_all pool ->
  keyed (results (execute_parallel pool t0 tasks execs cb w)).
Proof.
  intros Hp. destruct tasks as [|t0' l] eqn:Htasks.
  { intros name r. simpl. rewrite lookup_empty. discriminate. }
  rewrite <- Htasks. rewrite execute_parallel_unfold by (subst; discriminate).
  apply (collect_keyed pool).
  - rewrite List.Forall_forall. intros future Hf.
    apply (Permutation_in _ (Hp _)) in Hf.
    pose proof (proj1 (submit_all_futures pool 0 (sort_tasks tasks) execs ∅)) as Hs.
    rewrite List.Forall_forall in Hs. apply Hs, Hf.
  - cbn [results]. apply submit_all_keyed. intros name r.
    rewrite lookup_empty. discriminate.
Qed.

(** X19. The result map of [execute_parallel] has an entry for a tool name
    exactly when a task of the batch carries that name, whatever the
    executors and the callback do, and every entry is filed under the tool
    name its result carries: tasks that share a tool name share one entry. *)
Theorem one_result_per_tool_name {W} (pool : Pool) (t0 : Z)
    (tasks : list ScanTask) (tool_executors : gmap string TimedExecutor)
    (progress_callback : option (Callback W)) (w : W) :
  hands_over_all pool ->
  let results :=
    results (execute_parallel pool t0 tasks tool_executors progress_callback w) in
  (forall name, is_Some (results !! name) <-> In name (map tool_name tasks))
  /\ (forall name r, results !! name = Some r -> r_tool_name r = name).
Proof.
  intros Hp. cbv zeta. split.
  - intros name. apply execute_parallel_dom, Hp.
  - apply execute_parallel_keyed, Hp.
Qed.

Lemma one_result_per_tool_name_witness :
  let results :=
    results (execute_parallel reversing_pool 0
               [nmap_task; nikto_task; httpx_task] two_executors
               (Some quiet_callback) tt) in
  (forall name, is_Some (results !! name)
                <-> In name (map tool_name [nmap_task; nikto_task; httpx_task]))
  /\ (forall name r, results !! name = Some r -> r_tool_name r = name).
Proof.
  apply (one_result_per_tool_name reversing_pool 0
           [nmap_task; nikto_task; httpx_task] two_executors
           (Some quiet_callback) tt).
  exact reversing_pool_permutes.
Defined.

(** The callback, if there is one, returns normally. *)
Definition returns_normally {W} (progress_callback : option (Callback W)) : Prop :=
  forall n t name w,
    match progress_callback with
    | Some g => exists w', g n t name w = (Returned tt, w')
    | None => True
    end.

Lemma same_name_same_task (tasks : list ScanTask) (a b : ScanTask) :
  NoDup (map tool_name tasks) -> In a tasks -> In b tasks ->
  tool_name a = tool_name b -> a = b.
Proof.
  induction tasks as [|t l IH]; simpl; [intros _ []|].
  rewrite NoDup_cons, list_elem_of_In, in_map_iff.
  intros [Hnot Hnd] [<-|Ha] [<-|Hb] Hn; auto.
  - exfalso. apply Hnot. exists b. auto.
  - exfalso. apply Hnot. exists a. auto.
Qed.

(** X20. When the tasks of a batch have pairwise distinct tool names and the
    callback returns normally, the result filed for a task is the one
    [execute_single_task] makes from the task's own executor, or the
    no-executor result for a task without one, in whatever order the pool
    hands the futures over. *)
Theorem result_of_each_task {W} (pool : Pool) (t0 : Z)
    (tasks : list ScanTask) (tool_executors : gmap string TimedExecutor)
    (progress_callback : option (Callback W)) (w : W) (task : ScanTask) :
  hands_over_all pool ->
  returns_normally progress_callback ->
  NoDup (map tool_name tasks) ->
  In task tasks ->
  results (execute_parallel pool t0 tasks tool_executors progress_callback w)
    !! tool_name task
  = Some match tool_executors !! tool_name task with
         | Some executor_func => execute_single_task task executor_func
         | None => no_executor_result task
         end.
Proof.
  intros Hp Hcb Hnd Hin.
  destruct (proj2 (execute_parallel_dom pool t0 tasks tool_executors
                     progress_callback w (tool_name task) Hp)) as [r Hr].
  { apply in_map, Hin. }
  rewrite Hr. f_equal.
  pose proof (execute_parallel_keyed pool t0 tasks tool_executors
                progress_callback w Hp _ _ Hr) as Hkey.
  destruct (results_come_from_executors pool t0 tasks tool_executors
              progress_callback w _ _ Hp Hcb Hr) as (task' & Hin' & Horigin).
  assert (Hname : tool_name task' = tool_name task).
  { rewrite <- Hkey. destruct (tool_executors !! tool_name task') as [g|];
      subst r; [|reflexivity].
    unfold execute_single_task. destruct (g _ _) as [[res|msg] t]; reflexivity. }
  rewrite (same_name_same_task tasks task' task Hnd Hin' Hin Hname) in Horigin.
  destruct (tool_executors !! tool_name task); exact Horigin.
Qed.

Lemma three_names_differ :
  NoDup (map tool_name [nmap_task; nikto_task; httpx_task]).
Proof.
  repeat (apply NoDup_cons; split;
          [rewrite list_elem_of_In; simpl; intuition discriminate|]).
  apply NoDup_nil. exact I.
Qed.

Lemma result_of_each_task_witness :
  results (execute_parallel reversing_pool 0
             [nmap_task; nikto_task; httpx_task] two_executors
             (Some quiet_callback) tt) !! tool_name nmap_task
  = Some match two_executors !! tool_name nmap_task with
         | Some executor_func => execute_single_task nmap_task executor_func
         | None => no_executor_result nmap_task
         end.
Proof.
  apply (result_of_each_task reversing_pool 0
           [nmap_task; nikto_task; httpx_task] two_executors
           (Some quiet_callback) tt nmap_task).
  - exact reversing_pool_permutes.
  - intros n t name w. exists w. reflexivity.
  - exact three_names_differ.
  - simpl. left. reflexivity.
Defined.

(** *** execute_with_retry *)

Lemma retry_loop_bounds {W} fuel rounds max_retries (cb : option (Callback W))
    remaining retry_count (st : smart W) :
  (Z.to_nat (max_retries - retry_count + 1) <= fuel)%nat ->
  exists st',
    retry_loop fuel rounds max_retries cb remaining retry_count st = Some st'
    /\ (batches st <= batches st'
        <= batches st + Z.to_nat (max_retries - retry_count + 1))%nat
    /\ (remaining = [] \/ max_retries < retry_count -> st' = st).
Proof.
  revert remaining retry_count st.
  induction fuel as [|fuel IH]; intros remaining retry_count st Hfuel.
  - destruct remaining as [|t l]; cbn [retry_loop].
    { exists st. split; [reflexivity|]. split; [lia|auto]. }
    destruct (retry_count <=? max_retries) eqn:Hle.
    + apply Z.leb_le in Hle. lia.
    + exists st. split; [reflexivity|]. split; [lia|auto].
  - destruct remaining as [|t l]; cbn [retry_loop].
    { exists st. split; [reflexivity|]. split; [lia|auto]. }
    destruct (retry_count <=? max_retries) eqn:Hle;
      [|exists st; split; [reflexivity|]; split; [lia|auto]].
    apply Z.leb_le in Hle.
    assert (Hno : t :: l = [] \/ max_retries < retry_count -> False)
      by (intros [H|H]; [discriminate|lia]).
    destruct (failed_tasks (t :: l) _) as [|t' l'] eqn:Hfailed.
    { eexists. split; [reflexivity|]. cbn [batches].
      split; [lia|]. intros H. destruct (Hno H). }
    destruct (max_retries <=? retry_count) eqn:Hge.
    { eexists. split; [reflexivity|]. cbn [batches].
      split; [lia|]. intros H. destruct (Hno H). }
    apply Z.leb_gt in Hge.
    match goal with
    | |- exists st', retry_loop _ _ _ _ ?rem ?rc ?st2 = _ /\ _ =>
        destruct (IH rem rc st2) as (st' & Hrun & Hb & _); [lia|]
    end.
    exists st'. split; [exact Hrun|]. cbn [batches] in Hb.
    split; [lia|]. intros H. destruct (Hno H).
Qed.

(** X21. [execute_with_retry] comes to an end after at most
    [max_retries + 1] batches; without tasks, or with a negative retry
    budget, it runs no batch at all and returns the empty map. *)
Theorem retry_is_bounded {W} (rounds : nat -> Round) (tasks : list ScanTask)
    (max_retries : Z) (progress_callback : option (Callback W)) (t0 : Z)
    (w : W) :
  exists st,
    execute_with_retry rounds tasks max_retries progress_callback t0 w = Some st
    /\ (batches st <= Z.to_nat (max_retries + 1))%nat
    /\ (tasks = [] \/ max_retries < 0 ->
        batches st = 0%nat /\ all_results st = ∅ /\ s_calls st = []
        /\ s_caller st = w).
Proof.
  unfold execute_with_retry.
  match goal with
  | |- exists st, retry_loop ?fuel _ _ _ _ _ ?st0 = _ /\ _ =>
      destruct (retry_loop_bounds fuel rounds max_retries progress_callback
                  tasks 0 st0) as (st & Hrun & Hb & Hnone);
        [rewrite Z.sub_0_r; lia|]
  end.
  exists st. split; [exact Hrun|]. rewrite Z.sub_0_r in Hb. cbn [batches] in Hb.
  split; [lia|]. intros H. rewrite (Hnone H). auto.
Qed.

Lemma retry_loop_unfold {W} fuel rounds max_retries (cb : option (Callback W))
    remaining retry_count (st : smart W) :
  remaining <> [] -> retry_count <= max_retries ->
  retry_loop (S fuel) rounds max_retries cb remaining retry_count st
  = let batch := run_batch rounds (batches st) remaining cb st in
    let st1 :=
      {| all_results := update_results (all_results st) (results batch);
         s_caller := caller batch;
         s_calls := s_calls st ++ calls batch;
         s_clock := clock batch;
         batches := S (batches st) |} in
    match failed_tasks remaining (results batch) with
    | [] => Some st1
    | _ =>
        if max_retries <=? retry_count then Some st1
        else
          retry_loop fuel rounds max_retries cb
            (failed_tasks remaining (results batch)) (retry_count + 1)
            {| all_results := all_results st1; s_caller := s_caller st1;
               s_calls := s_calls st1; s_clock := s_clock st1 + 2;
               batches := batches st1 |}
    end.
Proof.
  intros Hne Hle. destruct remaining as [|t l]; [congruence|].
  cbn [retry_loop]. rewrite (proj2 (Z.leb_le _ _) Hle). reflexivity.
Qed.

Lemma failed_tasks_In remaining results task :
  In task (failed_tasks remaining results)
  <-> In task remaining
      /\ exists r, results !! tool_name task = Some r
           /\ truthy (success r) = false /\ truthy (timed_out r) = false.
Proof.
  unfold failed_tasks. rewrite filter_In. split.
  - intros [Hin H]. split; [exact Hin|].
    destruct (results !! tool_name task) as [r|]; [|discriminate].
    exists r. split; [reflexivity|].
    destruct (truthy (success r)), (truthy (timed_out r)); auto; discriminate.
  - intros [Hin (r & -> & -> & ->)]. auto.
Qed.

Lemma batch_missing {W} pool t0 tasks execs (cb : option (Callback W)) w task :
  hands_over_all pool ->
  execs !! tool_name task = None ->
  In task tasks ->
  exists t, In t tasks /\ tool_name t = tool_name task
    /\ results (execute_parallel pool t0 tasks execs cb w) !! tool_name task
       = Some (no_executor_result t).
Proof.
  intros Hp Hnone Hin.
  rewrite execute_parallel_unfold by (intros ->; destruct Hin).
  rewrite collect_untouched.
  2:{ intros future Hf Hn.
      destruct (future_names pool tasks execs future Hp Hf) as [_ [g Hg]].
      congruence. }
  cbn [results].
  destruct (proj2 (submit_all_dom pool 0 (sort_tasks tasks) execs ∅
                     (tool_name task))) as [r Hr].
  { right. exists task. split; [apply sort_tasks_In, Hin|]. auto. }
  destruct (submit_all_missing _ _ _ _ _ _ _ Hnone Hr)
    as [H|(t & Ht & Hn & ->)].
  { rewrite lookup_empty in H. discriminate. }
  exists t. split; [apply (proj1 (sort_tasks_In _ _)), Ht|]. auto.
Qed.

Lemma retry_loop_missing {W} fuel rounds max_retries (cb : option (Callback W))
    remaining retry_count (st : smart W) task :
  (forall k, hands_over_all (round_pool (rounds k))) ->
  (forall k, round_executors (rounds k) !! tool_name task = None) ->
  In task remaining ->
  retry_count <= max_retries ->
  (Z.to_nat (max_retries - retry_count + 1) <= fuel)%nat ->
  exists st',
    retry_loop fuel rounds max_retries cb remaining retry_count st = Some st'
    /\ batches st'
       = (batches st + Z.to_nat (max_retries - retry_count + 1))%nat
    /\ exists t, tool_name t = tool_name task
         /\ all_results st' !! tool_name task = Some (no_executor_result t).
Proof.
  intros Hp Hnone. revert remaining retry_count st.
  induction fuel as [|fuel IH]; intros remaining retry_count st Hin Hle Hfuel;
    [lia|].
  rewrite retry_loop_unfold by (try exact Hle; intros ->; destruct Hin).
  cbv zeta.
  destruct (batch_missing (round_pool (rounds (batches st))) (s_clock st)
              remaining (round_executors (rounds (batches st))) cb
              (s_caller st) task (Hp _) (Hnone _) Hin)
    as (t & Ht & Hn & Hres).
  fold (run_batch rounds (batches st) remaining cb st) in Hres.
  assert (Hfailed : In task (failed_tasks remaining
                      (results (run_batch rounds (batches st) remaining cb st)))).
  { apply failed_tasks_In. split; [exact Hin|]. eexists. split; [exact Hres|].
    split; reflexivity. }
  destruct (failed_tasks remaining _) as [|t' l'] eqn:Hf; [destruct Hfailed|].
  destruct (max_retries <=? retry_count) eqn:Hge.
  - apply Z.leb_le in Hge. eexists. split; [reflexivity|]. cbn [batches all_results].
    split; [lia|]. exists t. split; [exact Hn|].
    unfold update_results. apply lookup_union_Some_l. exact Hres.
  - apply Z.leb_gt in Hge.
    match goal with
    | |- exists st', retry_loop _ _ _ _ ?rem ?rc ?st2 = _ /\ _ =>
        destruct (IH rem rc st2 Hfailed) as (st' & Hrun & Hb & Hlast); [lia|lia|]
    end.
    exists st'. split; [exact Hrun|]. cbn [batches] in Hb.
    split; [lia|]. exact Hlast.
Qed.

(** X22. A task whose tool has no executor counts as failed, so
    [execute_with_retry] runs it again in every retry: with such a task in
    the list and a budget of [max_retries >= 0], exactly [max_retries + 1]
    batches are run, and the result for the tool is still the no-executor
    result. *)
Theorem missing_executor_is_retried {W} (rounds : nat -> Round)
    (tasks : list ScanTask) (max_retries : Z)
    (progress_callback : option (Callback W)) (t0 : Z) (w : W)
    (task : ScanTask) :
  (forall k, hands_over_all (round_pool (rounds k))) ->
  (forall k, round_executors (rounds k) !! tool_name task = None) ->
  In task tasks ->
  0 <= max_retries ->
  exists st,
    execute_with_retry rounds tasks max_retries progress_callback t0 w = Some st
    /\ batches st = Z.to_nat (max_retries + 1)
    /\ exists t, tool_name t = tool_name task
         /\ all_results st !! tool_name task = Some (no_executor_result t).
Proof.
  intros Hp Hnone Hin Hmax. unfold execute_with_retry.
  match goal with
  | |- exists st, retry_loop ?fuel _ _ _ _ _ ?st0 = _ /\ _ =>
      destruct (retry_loop_missing fuel rounds max_retries progress_callback
                  tasks 0 st0 task Hp Hnone Hin Hmax)
        as (st & Hrun & Hb & Hlast); [rewrite Z.sub_0_r; lia|]
  end.
  exists st. split; [exact Hrun|]. rewrite Z.sub_0_r in Hb. cbn [batches] in Hb.
  split; [lia|exact Hlast].
Qed.

Definition same_each_round : nat -> Round :=
  fun _ => {| round_executors := two_executors; round_pool := reversing_pool |}.

Lemma missing_executor_is_retried_witness :
  exists st,
    execute_with_retry same_each_round [nmap_task; nikto_task; httpx_task] 2
      (Some quiet_callback) 0 tt = Some st
    /\ batches st = Z.to_nat (2 + 1)
    /\ exists t, tool_name t = tool_name nikto_task
         /\ all_results st !! tool_name nikto_task = Some (no_executor_result t).
Proof.
  apply (missing_executor_is_retried same_each_round
           [nmap_task; nikto_task; httpx_task] 2 (Some quiet_callback) 0 tt
           nikto_task).
  - intros k. exact reversing_pool_permutes.
  - intros k. reflexivity.
  - simpl. right. left. reflexivity.
  - lia.
Defined.

Lemma retry_loop_keeps {W} fuel rounds max_retries (cb : option (Callback W))
    remaining retry_count (st st' : smart W) name r :
  (forall k, hands_over_all (round_pool (rounds k))) ->
  all_results st !! name = Some r ->
  ~ In name (map tool_name remaining) ->
  retry_loop fuel rounds max_retries cb remaining retry_count st = Some st' ->
  all_results st' !! name = Some r.
Proof.
  intros Hp. revert remaining retry_count st.
  induction fuel as [|fuel IH]; intros remaining retry_count st Hr Hnot;
    (destruct remaining as [|t0' l] eqn:Hrem;
     [cbn [retry_loop]; intros H; injection H as <-; exact Hr|]);
    (destruct (retry_count <=? max_retries) eqn:Hle;
     [|cbn [retry_loop]; rewrite Hle; intros H; injection H as <-; exact Hr]).
  { cbn [retry_loop]. rewrite Hle. discriminate. }
  rewrite <- Hrem in Hnot |- *.
  rewrite retry_loop_unfold
    by (try (apply Z.leb_le; exact Hle); rewrite Hrem; discriminate).
  cbv zeta.
  set (batch := run_batch rounds (batches st) remaining cb st).
  assert (Hmiss : results batch !! name = None).
  { apply eq_None_not_Some. intros His. apply Hnot.
    apply (execute_parallel_dom _ _ _ _ _ _ _ (Hp _)) in His. exact His. }
  assert (Hupd : update_results (all_results st) (results batch) !! name = Some r).
  { unfold update_results. rewrite lookup_union_r by exact Hmiss. exact Hr. }
  assert (Hsub : ~ In name (map tool_name (failed_tasks remaining (results batch)))).
  { intros Hin. apply Hnot. apply in_map_iff in Hin as (t & Hn & Ht).
    apply failed_tasks_In in Ht as [Ht _]. apply in_map_iff. eauto. }
  destruct (failed_tasks remaining (results batch)) as [|t' l'] eqn:Hf.
  { intros H; injection H as <-. exact Hupd. }
  destruct (max_retries <=? retry_count).
  { intros H; injection H as <-. exact Hupd. }
  apply IH; [exact Hupd|exact Hsub].
Qed.

(** X23. In [execute_with_retry] a success or a timeout of the first batch
    is final: the result stays in the map that is returned, whatever the
    later batches bring. *)
Theorem success_is_final {W} (rounds : nat -> Round) (tasks : list ScanTask)
    (max_retries : Z) (progress_callback : option (Callback W)) (t0 : Z)
    (w : W) (name : string) (r : ScanResult) :
  (forall k, hands_over_all (round_pool (rounds k))) ->
  0 <= max_retries ->
  results (execute_parallel (round_pool (rounds 0%nat)) t0 tasks
             (round_executors (rounds 0%nat)) progress_callback w) !! name
  = Some r ->
  truthy (success r) = true \/ truthy (timed_out r) = true ->
  exists st,
    execute_with_retry rounds tasks max_retries progress_callback t0 w = Some st
    /\ all_results st !! name = Some r.
Proof.
  intros Hp Hmax Hfirst Hfinal.
  assert (Hex : exists st,
             execute_with_retry rounds tasks max_retries progress_callback t0 w
             = Some st).
  { unfold execute_with_retry.
    match goal with
    | |- exists st, retry_loop ?fuel _ _ _ _ _ ?st0 = _ =>
        destruct (retry_loop_bounds fuel rounds max_retries progress_callback
                    tasks 0 st0) as (st & Hrun & _);
          [rewrite Z.sub_0_r; lia|]
    end.
    exists st. exact Hrun. }
  destruct Hex as (st & Hrun).
  exists st. split; [exact Hrun|].
  unfold execute_with_retry in Hrun.
  destruct (Z.to_nat (max_retries + 1)) as [|fuel] eqn:Hfuel; [lia|].
  destruct tasks as [|t0' l] eqn:Htasks.
  { simpl in Hfirst. rewrite lookup_empty in Hfirst. discriminate. }
  rewrite <- Htasks in Hfirst, Hrun.
  rewrite retry_loop_unfold in Hrun
    by (try exact Hmax; rewrite Htasks; discriminate).
  cbv zeta in Hrun. unfold run_batch in Hrun. cbn [batches s_clock s_caller s_calls all_results] in Hrun.
  set (batch := execute_parallel (round_pool (rounds 0%nat)) t0 tasks
                  (round_executors (rounds 0%nat)) progress_callback w) in *.
  assert (Hupd : update_results ∅ (results batch) !! name = Some r).
  { unfold update_results. apply lookup_union_Some_l. exact Hfirst. }
  assert (Hsub : ~ In name (map tool_name (failed_tasks tasks (results batch)))).
  { intros Hin. apply in_map_iff in Hin as (t & Hn & Ht).
    apply failed_tasks_In in Ht as [_ (r' & Hr' & Hs & Ht)].
    rewrite Hn, Hfirst in Hr'. injection Hr' as <-.
    destruct Hfinal; congruence. }
  destruct (failed_tasks tasks (results batch)) as [|t' l'] eqn:Hf.
  { injection Hrun as <-. exact Hupd. }
  destruct (max_retries <=? 0).
  { injection Hrun as <-. exact Hupd. }
  eapply retry_loop_keeps; [exact Hp| |exact Hsub|exact Hrun]. exact Hupd.
Qed.

Definition httpx_result : ScanResult :=
  {| r_tool_name := "httpx"; r_target := "10.0.0.1"; success := PBool true;
     result := PDict [("success", PBool true); ("stdout", PStr "200 OK")];
     execution_time := 100; error := None; timed_out := PBool false |}.

Lemma first_batch_httpx :
  results (execute_parallel (round_pool (same_each_round 0%nat)) 0
             [nmap_task; nikto_task; httpx_task]
             (round_executors (same_each_round 0%nat))
             (Some quiet_callback) tt) !! "httpx"
  = Some httpx_result.
Proof. vm_compute. reflexivity. Qed.

Lemma success_is_final_witness :
  exists st,
    execute_with_retry same_each_round [nmap_task; nikto_task; httpx_task] 2
      (Some quiet_callback) 0 tt = Some st
    /\ all_results st !! "httpx" = Some httpx_result.
Proof.
  apply (success_is_final same_each_round [nmap_task; nikto_task; httpx_task] 2
           (Some quiet_callback) 0 tt "httpx" httpx_result).
  - intros k. exact reversing_pool_permutes.
  - lia.
  - exact first_batch_httpx.
  - left. reflexivity.
Defined.

(** *** execute_with_dependencies *)

Lemma update_results_keyed all_results results :
  keyed all_results -> keyed results -> keyed (update_results all_results results).
Proof.
  intros Ha Hr name r. unfold update_results.
  rewrite lookup_union_Some_raw. intros [H|[_ H]]; [apply Hr|apply Ha]; exact H.
Qed.

Lemma update_results_dom all_results results name :
  is_Some (update_results all_results results !! name)
  <-> is_Some (all_results !! name) \/ is_Some (results !! name).
Proof.
  unfold update_results. rewrite lookup_union_is_Some. tauto.
Qed.

Lemma dependencies_loop_results {W} rounds (cb : option (Callback W))
    task_groups (st : smart W) :
  (forall k, hands_over_all (round_pool (rounds k))) ->
  let st' := dependencies_loop rounds cb task_groups st in
  batches st' = (batches st + length task_groups)%nat
  /\ (forall name,
        is_Some (all_results st' !! name)
        <-> is_Some (all_results st !! name)
            \/ exists task_group, In task_group task_groups
                 /\ In name (map tool_name task_group))
  /\ (keyed (all_results st) -> keyed (all_results st')).
Proof.
  intros Hp. revert st.
  induction task_groups as [|g rest IH]; intros st; cbn [dependencies_loop].
  - cbv zeta. split; [simpl; lia|]. split; [|auto].
    intros name. split; [auto|]. intros [H|(tg & [] & _)]. exact H.
  - cbv zeta in *.
    match goal with
    | |- context [dependencies_loop _ _ rest ?st1] =>
        destruct (IH st1) as (Hb & Hdom & Hkey)
    end.
    cbn [batches all_results] in Hb, Hdom, Hkey.
    split; [rewrite Hb; simpl; lia|]. split.
    + intros name. rewrite Hdom, update_results_dom.
      unfold run_batch. rewrite (execute_parallel_dom _ _ _ _ _ _ _ (Hp _)).
      split.
      * intros [[H|H]|(tg & Htg & Hn)]; [auto| |].
        -- right. exists g. simpl. auto.
        -- right. exists tg. simpl. auto.
      * intros [H|(tg & [<-|Htg] & Hn)]; [auto|auto|].
        right. exists tg. auto.
    + intros Hk. apply Hkey, update_results_keyed; [exact Hk|].
      apply execute_parallel_keyed, Hp.
Qed.

(** X24. [execute_with_dependencies] runs one batch for every group, empty
    groups included, and returns a result for exactly the tool names that
    occur in some group, each filed under the name its result carries. *)
Theorem dependencies_cover_all_groups {W} (rounds : nat -> Round)
    (task_groups : list (list ScanTask))
    (progress_callback : option (Callback W)) (t0 : Z) (w : W) :
  (forall k, hands_over_all (round_pool (rounds k))) ->
  let st := execute_with_dependencies rounds task_groups progress_callback t0 w in
  batches st = length task_groups
  /\ (forall name,
        is_Some (all_results st !! name)
        <-> exists task_group, In task_group task_groups
              /\ In name (map tool_name task_group))
  /\ (forall name r, all_results st !! name = Some r -> r_tool_name r = name).
Proof.
  intros Hp. cbv zeta. unfold execute_with_dependencies.
  match goal with
  | |- context [dependencies_loop _ _ _ ?st0] =>
      destruct (dependencies_loop_results rounds progress_callback task_groups
                  st0 Hp) as (Hb & Hdom & Hkey)
  end.
  cbn [batches all_results] in Hb, Hdom, Hkey.
  split; [exact Hb|]. split.
  - intros name. rewrite Hdom, lookup_empty. split.
    + intros [[x Hx]|H]; [discriminate|exact H].
    + auto.
  - apply Hkey. intros name r. rewrite lookup_empty. discriminate.
Qed.

Lemma dependencies_cover_all_groups_witness :
  let st := execute_with_dependencies same_each_round
              [[httpx_task]; []; [nmap_task; nikto_task]]
              (Some quiet_callback) 0 tt in
  batches st = length [[httpx_task]; []; [nmap_task; nikto_task]]
  /\ (forall name,
        is_Some (all_results st !! name)
        <-> exists task_group,
              In task_group [[httpx_task]; []; [nmap_task; nikto_task]]
              /\ In name (map tool_name task_group))
  /\ (forall name r, all_results st !! name = Some r -> r_tool_name r = name).
Proof.
  apply (dependencies_cover_all_groups same_each_round
           [[httpx_task]; []; [nmap_task; nikto_task]]
           (Some quiet_callback) 0 tt).
  intros k. exact reversing_pool_permutes.
Defined.

End ScannerExtra.

(** ** The tool registry *)

Module ToolCheckerExtra.

Import ToolChecker.

(** ['/' in name] *)
Fixpoint has_slash (name : string) : bool :=
  match name with
  | EmptyString => false
  | String c name' => Ascii.eqb c (chr 47) || has_slash name'
  end.

Lemma last_component_app (acc a b : string) :
  last_component acc (a +:+ b) = last_component (last_component acc a) b.
Proof.
  revert acc. induction a as [|c a IH]; intros acc; [reflexivity|].
  change (String c a +:+ b) with (String c (a +:+ b)). cbn [last_component].
  destruct (Ascii.eqb c (chr 47)); apply IH.
Qed.

Lemma last_component_plain (acc name : string) :
  has_slash name = false -> last_component acc name = acc +:+ name.
Proof.
  revert acc. induction name as [|c name IH]; intros acc; cbn [has_slash last_component].
  - intros _. clear. induction acc as [|c acc IH]; [reflexivity|].
    change (String c acc +:+ EmptyString) with (String c (acc +:+ EmptyString)).
    rewrite <- IH. reflexivity.
  - destruct (Ascii.eqb c (chr 47)); [discriminate|]. simpl orb.
    intros H. rewrite (IH _ H). unfold str1.
    clear. induction acc as [|c' acc IH]; [reflexivity|].
    change (String c' acc +:+ String c name)
      with (String c' (acc +:+ String c name)).
    rewrite <- IH. reflexivity.
Qed.

Lemma has_slash_app (a b : string) :
  has_slash (a +:+ b) = has_slash a || has_slash b.
Proof.
  induction a as [|c a IH]; [reflexivity|].
  change (String c a +:+ b) with (String c (a +:+ b)). cbn [has_slash].
  rewrite IH, orb_assoc. reflexivity.
Qed.

Lemma alias_has_no_slash (name : string) :
  has_slash name = true -> assoc name TOOL_ALIASES = None.
Proof.
  intros H. unfold TOOL_ALIASES. cbn [assoc].
  destruct (String.eqb name "testssl.sh") eqn:He; [|reflexivity].
  apply String.eqb_eq in He. subst name. discriminate.
Qed.

(** X25. [is_tool_available] looks up the last component of a path and
    nothing else: with a directory in front, the answer is the one for the
    file name as it stands.  The alias table is consulted for the whole
    argument only, so it is not applied to a name that comes with a path. *)
Theorem path_prefix_is_ignored (which : string -> bool) (dir name : string) :
  has_slash name = false ->
  is_tool_available which (dir +:+ "/" +:+ name) = which name.
Proof.
  intros Hname. unfold is_tool_available.
  rewrite alias_has_no_slash.
  2:{ rewrite has_slash_app. change ("/" +:+ name) with (String (chr 47) name).
      cbn [has_slash]. rewrite Ascii.eqb_refl. apply orb_true_r. }
  rewrite last_component_app.
  change ("/" +:+ name) with (String (chr 47) name).
  cbn [last_component]. rewrite Ascii.eqb_refl.
  rewrite (last_component_plain _ _ Hname). reflexivity.
Qed.

(** A system on which the script is installed under its full name only. *)
Definition only_testssl_sh : string -> bool := String.eqb "testssl.sh".

Lemma path_prefix_is_ignored_witness :
  is_tool_available only_testssl_sh ("/usr/bin" +:+ "/" +:+ "testssl.sh")
  = only_testssl_sh "testssl.sh".
Proof.
  apply (path_prefix_is_ignored only_testssl_sh "/usr/bin" "testssl.sh").
  reflexivity.
Defined.

Lemma assoc_snoc {A} (k t : string) (a : A) (seen : list (string * A)) :
  assoc k (seen ++ [(t, a)])
  = match assoc k seen with
    | Some v => Some v
    | None => if String.eqb k t then Some a else None
    end.
Proof.
  induction seen as [|[k' v'] seen IH]; simpl; [reflexivity|].
  destruct (String.eqb k k'); [reflexivity|exact IH].
Qed.

Lemma assoc_replace {A} (k t : string) (a : A) (seen : list (string * A)) :
  assoc k (map (fun kv => if String.eqb (fst kv) t then (t, a) else kv) seen)
  = match assoc k seen with
    | Some v => Some (if String.eqb k t then a else v)
    | None => None
    end.
Proof.
  induction seen as [|[k' v'] seen IH]; simpl; [reflexivity|].
  destruct (String.eqb k' t) eqn:Hk't; simpl.
  - apply String.eqb_eq in Hk't. subst k'.
    destruct (String.eqb k t); [reflexivity|exact IH].
  - destruct (String.eqb k k') eqn:Hkk'; [|exact IH].
    apply String.eqb_eq in Hkk'. subst k'. rewrite Hk't. reflexivity.
Qed.

Lemma get_available_tools_from_assoc (which : string -> bool)
    (tool_list : list string) (seen : list (string * bool)) (tool : string) :
  assoc tool (get_available_tools_from which tool_list seen)
  = if existsb (String.eqb tool) tool_list
    then Some (is_tool_available which tool)
    else assoc tool seen.
Proof.
  revert seen. induction tool_list as [|t l IH]; intros seen; [reflexivity|].
  cbn [get_available_tools_from existsb]. rewrite IH.
  destruct (existsb (String.eqb tool) l); [rewrite orb_true_r; reflexivity|].
  rewrite orb_false_r.
  destruct (assoc t seen) as [v|] eqn:Ht.
  - rewrite assoc_replace. destruct (String.eqb tool t) eqn:He.
    + apply String.eqb_eq in He. subst t. rewrite Ht. reflexivity.
    + destruct (assoc tool seen); reflexivity.
  - rewrite assoc_snoc. destruct (String.eqb tool t) eqn:He.
    + apply String.eqb_eq in He. subst t. rewrite Ht. reflexivity.
    + destruct (assoc tool seen); reflexivity.
Qed.

Lemma existsb_eqb_In (tool : string) (l : list string) :
  existsb (String.eqb tool) l = true <-> In tool l.
Proof.
  rewrite existsb_exists. split.
  - intros (x & Hx & He). apply String.eqb_eq in He. subst x. exact Hx.
  - intros H. exists tool. split; [exact H|apply String.eqb_refl].
Qed.

(** X26. [get_available_tools] and [get_missing_tools] agree: the
    dictionary has a key for exactly the tools of the list, with the answer
    of [is_tool_available] as its value, and the missing tools are the keys
    whose value is [False]. *)
Theorem missing_tools_are_the_unavailable (which : string -> bool)
    (tool_list : list string) (tool : string) :
  let availability := get_available_tools which tool_list in
  (is_Some (assoc tool availability) <-> In tool tool_list)
  /\ (forall available, assoc tool availability = Some available ->
                        available = is_tool_available which tool)
  /\ (In tool (get_missing_tools which tool_list)
      <-> assoc tool availability = Some false).
Proof.
  cbv zeta. unfold get_available_tools, get_missing_tools.
  rewrite get_available_tools_from_assoc. cbn [assoc].
  rewrite filter_In, <- existsb_eqb_In.
  destruct (existsb (String.eqb tool) tool_list).
  - split; [split; eauto|]. split; [intros a H; congruence|].
    destruct (is_tool_available which tool); simpl; split; try tauto;
      try (intros [_ H]; discriminate); intros H; discriminate.
  - split; [split; [intros [x Hx]; discriminate|discriminate]|].
    split; [discriminate|]. split; [intros [H _]|]; discriminate.
Qed.

End ToolCheckerExtra.
